(** * Homebase: plan execution engine, execution context, retry helper and
      sub-agent pool.

    A shallow embedding of the TypeScript of [specs/planning-execution.md],
    [specs/agent-runtime.md], [specs/tool-system.md] and
    [specs/sub-agents.md], with the properties of the task-execution core
    stated and proved over it. *)

From Stdlib Require Import ZArith Lia Ascii String QArith Qround Qminmax.
From stdpp Require Import gmap strings list sorting.

(** ** JavaScript values and completions *)

(** The fragment of [unknown] the engine inspects: [resolveArgs] only tests
    whether a value is a string. *)
Inductive Value :=
  | VUndefined
  | VNull
  | VBool (b : bool)
  | VNum (n : Z)
  | VStr (s : string).

(** [Record<string, unknown>] *)
Abbreviation Args := (gmap string Value).

(** A thrown value, by its [name] and [message]; a thrown string is the
    error with an empty name. *)
Record JsError := { err_name : string; err_message : string }.

(** [String(error)], that is [Error.prototype.toString]: the message alone
    when the name is empty, the name alone when the message is empty,
    [name: message] otherwise. *)
Definition String_of_error (e : JsError) : string :=
  match err_name e, err_message e with
  | EmptyString, msg => msg
  | nm, EmptyString => nm
  | nm, msg => nm +:+ ": " +:+ msg
  end.

(** How a call ends: with a value, or with an exception (for an [async]
    function: a promise that resolves, or one that rejects). *)
Inductive Completion (A : Type) :=
  | Returned (a : A)
  | Threw (e : JsError).
Arguments Returned {A} a.
Arguments Threw {A} e.

(** ** Plan structure (planning-execution.md, "Plan Structure") *)

Inductive StepStatus :=
  | pending | blocked | ready | running | completed | failed | skipped.

#[global] Instance StepStatus_eq_dec : EqDecision StepStatus.
Proof. solve_decision. Defined.

(** [interface StepResult]; the fields after [ok] are optional or left out
    by the object literals the engine builds, [res_skipped] is the extra
    [skipped: true] of the agent runtime's denial result. *)
Record StepResult := {
  ok : bool;
  value : option Value;
  error : option string;
  res_skipped : option bool;
  duration : option Z;
  timestamp : option string
}.

(** [{ ok: false, error: msg }] *)
Definition error_result (msg : string) : StepResult :=
  {| ok := false; value := None; error := Some msg; res_skipped := None;
     duration := None; timestamp := None |}.

(** [{ ok: true, value: v }] *)
Definition ok_result (v : Value) : StepResult :=
  {| ok := true; value := Some v; error := None; res_skipped := None;
     duration := None; timestamp := None |}.

(** [interface Step]. [critical] is not declared by the interface; the
    recovery snippet reads [step.critical] (absent reads as false). *)
Record Step := {
  id : string;
  order : Z;
  description : string;
  tool : string;
  args : Args;
  dependsOn : list string;
  status : StepStatus;
  result : option StepResult;
  critical : bool
}.

Record Plan := {
  plan_id : string;
  taskId : string;
  version : Z;
  steps : list Step;
  estimatedDuration : option Z;
  createdAt : string
}.

Definition with_status (v : StepStatus) (s : Step) : Step :=
  {| id := id s; order := order s; description := description s;
     tool := tool s; args := args s; dependsOn := dependsOn s;
     status := v; result := result s; critical := critical s |}.

Definition with_result (r : StepResult) (s : Step) : Step :=
  {| id := id s; order := order s; description := description s;
     tool := tool s; args := args s; dependsOn := dependsOn s;
     status := status s; result := Some r; critical := critical s |}.

Definition is_terminal (v : StepStatus) : bool :=
  match v with
  | completed | failed | skipped => true
  | _ => false
  end.

(** ** Tool system (tool-system.md) *)

(** [requiresApproval: boolean | ((args: unknown) => boolean)] *)
Inductive ApprovalPredicate :=
  | StaticApproval (b : bool)
  | DynamicApproval (f : Args -> bool).

(** [interface Tool]; the two schemas play no part in execution. *)
Record Tool := {
  name : string;
  tool_description : string;
  requiresApproval : ApprovalPredicate;
  execute : Args -> Completion StepResult
}.

(** [class ToolRegistry]: [private tools = new Map<string, Tool>()] *)
Abbreviation ToolRegistry := (gmap string Tool).

Definition register (t : Tool) (reg : ToolRegistry) : ToolRegistry :=
  <[name t := t]> reg.

Definition registry_get (reg : ToolRegistry) (n : string) : option Tool :=
  reg !! n.

(** Modelled from the spec: the helper [requiresApproval(step)] is not in
    the source. It evaluates the approval predicate of the step's tool, "a
    static boolean or a function of the arguments"; an unregistered tool
    asks for none. *)
Definition step_requiresApproval (tools : ToolRegistry) (s : Step) : bool :=
  match registry_get tools (tool s) with
  | Some t =>
      match requiresApproval t with
      | StaticApproval b => b
      | DynamicApproval f => f (args s)
      end
  | None => false
  end.

(** ** Execution context (planning-execution.md, "Execution Context") *)

Module ExecutionContext.

(** [private store = new Map<string, unknown>()] *)
Abbreviation t := (gmap string Value).

Definition empty : t := ∅.

Definition set (stepId : string) (v : Value) (store : t) : t :=
  <[stepId := v]> store.

(** [Map.get] answers [undefined] for a key that was never set. *)
Definition get (store : t) (stepId : string) : Value :=
  default VUndefined (store !! stepId).

(** The callback given to [mapValues]. *)
Definition resolveValue (store : t) (v : Value) : Value :=
  match v with
  | VStr (String "$"%char stepId) => get store stepId
  | _ => v
  end.

(** [resolveArgs] has no [throw]: it completes normally on every input. *)
Definition resolveArgs (store : t) (a : Args) : Completion Args :=
  Returned (resolveValue store <$> a).

End ExecutionContext.

(** ** Execution engine (planning-execution.md, "Execution Engine") *)

Module ExecutionEngine.

(** What the engine does that an observer can see. A step is named by its
    position in [plan.steps]: the engine holds references to the step
    objects of that array and mutates them in place. *)
Inductive Event :=
  | EvStatus (i : nat) (v : StepStatus)
  | EvProgress (i : nat) (v : StepStatus)
  | EvApprovalRequest (i : nat)
  | EvToolExecute (i : nat) (toolName : string) (a : Args).

Record EngineState := {
  plan_steps : list Step;
  context : ExecutionContext.t;
  trace : list Event
}.

Definition update_step (i : nat) (f : Step -> Step) (st : EngineState) : EngineState :=
  {| plan_steps := alter f i (plan_steps st);
     context := context st;
     trace := trace st |}.

Definition record (e : Event) (st : EngineState) : EngineState :=
  {| plan_steps := plan_steps st;
     context := context st;
     trace := trace st ++ [e] |}.

Definition context_set (k : string) (v : Value) (st : EngineState) : EngineState :=
  {| plan_steps := plan_steps st;
     context := ExecutionContext.set k v (context st);
     trace := trace st |}.

(** [step.status = v] *)
Definition assign_status (i : nat) (v : StepStatus) (st : EngineState) : EngineState :=
  record (EvStatus i v) (update_step i (with_status v) st).

(** [step.result = r] *)
Definition assign_result (i : nat) (r : StepResult) (st : EngineState) : EngineState :=
  update_step i (with_result r) st.

(** [plan.steps.find(s => s.id === depId)] *)
Definition find_step (all : list Step) (depId : string) : option Step :=
  List.find (fun s => bool_decide (id s = depId)) all.

(** Modelled from the spec: the helper [allDependenciesSatisfied] is not in
    the source. "A step is ready when all of its prerequisite steps are in
    status completed"; a reference that finds no step is not satisfied. *)
Definition allDependenciesSatisfied (s : Step) (all : list Step) : bool :=
  forallb (fun depId =>
             match find_step all depId with
             | Some d => bool_decide (status d = completed)
             | None => false
             end) (dependsOn s).

(** Modelled from the spec: the helper [hasRemainingSteps] is not in the
    source. Steps remain while some step has no terminal status. *)
Definition hasRemainingSteps (all : list Step) : bool :=
  existsb (fun s => negb (is_terminal (status s))) all.

(** The predicate of the [filter] in [execute]. *)
Definition is_ready (all : list Step) (s : Step) : bool :=
  bool_decide (status s = pending) && allDependenciesSatisfied s all.

(** [plan.steps.filter(...)]: the references kept, in array order. *)
Fixpoint ready_from (all : list Step) (i : nat) (l : list Step) : list nat :=
  match l with
  | [] => []
  | s :: l' =>
      if is_ready all s then i :: ready_from all (S i) l'
      else ready_from all (S i) l'
  end.

Definition readySteps (all : list Step) : list nat := ready_from all 0 all.

(** Where an [executeStep] call is suspended. *)
Inductive Suspension :=
  | AwaitApproval
  | AwaitTool (c : Completion StepResult).

(** [undefined.execute] *)
Definition TypeError_execute : JsError :=
  {| err_name := "TypeError";
     err_message := "Cannot read properties of undefined (reading 'execute')" |}.

Section Engine.

(** [toolRegistry], and the user's answer to the approval dialog of a step,
    by step id ([false]: denied). *)
Variable toolRegistry : ToolRegistry.
Variable requestApproval : string -> bool.

(** The [catch] block. *)
Definition catch_error (i : nat) (e : JsError) (st : EngineState) : EngineState :=
  record (EvProgress i failed)
    (assign_result i (error_result (String_of_error e))
       (assign_status i failed st)).

(** [toolRegistry.get(step.tool)!] and the call [tool.execute(step.args)];
    with no such tool the property access throws into the [catch] block. *)
Definition call_tool (i : nat) (step : Step) (st : EngineState)
  : EngineState * option Suspension :=
  match registry_get toolRegistry (tool step) with
  | None => (catch_error i TypeError_execute st, None)
  | Some t =>
      (record (EvToolExecute i (tool step) (args step)) st,
       Some (AwaitTool (execute t (args step))))
  end.

(** What follows [await tool.execute(step.args)]. *)
Definition settle (i : nat) (step : Step) (c : Completion StepResult)
    (st : EngineState) : EngineState :=
  match c with
  | Returned r =>
      let v := if ok r then completed else failed in
      record (EvProgress i v)
        (context_set (id step) (default VUndefined (value r))
           (assign_result i r (assign_status i v st)))
  | Threw e => catch_error i e st
  end.

(** [executeStep] up to its first [await]: the part that runs inside
    [readySteps.map(...)]. *)
Definition executeStep_begin (i : nat) (st : EngineState)
  : EngineState * option Suspension :=
  match plan_steps st !! i with
  | None => (st, None)
  | Some step =>
      let st1 := record (EvProgress i running) (assign_status i running st) in
      if step_requiresApproval toolRegistry step
      then (record (EvApprovalRequest i) st1, Some AwaitApproval)
      else call_tool i step st1
  end.

(** [executeStep] from the point where it was suspended to its end. *)
Definition executeStep_resume (i : nat) (k : Suspension) (st : EngineState)
  : EngineState :=
  match plan_steps st !! i with
  | None => st
  | Some step =>
      match k with
      | AwaitApproval =>
          if requestApproval (id step) then
            match call_tool i step st with
            | (st1, Some (AwaitTool c)) => settle i step c st1
            | (st1, _) => st1
            end
          else
            assign_result i (error_result "User denied approval")
              (assign_status i skipped st)
      | AwaitTool c => settle i step c st
      end
  end.

(** One call of [executeStep] run to its end. *)
Definition executeStep (i : nat) (st : EngineState) : EngineState :=
  match executeStep_begin i st with
  | (st1, Some k) => executeStep_resume i k st1
  | (st1, None) => st1
  end.

(** [readySteps.map(step => this.executeStep(step, context))]: every call
    runs to its first [await] before any of them is resumed. The array of
    promises is modelled by the list of calls with, for each, where it is
    suspended ([None]: it has ended already). *)
Fixpoint begin_all (R : list nat) (st : EngineState)
  : EngineState * list (nat * option Suspension) :=
  match R with
  | [] => (st, [])
  | i :: R' =>
      let '(st1, k) := executeStep_begin i st in
      let '(st2, ks) := begin_all R' st1 in
      (st2, (i, k) :: ks)
  end.

(** [await Promise.all(...)]: the suspended calls are resumed, here in array
    order; they touch different steps. *)
Fixpoint resume_all (ks : list (nat * option Suspension)) (st : EngineState)
  : EngineState :=
  match ks with
  | [] => st
  | (i, Some k) :: ks' => resume_all ks' (executeStep_resume i k st)
  | (i, None) :: ks' => resume_all ks' st
  end.

(** The body of the [while] loop once [readySteps] is not empty. *)
Definition tick (R : list nat) (st : EngineState) : EngineState :=
  let '(st1, ks) := begin_all R st in resume_all ks st1.

(** The [while] loop of [execute]; [None] when the fuel runs out. *)
Fixpoint run (fuel : nat) (st : EngineState) : option EngineState :=
  match fuel with
  | 0 => None
  | S fuel' =>
      if hasRemainingSteps (plan_steps st) then
        match readySteps (plan_steps st) with
        | [] => Some st
        | R => run fuel' (tick R st)
        end
      else Some st
  end.

Definition initial (plan : Plan) : EngineState :=
  {| plan_steps := steps plan; context := ExecutionContext.empty; trace := [] |}.

(** The loop of [execute] on a plan; one round per step and one more
    suffice (see [run_enough_fuel]). *)
Definition execute_loop (plan : Plan) : option EngineState :=
  run (S (length (steps plan))) (initial plan).

End Engine.

(** ** Execution summary *)

Inductive RunStatus :=
  | RunCompleted | RunFailed | RunCancelled | RunStructuralError.

Record ExecutionSummary := {
  perStepResults : list (string * StepStatus * option StepResult);
  overallStatus : RunStatus
}.

(** Modelled from the spec: [summarize] is not in the source. "If a
    scheduling tick finds zero ready steps but steps remain in
    pending/blocked ... the engine terminates the run with a
    structural-error status"; "for all plans with a failed critical step ...
    the run summary reports status failed"; otherwise the run completed,
    with or without skips. *)
Definition overall_status (all : list Step) : RunStatus :=
  if existsb (fun s => bool_decide (status s = pending)
                       || bool_decide (status s = blocked)) all
  then RunStructuralError
  else if existsb (fun s => bool_decide (status s = failed) && critical s) all
  then RunFailed
  else RunCompleted.

(** Modelled from the spec: "the run summary always enumerates every step's
    final status and result". *)
Definition summarize (st : EngineState) : ExecutionSummary :=
  {| perStepResults := (fun s => (id s, status s, result s)) <$> plan_steps st;
     overallStatus := overall_status (plan_steps st) |}.

(** [async execute(plan)] *)
Definition execute (toolRegistry : ToolRegistry) (requestApproval : string -> bool)
    (plan : Plan) : option ExecutionSummary :=
  summarize <$> execute_loop toolRegistry requestApproval plan.

End ExecutionEngine.

(** ** Agent runtime (agent-runtime.md) *)

Module AgentRuntime.

Inductive RuntimeEvent :=
  | RtApprovalRequest (stepId : string)
  | RtToolExecute (stepId toolName : string) (a : Args)
  | RtReportProgress (stepId : string) (v : StepStatus) (r : StepResult).

(** [{ ok: false, error: 'User denied approval', skipped: true }] *)
Definition denial_result : StepResult :=
  {| ok := false; value := None; error := Some "User denied approval";
     res_skipped := Some true; duration := None; timestamp := None |}.

(** The names every ordinary object answers through [Object.prototype],
    each with a value that is truthy and has no [execute]. *)
Definition Object_prototype : list string :=
  ["constructor"; "__proto__"; "hasOwnProperty"; "isPrototypeOf";
   "propertyIsEnumerable"; "toLocaleString"; "toString"; "valueOf";
   "__defineGetter__"; "__defineSetter__"; "__lookupGetter__";
   "__lookupSetter__"].

(** Calling the [execute] of a value that has none. *)
Definition TypeError_not_a_function : JsError :=
  {| err_name := "TypeError"; err_message := "tool.execute is not a function" |}.

(** [async function executeStep(step)]: the completion and what it did.
    [tools] is the object indexed by [tools[step.tool]], an ordinary object
    whose own properties are the registered tools: the property access
    answers a registered tool, else for a name of [Object.prototype] a value
    that passes [if (!tool)] and whose [execute] cannot be called, else
    [undefined]. *)
Definition executeStep (tools : ToolRegistry) (requestApproval : string -> bool)
    (step : Step) : Completion StepResult * list RuntimeEvent :=
  let asked :=
    if step_requiresApproval tools step
    then [RtApprovalRequest (id step)] else [] in
  if step_requiresApproval tools step && negb (requestApproval (id step))
  then (Returned denial_result, asked)
  else
    match tools !! tool step with
    | None =>
        if bool_decide (tool step ∈ Object_prototype)
        then (Threw TypeError_not_a_function, asked)
        else (Returned (error_result ("Unknown tool: " +:+ tool step)), asked)
    | Some t =>
        let called := asked ++ [RtToolExecute (id step) (tool step) (args step)] in
        match execute t (args step) with
        | Returned r =>
            (Returned r,
             called ++ [RtReportProgress (id step)
                          (if ok r then completed else failed) r])
        | Threw e => (Threw e, called)
        end
    end.

(** [Result<T>] *)
Inductive Result (T : Type) :=
  | Ok (v : T)
  | Err (e : JsError).
Arguments Ok {T} v.
Arguments Err {T} e.

Inductive RetryEvent :=
  | Attempt (i : nat)
  | Sleep (ms : Z).

Definition Unreachable : JsError :=
  {| err_name := "Error"; err_message := "Unreachable" |}.

(** The [for] loop of [executeWithRetry] from counter [i], with [remaining]
    rounds before [i < maxRetries] fails. [fn k] is how the call number [k]
    of [fn] ends. *)
Fixpoint retry_from {T : Type} (fn : nat -> Completion T) (maxRetries : Z)
    (i remaining : nat) : Completion (Result T) * list RetryEvent :=
  match remaining with
  | 0 => (Threw Unreachable, [])
  | S remaining' =>
      match fn i with
      | Returned v => (Returned (Ok v), [Attempt i])
      | Threw e =>
          if (Z.of_nat i =? maxRetries - 1)%Z
          then (Returned (Err e), [Attempt i])
          else
            let '(r, evs) := retry_from fn maxRetries (S i) remaining' in
            (r, Attempt i :: Sleep (1000 * 2 ^ Z.of_nat i) :: evs)
      end
  end.

(** [async function executeWithRetry<T>(fn, maxRetries = 3)] *)
Definition executeWithRetry {T : Type} (fn : nat -> Completion T)
    (maxRetries : option Z) : Completion (Result T) * list RetryEvent :=
  let n := default 3%Z maxRetries in
  retry_from fn n 0 (Z.to_nat n).

Definition attempts (evs : list RetryEvent) : nat :=
  length (List.filter (fun e => match e with Attempt _ => true | _ => false end) evs).

Definition delays (evs : list RetryEvent) : list Z :=
  omap (fun e => match e with Sleep ms => Some ms | _ => None end) evs.

End AgentRuntime.

(** ** Error recovery, strategy 2 (planning-execution.md, "Retry") *)

Module Recovery.

Definition maxRetries : Z := 3.

(** The retry loop around [await executeStep(step)] from counter [i], with
    [remaining] rounds before [i < maxRetries] fails; [attempt k] is how
    the call number [k] of [executeStep] ends. The loop has no [try]: a
    call that throws leaves the loop with its error. *)
Fixpoint retry_from (attempt : nat -> Completion StepResult) (i remaining : nat)
  : Completion unit * list AgentRuntime.RetryEvent :=
  match remaining with
  | 0 => (Returned tt, [])
  | S remaining' =>
      match attempt i with
      | Threw e => (Threw e, [AgentRuntime.Attempt i])
      | Returned r =>
          if ok r then (Returned tt, [AgentRuntime.Attempt i])
          else
            let slept :=
              if (Z.of_nat i <? maxRetries - 1)%Z
              then [AgentRuntime.Sleep (1000 * (Z.of_nat i + 1))] else [] in
            let '(c, evs) := retry_from attempt (S i) remaining' in
            (c, AgentRuntime.Attempt i :: slept ++ evs)
      end
  end.



End Recovery.

(** ** Sub-agent pool (sub-agents.md) *)

Module SubAgentPool.

Inductive AgentStatus := idle | running.

(** A sub-agent; its worker thread is not modelled. *)
Record SubAgent := { agent_id : nat; agent_status : AgentStatus }.

(** The numbers of the pool ([maxConcurrency], [count]) are JavaScript
    numbers: any finite number, whole or not. *)
Record t := {
  agents : list SubAgent;
  maxConcurrency : Q
}.

(** [constructor(maxConcurrency = 5)] *)
Definition new (maxConcurrency : option Q) : t :=
  {| agents := []; maxConcurrency := default 5%Q maxConcurrency |}.

Definition createSubAgent (i : nat) : SubAgent :=
  {| agent_id := i; agent_status := idle |}.

(** The [for] loop of [spawn] from counter [i]: it goes on while
    [i < toSpawn]; [rounds] bounds the rounds still allowed. *)
Fixpoint spawn_loop (toSpawn : Q) (i rounds : nat) (acc : list SubAgent)
  : list SubAgent :=
  match rounds with
  | 0 => acc
  | S rounds' =>
      if Qle_bool toSpawn (inject_Z (Z.of_nat i)) then acc
      else spawn_loop toSpawn (S i) rounds' (acc ++ [createSubAgent i])
  end.

(** [async spawn(count)]: the pool afterwards; the call returns its
    [agents]. The loop is given the rounds it needs: the test
    [i < toSpawn] fails at the first whole [i] that is not below
    [toSpawn] (see [spawn_loop_seq]). *)
Definition spawn (count : Q) (pool : t) : t :=
  let toSpawn := Qmin count (maxConcurrency pool) in
  {| agents := spawn_loop toSpawn 0 (Z.to_nat (Qceiling toSpawn)) (agents pool);
     maxConcurrency := maxConcurrency pool |}.

(** [executeAll] starts one [processQueue] loop per agent of the pool. *)
Definition workers (pool : t) : nat := length (agents pool).

(** Each loop takes a task while the queue has one: once all loops have
    started, this many agents are running a task at the same time. *)
Definition running_at_start {Task : Type} (pool : t) (tasks : list Task) : nat :=
  Nat.min (workers pool) (length tasks).

(** [shutdown] *)
Definition shutdown (pool : t) : t :=
  {| agents := []; maxConcurrency := maxConcurrency pool |}.

(** [const limits], with the number of CPUs of the host. *)
Definition maxSubAgents : Z := 10.
Definition maxPerTask : Z := 5.
Definition cpuBased (cpus : Z) : Z := Z.max 2 (cpus - 2).

(** [count: z.number().min(1).max(10)] of the tool's input schema: a
    number between 1 and 10, whole or not ([z.number()] rejects [NaN], the
    bounds leave out the infinities). *)
Definition count_in_schema (count : Q) : bool :=
  Qle_bool 1 count && Qle_bool count 10.

(** The pool [spawnSubAgentsTool.execute(args)] runs the batch on:
    [new SubAgentPool(args.count)] then [pool.spawn(args.count)]. *)
Definition tool_pool (count : Q) : t :=
  spawn count (new (Some count)).

End SubAgentPool.

(** ** Vocabulary of the statements *)

Section Vocabulary.

Context (reg : ToolRegistry) (appr : string -> bool).

(** The step asks for approval and the user says no. *)
Definition denied (s : Step) : bool :=
  step_requiresApproval reg s && negb (appr (id s)).

(** How the call of the step's tool ends, when the tool is registered. *)
Definition toolCall (s : Step) : option (Completion StepResult) :=
  (fun t => execute t (args s)) <$> registry_get reg (tool s).

(** The step object once [tool.execute] has ended with [c]. *)
Definition settleStep (c : Completion StepResult) (s : Step) : Step :=
  match c with
  | Returned r =>
      with_result r (with_status (if ok r then completed else failed) s)
  | Threw e =>
      with_result (error_result (String_of_error e)) (with_status failed s)
  end.

Definition deniedStep (s : Step) : Step :=
  with_result (error_result "User denied approval") (with_status skipped s).

Definition calledStep (s : Step) : Step :=
  match toolCall s with
  | Some c => settleStep c s
  | None => settleStep (Threw ExecutionEngine.TypeError_execute) s
  end.

(** The step object when [executeStep] reaches its first [await]. *)
Definition began (s : Step) : Step :=
  if step_requiresApproval reg s then with_status running s
  else match toolCall s with
       | Some _ => with_status running s
       | None => settleStep (Threw ExecutionEngine.TypeError_execute) s
       end.

Definition suspension_of (s : Step) : option ExecutionEngine.Suspension :=
  if step_requiresApproval reg s then Some ExecutionEngine.AwaitApproval
  else ExecutionEngine.AwaitTool <$> toolCall s.

(** The step object when a suspended [executeStep] has ended. *)
Definition finished (k : option ExecutionEngine.Suspension) (s : Step) : Step :=
  match k with
  | Some ExecutionEngine.AwaitApproval =>
      if appr (id s) then calledStep s else deniedStep s
  | Some (ExecutionEngine.AwaitTool c) => settleStep c s
  | None => s
  end.

(** The step object after a whole [executeStep]. *)
Definition settled (s : Step) : Step :=
  if denied s then deniedStep s else calledStep s.

(** The events of [call_tool], of [executeStep] up to its first [await],
    of [settle] and of a resumed [executeStep], for step [i]. *)
Definition call_events (i : nat) (s : Step) : list ExecutionEngine.Event :=
  match registry_get reg (tool s) with
  | Some _ => [ExecutionEngine.EvToolExecute i (tool s) (args s)]
  | None => [ExecutionEngine.EvStatus i failed; ExecutionEngine.EvProgress i failed]
  end.

Definition begin_events (i : nat) (s : Step) : list ExecutionEngine.Event :=
  [ExecutionEngine.EvStatus i running; ExecutionEngine.EvProgress i running] ++
  (if step_requiresApproval reg s then [ExecutionEngine.EvApprovalRequest i]
   else call_events i s).

Definition settle_events (i : nat) (c : Completion StepResult)
  : list ExecutionEngine.Event :=
  match c with
  | Returned r =>
      [ExecutionEngine.EvStatus i (if ok r then completed else failed);
       ExecutionEngine.EvProgress i (if ok r then completed else failed)]
  | Threw _ =>
      [ExecutionEngine.EvStatus i failed; ExecutionEngine.EvProgress i failed]
  end.

Definition resume_events (i : nat) (k : option ExecutionEngine.Suspension)
    (s : Step) : list ExecutionEngine.Event :=
  match k with
  | Some ExecutionEngine.AwaitApproval =>
      if appr (id s)
      then call_events i s ++
           match toolCall s with Some c => settle_events i c | None => [] end
      else [ExecutionEngine.EvStatus i skipped]
  | Some (ExecutionEngine.AwaitTool c) => settle_events i c
  | None => []
  end.

(** The context once [tool.execute] has ended with [c] for step [s]. *)
Definition settle_context (c : Completion StepResult) (s : Step)
    (store : ExecutionContext.t) : ExecutionContext.t :=
  match c with
  | Returned r => ExecutionContext.set (id s) (default VUndefined (value r)) store
  | Threw _ => store
  end.

Definition resume_context (k : option ExecutionEngine.Suspension) (s : Step)
    (store : ExecutionContext.t) : ExecutionContext.t :=
  match k with
  | Some ExecutionEngine.AwaitApproval =>
      if appr (id s)
      then match toolCall s with
           | Some c => settle_context c s store
           | None => store
           end
      else store
  | Some (ExecutionEngine.AwaitTool c) => settle_context c s store
  | None => store
  end.

(** The step is not denied and its tool returns a result with [ok: true]. *)
Definition succeeds (s : Step) : Prop :=
  denied s = false /\
  exists r, toolCall s = Some (Returned r) /\ ok r = true.

(** What one round of the loop does to a step. *)
Definition round_step (all : list Step) (s : Step) : Step :=
  if ExecutionEngine.is_ready all s then settled s else s.

(** The events of one whole [executeStep] on step [i]. *)
Definition step_events (i : nat) (s : Step) : list ExecutionEngine.Event :=
  begin_events i s ++ resume_events i (suspension_of s) s.

End Vocabulary.

(** [f] of the step at position [i], [d] when there is none. *)
Definition on_step {B : Type} (st : ExecutionEngine.EngineState) (i : nat)
    (f : Step -> B) (d : B) : B :=
  match ExecutionEngine.plan_steps st !! i with Some s => f s | None => d end.

(** The step an event is about. *)
Definition ev_index (e : ExecutionEngine.Event) : nat :=
  match e with
  | ExecutionEngine.EvStatus i _ | ExecutionEngine.EvProgress i _
  | ExecutionEngine.EvApprovalRequest i | ExecutionEngine.EvToolExecute i _ _ => i
  end.

(** A predicate on events that only holds of events of step [i]. *)
Definition about (i : nat) (p : ExecutionEngine.Event -> bool) : Prop :=
  forall e, p e = true -> ev_index e = i.

(** Counting in a trace. *)
Fixpoint count_events (p : ExecutionEngine.Event -> bool)
    (tr : list ExecutionEngine.Event) : nat :=
  match tr with
  | [] => 0
  | e :: tr' => (if p e then 1 else 0) + count_events p tr'
  end.

(** [step.status = 'running'] on step [i]: a dispatch. *)
Definition is_dispatch (i : nat) (e : ExecutionEngine.Event) : bool :=
  match e with
  | ExecutionEngine.EvStatus j running => bool_decide (j = i)
  | _ => false
  end.

(** A terminal status written to step [i]. *)
Definition is_terminal_write (i : nat) (e : ExecutionEngine.Event) : bool :=
  match e with
  | ExecutionEngine.EvStatus j v => bool_decide (j = i) && is_terminal v
  | _ => false
  end.

(** [tool.execute] called for step [i]. *)
Definition is_tool_execute (i : nat) (e : ExecutionEngine.Event) : bool :=
  match e with
  | ExecutionEngine.EvToolExecute j _ _ => bool_decide (j = i)
  | _ => false
  end.


Definition pending_count (all : list Step) : nat :=
  length (List.filter (fun s => bool_decide (status s = pending)) all).

(** A plan as the planner hands it over: nothing has run yet. *)
Definition fresh (all : list Step) : Prop :=
  Forall (fun s => status s = pending /\ result s = None) all.

(** Modelled from the spec: [buildDependencyGraph], used by [validatePlan],
    is not in the source. A node per step, in plan order: the step's id and
    the ids it depends on. *)
Definition buildDependencyGraph (all : list Step) : list (string * list string) :=
  (fun s => (id s, dependsOn s)) <$> all.

(** Every dependency reference names a step of the plan
    ([validatePlan]: "Dependencies exist?"). *)
Definition resolvable (all : list Step) : Prop :=
  Forall (fun n => Forall (fun d => d ∈ (buildDependencyGraph all).*1) n.2)
    (buildDependencyGraph all).

(** The dependency graph has no cycle: the steps can be ranked so that
    every step ranks above the steps it depends on. *)
Definition acyclic (all : list Step) : Prop :=
  exists rk : string -> nat,
    Forall (fun n => Forall (fun d => rk d < rk n.1) n.2)
      (buildDependencyGraph all).

(** Every step names a registered tool ([validatePlan]: "Tool exists?"). *)
Definition tools_known (tools : ToolRegistry) (all : list Step) : Prop :=
  Forall (fun s => is_Some (registry_get tools (tool s))) all.

(** What [validatePlan] accepts, on a plan that has not run yet; the check
    of the arguments against the tool's input schema is left out. *)
Definition valid_plan (tools : ToolRegistry) (all : list Step) : Prop :=
  fresh all /\ tools_known tools all /\ resolvable all /\ acyclic all.

(** [s] names [t] as a prerequisite, and the reference resolves to [t]. *)
Definition depends (all : list Step) (s t : Step) : Prop :=
  s ∈ all /\ id t ∈ dependsOn s /\ ExecutionEngine.find_step all (id t) = Some t.


(** The delay [executeWithRetry] waits after the failed attempt number [i]. *)
Definition backoff (i : nat) : Z := (1000 * 2 ^ Z.of_nat i)%Z.

Section Invariant.

Context (reg : ToolRegistry) (appr : string -> bool).

(** The state of step [i] in a run of the plan [P0]: untouched, or
    dispatched once and settled once. *)
Definition step_inv (P0 : list Step) (st : ExecutionEngine.EngineState) (i : nat) (s : Step) : Prop :=
  (status s = pending /\ P0 !! i = Some s /\
   count_events (is_dispatch i) (ExecutionEngine.trace st) = 0 /\
   count_events (is_terminal_write i) (ExecutionEngine.trace st) = 0 /\
   count_events (is_tool_execute i) (ExecutionEngine.trace st) = 0)
  \/
  (exists s0, P0 !! i = Some s0 /\ s = settled reg appr s0 /\
   ExecutionEngine.allDependenciesSatisfied s (ExecutionEngine.plan_steps st) = true /\
   count_events (is_dispatch i) (ExecutionEngine.trace st) = 1 /\
   count_events (is_terminal_write i) (ExecutionEngine.trace st) = 1 /\
   (denied reg appr s0 = true ->
    count_events (is_tool_execute i) (ExecutionEngine.trace st) = 0)).

Definition run_inv (P0 : list Step) (st : ExecutionEngine.EngineState) : Prop :=
  forall i s, ExecutionEngine.plan_steps st !! i = Some s -> step_inv P0 st i s.

(** Throughout a run, [tool.execute] has not been called for a step that
    is denied. *)
Definition exec_inv (st : ExecutionEngine.EngineState) : Prop :=
  forall i s, ExecutionEngine.plan_steps st !! i = Some s -> denied reg appr s = true ->
    count_events (is_tool_execute i) (ExecutionEngine.trace st) = 0.

End Invariant.

(** ** Plan validation (planning-execution.md, "Plan Validation") *)

Module PlanValidation.

(** [Result<void>] with a text for the error. *)
Inductive Result :=
  | Ok
  | Error (msg : string).

Section Validate.

(** [toolRegistry]; [hasCycle], which is not in the source; and the
    outcome [success] of [tool.inputSchema.safeParse(step.args)], the [Tool]
    record above carrying no schema. *)
Variable toolRegistry : ToolRegistry.
Variable hasCycle : list (string * list string) -> bool.
Variable safeParse : Tool -> Args -> bool.

(** [for (const depId of step.dependsOn)] *)
Fixpoint check_dependencies (all : list Step) (deps : list string) : Result :=
  match deps with
  | [] => Ok
  | depId :: deps' =>
      match ExecutionEngine.find_step all depId with
      | None => Error ("Unknown dependency: " +:+ depId)
      | Some _ => check_dependencies all deps'
      end
  end.

(** The body of [for (const step of plan.steps)]. *)
Definition check_step (all : list Step) (step : Step) : Result :=
  match registry_get toolRegistry (tool step) with
  | None => Error ("Unknown tool: " +:+ tool step)
  | Some t =>
      if safeParse t (args step)
      then check_dependencies all (dependsOn step)
      else Error ("Invalid args for " +:+ tool step)
  end.

Fixpoint check_steps (all : list Step) (l : list Step) : Result :=
  match l with
  | [] => Ok
  | step :: l' =>
      match check_step all step with
      | Ok => check_steps all l'
      | Error msg => Error msg
      end
  end.

(** [function validatePlan(plan)] *)
Definition validatePlan (plan : Plan) : Result :=
  if hasCycle (buildDependencyGraph (steps plan))
  then Error "Plan contains circular dependencies"
  else check_steps (steps plan) (steps plan).

End Validate.

End PlanValidation.

(** ** Running a batch on the pool (sub-agents.md, [executeAll]) *)

Module PoolRun.

Section Run.

Context {Task T : Type}.

(** How [agent.execute(task)] ends. *)
Variable execute : Task -> Completion T.

(** The pool while [executeAll] runs: the agents, for each agent the task
    its [processQueue] loop is awaiting, the shared [queue], the shared
    [results]; and what was done: the calls of [agent.execute] (position
    of the agent, task), the tasks whose call has returned, the calls of
    [onProgress], the tasks whose call has thrown. *)
Record State := {
  agents : list SubAgentPool.SubAgent;
  slots : list (option Task);
  queue : list Task;
  results : list T;
  calls : list (nat * Task);
  returned : list Task;
  progress : list T;
  thrown : list Task
}.

Definition set_agent_status (v : SubAgentPool.AgentStatus)
    (a : SubAgentPool.SubAgent) : SubAgentPool.SubAgent :=
  {| SubAgentPool.agent_id := SubAgentPool.agent_id a;
     SubAgentPool.agent_status := v |}.

(** The head of the [while] loop of [processQueue] for the agent at
    position [a]: with an empty queue the loop ends; otherwise the first
    task is shifted, the agent is marked running and [agent.execute] is
    called. Tasks are objects: [if (!task) break] never fires. *)
Definition take (a : nat) (st : State) : State :=
  match queue st with
  | [] =>
      {| agents := agents st; slots := <[a := None]> (slots st);
         queue := []; results := results st; calls := calls st;
         returned := returned st; progress := progress st;
         thrown := thrown st |}
  | task :: q =>
      {| agents := alter (set_agent_status SubAgentPool.running) a (agents st);
         slots := <[a := Some task]> (slots st);
         queue := q; results := results st;
         calls := calls st ++ [(a, task)];
         returned := returned st; progress := progress st;
         thrown := thrown st |}
  end.

(** [this.agents.map(agent => this.processQueue(...))]: every loop runs to
    its first [await]. *)
Fixpoint start_from (a n : nat) (st : State) : State :=
  match n with
  | 0 => st
  | S n' => start_from (S a) n' (take a st)
  end.

(** [const results = []; const queue = [...tasks]] and the start of the
    loops. *)
Definition start (pool : SubAgentPool.t) (tasks : list Task) : State :=
  start_from 0 (length (SubAgentPool.agents pool))
    {| agents := SubAgentPool.agents pool;
       slots := replicate (length (SubAgentPool.agents pool)) None;
       queue := tasks; results := []; calls := [];
       returned := []; progress := []; thrown := [] |}.

(** The agents whose loop awaits a task, by position. *)
Fixpoint in_flight_from (a : nat) (l : list (option Task)) : list nat :=
  match l with
  | [] => []
  | Some _ :: l' => a :: in_flight_from (S a) l'
  | None :: l' => in_flight_from (S a) l'
  end.

Definition in_flight (st : State) : list nat := in_flight_from 0 (slots st).

(** The call awaited by agent [a] returns [r]: the agent is idle again, the
    result is pushed and reported, and the loop goes round. *)
Definition resume (a : nat) (task : Task) (r : T) (st : State) : State :=
  take a
    {| agents := alter (set_agent_status SubAgentPool.idle) a (agents st);
       slots := slots st; queue := queue st;
       results := results st ++ [r]; calls := calls st;
       returned := returned st ++ [task];
       progress := progress st ++ [r];
       thrown := thrown st |}.

(** The call awaited by agent [a] throws: its loop ends there, the agent
    still marked running. *)
Definition abandon (a : nat) (st : State) : State :=
  {| agents := agents st; slots := <[a := None]> (slots st);
     queue := queue st; results := results st; calls := calls st;
     returned := returned st; progress := progress st;
     thrown := thrown st ++
               match slots st !! a with Some (Some task) => [task] | _ => [] end |}.

(** [await Promise.all(workers)] then [return results]. Which of the
    awaited calls ends next is not fixed by the code: [choice k] picks, at
    the [k]-th completion, among the agents in flight. The first call that
    throws makes [executeAll] throw. [None] when the fuel runs out. *)
Fixpoint await_all (choice : nat -> nat) (k fuel : nat) (st : State)
  : option (Completion (list T) * State) :=
  match in_flight st with
  | [] => Some (Returned (results st), st)
  | a0 :: rest =>
      match fuel with
      | 0 => None
      | S fuel' =>
          let a := nth (choice k mod length (a0 :: rest)) (a0 :: rest) a0 in
          match slots st !! a with
          | Some (Some task) =>
              match execute task with
              | Returned r => await_all choice (S k) fuel' (resume a task r st)
              | Threw e => Some (Threw e, abandon a st)
              end
          | _ => Some (Returned (results st), st)
          end
      end
  end.

(** One more step of a batch under way: of the calls awaited, one returns
    or one throws. The loops of the other agents go on either way, also
    once [Promise.all] has rejected. *)
Inductive step : State -> State -> Prop :=
  | step_returns (a : nat) (task : Task) (r : T) (st : State) :
      slots st !! a = Some (Some task) ->
      execute task = Returned r ->
      step st (resume a task r st)
  | step_throws (a : nat) (task : Task) (e : JsError) (st : State) :
      slots st !! a = Some (Some task) ->
      execute task = Threw e ->
      step st (abandon a st).

(** The calls of [agent.execute] made and not ended yet. *)
Definition outstanding (st : State) : nat :=
  length (calls st) - (length (returned st) + length (thrown st)).

(** The states a batch goes through, whatever the order in which the
    calls end. *)
Definition reachable (pool : SubAgentPool.t) (tasks : list Task) (st : State)
  : Prop :=
  rtc step (start pool tasks) st.

(** [async executeAll(tasks, onProgress)]: one completion per task
    suffices (see [await_all_spec]). *)
Definition executeAll (choice : nat -> nat) (pool : SubAgentPool.t)
    (tasks : list Task) : option (Completion (list T) * State) :=
  await_all choice 0 (length tasks) (start pool tasks).

End Run.

(** The handling of a partial failure: [results.filter(r => r.ok)] and
    [results.filter(r => !r.ok)]. *)
Definition succeeded (results : list StepResult) : list StepResult :=
  List.filter ok results.

Definition failed (results : list StepResult) : list StepResult :=
  List.filter (fun r => negb (ok r)) results.

End PoolRun.

(** ** Sample tools and plans *)

Module Samples.

Definition read_file : Tool :=
  {| name := "read_file"; tool_description := "Read the contents of a file";
     requiresApproval := StaticApproval false;
     execute := fun _ => Returned (ok_result (VStr "contents")) |}.

(** A tool whose run reports a failure. *)
Definition run_code : Tool :=
  {| name := "run_code"; tool_description := "Run code in the workspace";
     requiresApproval := StaticApproval false;
     execute := fun _ => Returned (error_result "EXECUTION_ERROR") |}.

(** A destructive tool: always asks. *)
Definition delete_file : Tool :=
  {| name := "delete_file"; tool_description := "Delete a file";
     requiresApproval := StaticApproval true;
     execute := fun _ => Returned (ok_result VNull) |}.

Definition tools : ToolRegistry :=
  register read_file (register run_code (register delete_file ∅)).

Definition approve_all : string -> bool := fun _ => true.
Definition deny_all : string -> bool := fun _ => false.

Definition step (i : string) (o : Z) (t : string) (deps : list string) : Step :=
  {| id := i; order := o; description := ""; tool := t; args := ∅;
     dependsOn := deps; status := pending; result := None; critical := false |}.

Definition plan_of (l : list Step) : Plan :=
  {| plan_id := "plan_1"; taskId := "task_1"; version := 1; steps := l;
     estimatedDuration := None; createdAt := "2024-01-01T00:00:00Z" |}.

(** [A] fails; [B] depends on [A], [C] on [B]; [D] stands alone. *)
Definition chain : Plan :=
  plan_of [step "A" 1 "run_code" []; step "B" 2 "read_file" ["A"];
           step "C" 3 "read_file" ["B"]; step "D" 4 "read_file" []].

Definition chain_rank (d : string) : nat :=
  if String.eqb d "B" then 1 else if String.eqb d "C" then 2 else 0.

(** One step that needs approval. *)
Definition guarded : Plan := plan_of [step "X" 1 "delete_file" []].

(** Three steps with no dependencies, listed against their [order]. *)
Definition fanout : Plan :=
  plan_of [step "P" 3 "read_file" []; step "Q" 2 "read_file" [];
           step "R" 1 "read_file" []].

(** Two steps that wait for each other. *)
Definition cycle : Plan :=
  plan_of [step "A" 1 "read_file" ["B"]; step "B" 2 "read_file" ["A"]].


(** The sample chain once [executeStep] has run on its first step. *)
Definition chain_after_A : ExecutionEngine.EngineState :=
  ExecutionEngine.executeStep tools approve_all 0 (ExecutionEngine.initial chain).


(** A failure that is not transient. *)
Definition validation_error : JsError :=
  {| err_name := "ValidationError"; err_message := "INVALID_PATH" |}.

End Samples.

(** ** Vocabulary of the further statements *)

(** What [executeStep] puts in the context for a step: the value of the
    result its tool returns, unless the step is denied or no result comes
    back. *)
Definition stored (reg : ToolRegistry) (appr : string -> bool) (s : Step)
  : option Value :=
  if denied reg appr s then None
  else match toolCall reg s with
       | Some (Returned r) => Some (default VUndefined (value r))
       | _ => None
       end.

(** The context after [executeStep] on [s]. *)
Definition store_step (reg : ToolRegistry) (appr : string -> bool) (s : Step)
    (c : ExecutionContext.t) : ExecutionContext.t :=
  match stored reg appr s with
  | Some v => ExecutionContext.set (id s) v c
  | None => c
  end.

(** What the context holds for a key, read off the steps. *)
Definition held (reg : ToolRegistry) (appr : string -> bool) (all : list Step)
    (k : string) : option Value :=
  match ExecutionEngine.find_step all k with
  | Some s => if bool_decide (status s = pending) then None else stored reg appr s
  | None => None
  end.

(** Once a step is not pending, the status it has was written to it. *)
Definition written (st : ExecutionEngine.EngineState) : Prop :=
  forall i s, ExecutionEngine.plan_steps st !! i = Some s -> status s ≠ pending ->
    ExecutionEngine.EvStatus i (status s) ∈ ExecutionEngine.trace st.

(** A step was dispatched after each step it depends on was completed. *)
Definition ordered (st : ExecutionEngine.EngineState) : Prop :=
  forall i j s t,
    ExecutionEngine.plan_steps st !! i = Some s ->
    ExecutionEngine.plan_steps st !! j = Some t ->
    status s ≠ pending -> id t ∈ dependsOn s ->
    exists tr1 tr2,
      ExecutionEngine.trace st = tr1 ++ ExecutionEngine.EvStatus i running :: tr2 /\
      ExecutionEngine.EvStatus j completed ∈ tr1.

(** The step passes the checks of [validatePlan] on its tool and its
    arguments. *)
Definition tool_accepts (reg : ToolRegistry) (safeParse : Tool -> Args -> bool)
    (s : Step) : Prop :=
  exists t, registry_get reg (tool s) = Some t /\ safeParse t (args s) = true.

(** No step of the state uses the tool name [n]. *)
Definition unused (n : string) (st : ExecutionEngine.EngineState) : Prop :=
  forall i s, ExecutionEngine.plan_steps st !! i = Some s -> tool s ≠ n.

(** The tasks the [processQueue] loops are awaiting. *)
Definition awaited {Task : Type} (l : list (option Task)) : list Task :=
  omap (fun o => o) l.

(** The state of a batch of [tasks] on [n] agents is consistent: the tasks
    handed out and the queue make up [tasks]; the results are the values
    returned for the tasks that returned, and were all reported; a task
    handed out has returned or is awaited; and while the queue is not
    empty the first [b] agents are awaiting a task. *)
Definition pool_inv {Task T : Type} (execute : Task -> Completion T)
    (n : nat) (tasks : list Task) (b : nat) (st : @PoolRun.State Task T) : Prop :=
  length (PoolRun.slots st) = n /\
  (PoolRun.calls st).*2 ++ PoolRun.queue st = tasks /\
  Forall2 (fun t r => execute t = Returned r)
    (PoolRun.returned st) (PoolRun.results st) /\
  PoolRun.progress st = PoolRun.results st /\
  PoolRun.returned st ++ awaited (PoolRun.slots st) ≡ₚ (PoolRun.calls st).*2 /\
  (PoolRun.queue st ≠ [] ->
   forall i, i < b -> exists t, PoolRun.slots st !! i = Some (Some t)).

(** ** Further sample tools and plans *)

Module Examples.

(** A plan that ran before: its first step is completed already. *)
Definition resumed : Plan :=
  Samples.plan_of
    [with_status completed (Samples.step "A" 1 "read_file" []);
     Samples.step "B" 2 "read_file" ["A"]].

(** A tool whose call throws. *)
Definition write_file : Tool :=
  {| name := "write_file"; tool_description := "Write content to a file";
     requiresApproval := StaticApproval false;
     execute := fun _ => Threw Samples.validation_error |}.

(** One step whose tool throws. *)
Definition throwing : Plan :=
  Samples.plan_of [Samples.step "T" 1 "write_file" []].


(** Two reads, the second after the first. *)
Definition two_reads : Plan :=
  Samples.plan_of
    [Samples.step "A" 1 "read_file" []; Samples.step "B" 2 "read_file" ["A"]].

(** A cycle check for plans that list every step after the steps it
    depends on: it looks for a reference to a step listed later, or to no
    step. *)
Fixpoint refers_forward (seen : list string) (g : list (string * list string))
  : bool :=
  match g with
  | [] => false
  | (n, deps) :: g' =>
      negb (forallb (fun d => bool_decide (d ∈ seen)) deps)
      || refers_forward (n :: seen) g'
  end.

Definition out_of_order (g : list (string * list string)) : bool :=
  refers_forward [] g.

(** A schema that accepts every argument object. *)
Definition accepts_all : Tool -> Args -> bool := fun _ _ => true.

(** A batch of three tasks, numbered; the odd ones report a failure. *)
Definition batch : list nat := [1; 2; 3].

Definition run_task (n : nat) : Completion StepResult :=
  Returned (if Nat.even n then ok_result (VNum (Z.of_nat n))
            else error_result "TASK_FAILED").

(** The agent in flight that was started first ends first. *)
Definition oldest_first : nat -> nat := fun _ => 0.

End Examples.

(** * Properties *)

(** ** One call of [executeStep] *)

Section StepFacts.
Context (reg : ToolRegistry) (appr : string -> bool).
Import ExecutionEngine.

Lemma alter_as_insert {A} (f : A -> A) (l : list A) i x :
  l !! i = Some x -> alter f i l = <[i := f x]> l.
Proof.
  revert i. induction l as [|y l IH]; intros [|i] H; simplify_eq/=; try done.
  f_equal. by apply IH.
Qed.

Lemma insert_lookup_same {A} (l : list A) i x y :
  l !! i = Some x -> <[i := y]> l !! i = Some y.
Proof. intros H. apply list_lookup_insert_eq. by eapply lookup_lt_Some. Qed.

Lemma assign_status_mk i v l c tr s :
  l !! i = Some s ->
  assign_status i v {| plan_steps := l; context := c; trace := tr |} =
  {| plan_steps := <[i := with_status v s]> l; context := c;
     trace := tr ++ [EvStatus i v] |}.
Proof.
  intros H. unfold assign_status, record, update_step. simpl.
  by rewrite (alter_as_insert _ _ _ _ H).
Qed.

Lemma assign_result_mk i r l c tr s :
  l !! i = Some s ->
  assign_result i r {| plan_steps := l; context := c; trace := tr |} =
  {| plan_steps := <[i := with_result r s]> l; context := c; trace := tr |}.
Proof.
  intros H. unfold assign_result, update_step. simpl.
  by rewrite (alter_as_insert _ _ _ _ H).
Qed.

Lemma record_mk e l c tr :
  record e {| plan_steps := l; context := c; trace := tr |} =
  {| plan_steps := l; context := c; trace := tr ++ [e] |}.
Proof. done. Qed.

Lemma context_set_mk k v l c tr :
  context_set k v {| plan_steps := l; context := c; trace := tr |} =
  {| plan_steps := l; context := ExecutionContext.set k v c; trace := tr |}.
Proof. done. Qed.

Lemma catch_error_mk i e l c tr s :
  l !! i = Some s ->
  catch_error i e {| plan_steps := l; context := c; trace := tr |} =
  {| plan_steps := <[i := settleStep (Threw e) s]> l; context := c;
     trace := tr ++ [EvStatus i failed; EvProgress i failed] |}.
Proof.
  intros H. unfold catch_error.
  rewrite (assign_status_mk _ _ _ _ _ _ H).
  erewrite assign_result_mk by (by eapply insert_lookup_same).
  rewrite record_mk, list_insert_insert_eq, <- app_assoc. done.
Qed.

Lemma settle_mk i step c0 l c tr s :
  l !! i = Some s ->
  settle i step c0 {| plan_steps := l; context := c; trace := tr |} =
  {| plan_steps := <[i := settleStep c0 s]> l;
     context := settle_context c0 step c;
     trace := tr ++ settle_events i c0 |}.
Proof.
  intros H. destruct c0 as [r|e]; simpl.
  - rewrite (assign_status_mk _ _ _ _ _ _ H).
    erewrite assign_result_mk by (by eapply insert_lookup_same).
    rewrite context_set_mk, record_mk, list_insert_insert_eq, <- app_assoc. done.
  - by apply catch_error_mk.
Qed.

Lemma executeStep_begin_spec i st s :
  plan_steps st !! i = Some s ->
  executeStep_begin reg i st =
  ({| plan_steps := <[i := began reg s]> (plan_steps st);
      context := context st;
      trace := trace st ++ begin_events reg i s |},
   suspension_of reg s).
Proof.
  destruct st as [l c tr]. simpl. intros H.
  unfold executeStep_begin, began, suspension_of, toolCall, begin_events, call_events.
  simpl. rewrite H.
  rewrite (assign_status_mk _ _ _ _ _ _ H), record_mk, <- app_assoc. simpl.
  destruct (step_requiresApproval reg s).
  - by rewrite record_mk, <- app_assoc.
  - unfold call_tool. destruct (registry_get reg (tool s)) as [t|]; simpl.
    + by rewrite record_mk, <- app_assoc.
    + erewrite catch_error_mk by (by eapply insert_lookup_same).
      by rewrite list_insert_insert_eq, <- app_assoc.
Qed.

Lemma executeStep_begin_none i st :
  plan_steps st !! i = None -> executeStep_begin reg i st = (st, None).
Proof. intros H. unfold executeStep_begin. by rewrite H. Qed.

Lemma executeStep_resume_spec i k st s :
  plan_steps st !! i = Some s ->
  executeStep_resume reg appr i k st =
  {| plan_steps := <[i := finished reg appr (Some k) s]> (plan_steps st);
     context := resume_context reg appr (Some k) s (context st);
     trace := trace st ++ resume_events reg appr i (Some k) s |}.
Proof.
  destruct st as [l c tr]. simpl. intros H.
  unfold executeStep_resume. simpl. rewrite H.
  destruct k as [|c0]; simpl.
  - destruct (appr (id s)).
    + unfold call_tool, calledStep, call_events, toolCall.
      destruct (registry_get reg (tool s)) as [t|]; simpl.
      * rewrite record_mk. erewrite settle_mk by done. by rewrite <- app_assoc.
      * by rewrite (catch_error_mk _ _ _ _ _ _ H).
    + rewrite (assign_status_mk _ _ _ _ _ _ H).
      erewrite assign_result_mk by (by eapply insert_lookup_same).
      by rewrite list_insert_insert_eq.
  - by erewrite settle_mk.
Qed.

Lemma finished_began s :
  finished reg appr (suspension_of reg s) (began reg s) = settled reg appr s.
Proof.
  unfold finished, suspension_of, began, settled, denied, calledStep, toolCall.
  destruct (step_requiresApproval reg s); simpl.
  - destruct (appr (id s)); simpl; [|done].
    destruct (registry_get reg (tool s)) as [t|]; simpl; [|done].
    unfold settleStep. simpl. by destruct (_ t (args s)).
  - destruct (registry_get reg (tool s)) as [t|]; simpl; [|done].
    unfold settleStep. simpl. by destruct (_ t (args s)).
Qed.

Lemma resume_events_began i k s :
  resume_events reg appr i k (began reg s) = resume_events reg appr i k s.
Proof.
  unfold began, toolCall.
  destruct (step_requiresApproval reg s); [done|].
  by destruct (registry_get reg (tool s)).
Qed.

Lemma resume_context_began k s c :
  resume_context reg appr k (began reg s) c = resume_context reg appr k s c.
Proof.
  unfold began, toolCall.
  destruct (step_requiresApproval reg s); [done|].
  by destruct (registry_get reg (tool s)).
Qed.

(** One whole [executeStep]. *)
Lemma executeStep_spec i st s :
  plan_steps st !! i = Some s ->
  executeStep reg appr i st =
  {| plan_steps := <[i := settled reg appr s]> (plan_steps st);
     context := resume_context reg appr (suspension_of reg s) s (context st);
     trace := trace st ++ begin_events reg i s ++
              resume_events reg appr i (suspension_of reg s) s |}.
Proof.
  intros H. unfold executeStep. rewrite (executeStep_begin_spec _ _ _ H).
  rewrite <- (finished_began s).
  rewrite <- (resume_events_began i (suspension_of reg s) s).
  rewrite <- (resume_context_began (suspension_of reg s) s).
  destruct (suspension_of reg s) as [k|].
  - erewrite executeStep_resume_spec by (simpl; by eapply insert_lookup_same).
    cbn [plan_steps context trace]. by rewrite list_insert_insert_eq, <- app_assoc.
  - simpl. by rewrite app_nil_r.
Qed.
End StepFacts.

(** ** One round of the loop *)

Section TickFacts.
Context (reg : ToolRegistry) (appr : string -> bool).
Import ExecutionEngine.

Lemma begin_all_spec R st :
  NoDup R ->
  (forall j, plan_steps (begin_all reg R st).1 !! j =
             if bool_decide (j ∈ R) then began reg <$> plan_steps st !! j
             else plan_steps st !! j) /\
  (begin_all reg R st).2 =
    (fun i => (i, plan_steps st !! i ≫= suspension_of reg)) <$> R /\
  context (begin_all reg R st).1 = context st /\
  trace (begin_all reg R st).1 =
    trace st ++ concat ((fun i => on_step st i (begin_events reg i) []) <$> R).
Proof.
  revert st. induction R as [|i R IH]; intros st HND.
  { simpl. split; [done|]. split; [done|]. split; [done|]. by rewrite app_nil_r. }
  apply NoDup_cons in HND as [Hi HND]. simpl.
  destruct (executeStep_begin reg i st) as [st1 k] eqn:Hb.
  destruct (begin_all reg R st1) as [st2 ks] eqn:Hall.
  destruct (IH st1 HND) as (IH1 & IH2 & IH3 & IH4). rewrite Hall in *. simpl in *.
  assert (Hother : forall j, j ≠ i -> plan_steps st1 !! j = plan_steps st !! j).
  { intros j Hj. destruct (plan_steps st !! i) as [s|] eqn:Hs.
    - rewrite (executeStep_begin_spec _ _ _ _ Hs) in Hb. simplify_eq/=.
      by rewrite list_lookup_insert_ne.
    - rewrite (executeStep_begin_none _ _ _ Hs) in Hb. by simplify_eq. }
  assert (Hin : forall j, j ∈ R -> plan_steps st1 !! j = plan_steps st !! j).
  { intros j Hj. apply Hother. intros ->. done. }
  split; [|split; [|split]].
  - intros j. rewrite IH1. destruct (decide (j = i)) as [->|Hne].
    + rewrite (bool_decide_eq_false_2 _ Hi).
      rewrite bool_decide_eq_true_2 by left.
      destruct (plan_steps st !! i) as [s|] eqn:Hs.
      * rewrite (executeStep_begin_spec _ _ _ _ Hs) in Hb. simplify_eq/=.
        by erewrite insert_lookup_same.
      * rewrite (executeStep_begin_none _ _ _ Hs) in Hb. by simplify_eq/=.
    + rewrite (Hother _ Hne).
      destruct (decide (j ∈ R)) as [Hj|Hj].
      * rewrite !bool_decide_eq_true_2; [done| by right | done].
      * rewrite !bool_decide_eq_false_2; [done| |done].
        intros [?|?]%elem_of_cons; done.
  - rewrite IH2. f_equal.
    + f_equal. destruct (plan_steps st !! i) as [s|] eqn:Hs.
      * rewrite (executeStep_begin_spec _ _ _ _ Hs) in Hb. by simplify_eq/=.
      * rewrite (executeStep_begin_none _ _ _ Hs) in Hb. by simplify_eq/=.
    + apply list_fmap_ext. intros ? j Hj. rewrite Hin; [done|].
      by eapply list_elem_of_lookup_2.
  - rewrite IH3. destruct (plan_steps st !! i) as [s|] eqn:Hs.
    + rewrite (executeStep_begin_spec _ _ _ _ Hs) in Hb. by simplify_eq/=.
    + rewrite (executeStep_begin_none _ _ _ Hs) in Hb. by simplify_eq/=.
  - rewrite IH4. rewrite app_assoc. f_equal.
    + unfold on_step. destruct (plan_steps st !! i) as [s|] eqn:Hs.
      * rewrite (executeStep_begin_spec _ _ _ _ Hs) in Hb. by simplify_eq/=.
      * rewrite (executeStep_begin_none _ _ _ Hs) in Hb. simplify_eq/=.
        by rewrite app_nil_r.
    + f_equal. apply list_fmap_ext. intros ? j Hj. unfold on_step.
      rewrite Hin; [done|]. by eapply list_elem_of_lookup_2.
Qed.

Lemma executeStep_resume_none i k st :
  plan_steps st !! i = None -> executeStep_resume reg appr i k st = st.
Proof. intros H. unfold executeStep_resume. by rewrite H. Qed.

Lemma resume_all_cons i k ks st :
  resume_all reg appr ((i, k) :: ks) st =
  resume_all reg appr ks
    (match k with Some k => executeStep_resume reg appr i k st | None => st end).
Proof. by destruct k. Qed.

Lemma resume_all_spec R K st :
  NoDup R ->
  (forall j, plan_steps (resume_all reg appr ((fun i => (i, K i)) <$> R) st) !! j =
             if bool_decide (j ∈ R)
             then finished reg appr (K j) <$> plan_steps st !! j
             else plan_steps st !! j) /\
  trace (resume_all reg appr ((fun i => (i, K i)) <$> R) st) =
    trace st ++
    concat ((fun i => on_step st i (resume_events reg appr i (K i)) []) <$> R).
Proof.
  revert st. induction R as [|i R IH]; intros st HND.
  { simpl. split; [done|]. by rewrite app_nil_r. }
  apply NoDup_cons in HND as [Hi HND].
  rewrite !fmap_cons, !resume_all_cons.
  set (st1 := match K i with
              | Some k => executeStep_resume reg appr i k st
              | None => st
              end).
  assert (Hst1 :
    plan_steps st1 = match plan_steps st !! i with
                     | Some s => <[i := finished reg appr (K i) s]> (plan_steps st)
                     | None => plan_steps st
                     end /\
    trace st1 = trace st ++ on_step st i (resume_events reg appr i (K i)) []).
  { unfold st1, on_step. destruct (K i) as [k|]; simpl.
    - destruct (plan_steps st !! i) as [s|] eqn:Hs.
      + by rewrite (executeStep_resume_spec _ _ _ _ _ _ Hs).
      + rewrite (executeStep_resume_none _ _ _ Hs). by rewrite app_nil_r.
    - destruct (plan_steps st !! i) as [s|] eqn:Hs; simpl.
      + split; [|by rewrite app_nil_r]. by rewrite list_insert_id.
      + by rewrite app_nil_r. }
  destruct Hst1 as [Hp Ht]. clearbody st1.
  assert (Hother : forall j, j ≠ i -> plan_steps st1 !! j = plan_steps st !! j).
  { intros j Hj. rewrite Hp. destruct (plan_steps st !! i); [|done].
    by rewrite list_lookup_insert_ne. }
  assert (Hin : forall j, j ∈ R -> plan_steps st1 !! j = plan_steps st !! j).
  { intros j Hj. apply Hother. intros ->. done. }
  destruct (IH st1 HND) as [IH1 IH2]. split.
  - intros j. rewrite IH1. destruct (decide (j = i)) as [->|Hne].
    + rewrite (bool_decide_eq_false_2 _ Hi).
      rewrite bool_decide_eq_true_2 by left.
      rewrite Hp. destruct (plan_steps st !! i) as [s|] eqn:Hs; [|done].
      by erewrite insert_lookup_same.
    + rewrite (Hother _ Hne).
      destruct (decide (j ∈ R)) as [Hj|Hj].
      * rewrite !bool_decide_eq_true_2; [done| by right | done].
      * rewrite !bool_decide_eq_false_2; [done| |done].
        intros [?|?]%elem_of_cons; done.
  - rewrite IH2, Ht, <- app_assoc. simpl. do 3 f_equal.
    apply list_fmap_ext. intros ? j Hj. unfold on_step.
    rewrite Hin; [done|]. by eapply list_elem_of_lookup_2.
Qed.

(** The order in which the suspended calls are resumed does not matter to
    the steps. *)
Lemma resume_all_order R R' K st :
  NoDup R -> R' ≡ₚ R ->
  plan_steps (resume_all reg appr ((fun i => (i, K i)) <$> R') st) =
  plan_steps (resume_all reg appr ((fun i => (i, K i)) <$> R) st).
Proof.
  intros HND HP. assert (NoDup R') as HND' by (by rewrite HP).
  apply list_eq. intros j.
  destruct (resume_all_spec R K st HND) as [-> _].
  destruct (resume_all_spec R' K st HND') as [-> _].
  destruct (decide (j ∈ R)) as [Hj|Hj].
  - rewrite !bool_decide_eq_true_2; [done..|]. by rewrite HP.
  - rewrite !bool_decide_eq_false_2; [done..|]. by rewrite HP.
Qed.

(** One round of the loop, step by step and event by event. *)
Lemma tick_spec R st :
  NoDup R ->
  (forall j, plan_steps (tick reg appr R st) !! j =
             if bool_decide (j ∈ R) then settled reg appr <$> plan_steps st !! j
             else plan_steps st !! j) /\
  trace (tick reg appr R st) =
    trace st
    ++ concat ((fun i => on_step st i (begin_events reg i) []) <$> R)
    ++ concat ((fun i => on_step st i
                  (fun s => resume_events reg appr i (suspension_of reg s) s) [])
               <$> R).
Proof.
  intros HND. unfold tick.
  destruct (begin_all_spec R st HND) as (B1 & B2 & _ & B4).
  destruct (begin_all reg R st) as [st1 ks]. simpl in *. subst ks.
  destruct (resume_all_spec R (fun i => plan_steps st !! i ≫= suspension_of reg)
              st1 HND) as [R1 R2].
  split.
  - intros j. rewrite R1, B1. case_bool_decide; [|done].
    destruct (plan_steps st !! j) as [s|]; [|done]. simpl.
    by rewrite finished_began.
  - rewrite R2, B4, <- app_assoc. do 3 f_equal.
    apply list_fmap_ext. intros ? j Hj. unfold on_step. rewrite B1.
    rewrite bool_decide_eq_true_2 by (by eapply list_elem_of_lookup_2).
    destruct (plan_steps st !! j) as [s|]; [|done]. simpl.
    by rewrite resume_events_began.
Qed.
End TickFacts.

(** ** The ready steps *)

Section ReadyFacts.
Import ExecutionEngine.

Lemma elem_of_ready_from all i l j :
  j ∈ ready_from all i l <->
  i <= j /\ exists s, l !! (j - i) = Some s /\ is_ready all s = true.
Proof.
  revert i. induction l as [|s l IH]; intros i; simpl.
  { split; [by intros ?%elem_of_nil|]. by intros (_ & ? & ? & _). }
  assert (Hrest : j ∈ ready_from all (S i) l <->
                  i < j /\ exists s', (s :: l) !! (j - i) = Some s' /\ is_ready all s' = true).
  { rewrite IH. split.
    - intros (Hle & s' & Hs' & Hr). split; [lia|]. exists s'. split; [|done].
      replace (j - i) with (S (j - S i)) by lia. done.
    - intros (Hlt & s' & Hs' & Hr). split; [lia|]. exists s'. split; [|done].
      replace (j - i) with (S (j - S i)) in Hs' by lia. done. }
  destruct (is_ready all s) eqn:Hs.
  - rewrite elem_of_cons, Hrest. split.
    + intros [->|(Hlt & Hex)]; [|split; [lia|done]].
      split; [lia|]. exists s. by rewrite Nat.sub_diag.
    + intros (Hle & s' & Hs' & Hr). destruct (decide (j = i)) as [->|Hne]; [by left|].
      right. split; [lia|]. by exists s'.
  - rewrite Hrest. split.
    + intros (Hlt & Hex). split; [lia|done].
    + intros (Hle & s' & Hs' & Hr). destruct (decide (j = i)) as [->|Hne].
      * rewrite Nat.sub_diag in Hs'. simplify_eq/=. congruence.
      * split; [lia|]. by exists s'.
Qed.

Lemma NoDup_ready_from all i l : NoDup (ready_from all i l).
Proof.
  revert i. induction l as [|s l IH]; intros i; simpl; [constructor|].
  destruct (is_ready all s); [|done].
  constructor; [|done]. rewrite elem_of_ready_from. lia.
Qed.

Lemma elem_of_readySteps all j :
  j ∈ readySteps all <-> exists s, all !! j = Some s /\ is_ready all s = true.
Proof.
  unfold readySteps. rewrite elem_of_ready_from, Nat.sub_0_r.
  split; [by intros [_ ?]|]. intros ?. split; [lia|done].
Qed.

Lemma NoDup_readySteps all : NoDup (readySteps all).
Proof. apply NoDup_ready_from. Qed.

Lemma readySteps_nil all :
  readySteps all = [] <-> forall s, s ∈ all -> is_ready all s = false.
Proof.
  split.
  - intros HR s [j Hj]%list_elem_of_lookup.
    destruct (is_ready all s) eqn:Hs; [|done].
    assert (j ∈ readySteps all) as Hin by (rewrite elem_of_readySteps; eauto).
    rewrite HR in Hin. by apply elem_of_nil in Hin.
  - intros H. destruct (readySteps all) as [|j R] eqn:HR; [done|].
    assert (j ∈ readySteps all) as Hin by (rewrite HR; left).
    apply elem_of_readySteps in Hin as (s & Hs & Hr).
    rewrite H in Hr; [done|]. by eapply list_elem_of_lookup_2.
Qed.
End ReadyFacts.

Section RoundFacts.
Context (reg : ToolRegistry) (appr : string -> bool).
Import ExecutionEngine.

Lemma tick_steps st :
  plan_steps (tick reg appr (readySteps (plan_steps st)) st) =
  round_step reg appr (plan_steps st) <$> plan_steps st.
Proof.
  apply list_eq. intros j.
  destruct (tick_spec reg appr _ st (NoDup_readySteps (plan_steps st))) as [H _].
  rewrite H, list_lookup_fmap. clear H.
  destruct (plan_steps st !! j) as [s|] eqn:Hs; simpl; [|by case_bool_decide].
  unfold round_step. destruct (is_ready (plan_steps st) s) eqn:Hr.
  - rewrite bool_decide_eq_true_2; [done|]. apply elem_of_readySteps. eauto.
  - rewrite bool_decide_eq_false_2; [done|].
    intros (s' & Hs' & Hr')%elem_of_readySteps. congruence.
Qed.
End RoundFacts.

(** ** Counting the events of a step *)

Section CountFacts.
Context (reg : ToolRegistry) (appr : string -> bool).
Import ExecutionEngine.

Lemma count_events_app p a b :
  count_events p (a ++ b) = count_events p a + count_events p b.
Proof. induction a as [|e a IH]; simpl; [done|]. rewrite IH. lia. Qed.

Lemma count_events_zero p l :
  (forall e, e ∈ l -> p e = false) -> count_events p l = 0.
Proof.
  induction l as [|e l IH]; intros H; simpl; [done|].
  rewrite (H e) by left. rewrite IH; [done|]. intros e' He'. apply H. by right.
Qed.

Lemma count_events_concat p i (f : nat -> list Event) R :
  NoDup R ->
  (forall j e, j ≠ i -> e ∈ f j -> p e = false) ->
  count_events p (concat (f <$> R)) =
  if bool_decide (i ∈ R) then count_events p (f i) else 0.
Proof.
  intros HND Hf. induction HND as [|j R Hj HND IH]; csimpl; [done|].
  rewrite count_events_app, IH. destruct (decide (j = i)) as [->|Hne].
  - rewrite (bool_decide_eq_false_2 _ Hj).
    rewrite bool_decide_eq_true_2 by left. lia.
  - rewrite (count_events_zero p (f j)) by (intros e He; by eapply Hf).
    simpl. destruct (decide (i ∈ R)).
    + rewrite !bool_decide_eq_true_2; [done|by right|done].
    + rewrite !bool_decide_eq_false_2; [done| |done].
      intros [?|?]%elem_of_cons; [congruence|done].
Qed.

Lemma about_dispatch i : about i (is_dispatch i).
Proof. intros [j []| | |]; simpl; try done. by intros ->%bool_decide_eq_true. Qed.

Lemma about_terminal_write i : about i (is_terminal_write i).
Proof.
  intros [j v| | |]; simpl; try done.
  by intros [->%bool_decide_eq_true _]%andb_true_iff.
Qed.

Lemma about_tool_execute i : about i (is_tool_execute i).
Proof. intros [| | |j n a]; simpl; try done. by intros ->%bool_decide_eq_true. Qed.

Lemma call_events_index i s e : e ∈ call_events reg i s -> ev_index e = i.
Proof.
  unfold call_events. destruct (registry_get reg (tool s));
    repeat (intros [->|H]%elem_of_cons; [done|revert H]); by intros ?%elem_of_nil.
Qed.

Lemma settle_events_index i c e : e ∈ settle_events i c -> ev_index e = i.
Proof.
  destruct c; simpl;
    repeat (intros [->|H]%elem_of_cons; [done|revert H]); by intros ?%elem_of_nil.
Qed.

Lemma begin_events_index i s e : e ∈ begin_events reg i s -> ev_index e = i.
Proof.
  unfold begin_events. rewrite elem_of_app. intros [H|H].
  - revert H. repeat (intros [->|H]%elem_of_cons; [done|revert H]).
    by intros ?%elem_of_nil.
  - destruct (step_requiresApproval reg s).
    + apply list_elem_of_singleton in H. by subst.
    + by eapply call_events_index.
Qed.

Lemma resume_events_index i k s e :
  e ∈ resume_events reg appr i k s -> ev_index e = i.
Proof.
  destruct k as [[|c]|]; simpl.
  - destruct (appr (id s)).
    + rewrite elem_of_app. intros [H|H]; [by eapply call_events_index|].
      destruct (toolCall reg s); [by eapply settle_events_index|].
      by apply elem_of_nil in H.
    + intros H. apply list_elem_of_singleton in H. by subst.
  - apply settle_events_index.
  - by intros ?%elem_of_nil.
Qed.

Lemma tick_count p i R st :
  NoDup R -> about i p ->
  count_events p (trace (tick reg appr R st)) =
  count_events p (trace st) +
  if bool_decide (i ∈ R)
  then on_step st i (fun s => count_events p (step_events reg appr i s)) 0
  else 0.
Proof.
  intros HND Hp. destruct (tick_spec reg appr R st HND) as [_ ->].
  rewrite !count_events_app.
  rewrite (count_events_concat p i); [|done|].
  2:{ intros j e Hj He. destruct (p e) eqn:Hpe; [|done].
      apply Hp in Hpe. unfold on_step in He.
      destruct (plan_steps st !! j); [|by apply elem_of_nil in He].
      apply begin_events_index in He. congruence. }
  rewrite (count_events_concat p i); [|done|].
  2:{ intros j e Hj He. destruct (p e) eqn:Hpe; [|done].
      apply Hp in Hpe. unfold on_step in He.
      destruct (plan_steps st !! j); [|by apply elem_of_nil in He].
      apply resume_events_index in He. congruence. }
  case_bool_decide; [|lia]. unfold on_step, step_events.
  destruct (plan_steps st !! i); [|done]. rewrite count_events_app. lia.
Qed.

Lemma step_events_dispatch i s :
  count_events (is_dispatch i) (step_events reg appr i s) = 1.
Proof.
  unfold step_events, begin_events, suspension_of, call_events, toolCall.
  rewrite !count_events_app. simpl. rewrite bool_decide_eq_true_2 by done.
  destruct (step_requiresApproval reg s); simpl.
  - destruct (appr (id s)); simpl; [|done].
    rewrite count_events_app. unfold call_events, toolCall.
    destruct (registry_get reg (tool s)) as [t|]; simpl; [|done].
    by destruct (_ t (args s)) as [[[]]|].
  - destruct (registry_get reg (tool s)) as [t|]; simpl; [|done].
    by destruct (_ t (args s)) as [[[]]|].
Qed.

Lemma step_events_terminal i s :
  count_events (is_terminal_write i) (step_events reg appr i s) = 1.
Proof.
  unfold step_events, begin_events, suspension_of, call_events, toolCall.
  rewrite !count_events_app. simpl. rewrite andb_false_r.
  destruct (step_requiresApproval reg s); simpl.
  - destruct (appr (id s)); simpl.
    + rewrite count_events_app. unfold call_events, toolCall.
      destruct (registry_get reg (tool s)) as [t|]; simpl.
      * destruct (_ t (args s)) as [[[]]|]; simpl;
          by rewrite bool_decide_eq_true_2.
      * by rewrite bool_decide_eq_true_2.
    + by rewrite bool_decide_eq_true_2.
  - destruct (registry_get reg (tool s)) as [t|]; simpl.
    + destruct (_ t (args s)) as [[[]]|]; simpl; by rewrite bool_decide_eq_true_2.
    + by rewrite bool_decide_eq_true_2.
Qed.

Lemma step_events_denied i s :
  denied reg appr s = true ->
  count_events (is_tool_execute i) (step_events reg appr i s) = 0.
Proof.
  unfold denied. intros [Hreq Happr%negb_true_iff]%andb_true_iff.
  unfold step_events, begin_events, suspension_of.
  rewrite count_events_app, Hreq. simpl. by rewrite Happr.
Qed.
End CountFacts.

(** ** The loop: invariant and termination *)

Section RunFacts.
Context (reg : ToolRegistry) (appr : string -> bool).
Import ExecutionEngine.

Lemma settled_terminal s : is_terminal (status (settled reg appr s)) = true.
Proof.
  unfold settled, calledStep, deniedStep, settleStep.
  destruct (denied reg appr s); [done|].
  destruct (toolCall reg s) as [[[[]]|]|]; done.
Qed.

Lemma settled_id s : id (settled reg appr s) = id s.
Proof.
  unfold settled, calledStep, deniedStep, settleStep.
  destruct (denied reg appr s); [done|].
  destruct (toolCall reg s) as [[|]|]; done.
Qed.

Lemma settled_dependsOn s : dependsOn (settled reg appr s) = dependsOn s.
Proof.
  unfold settled, calledStep, deniedStep, settleStep.
  destruct (denied reg appr s); [done|].
  destruct (toolCall reg s) as [[|]|]; done.
Qed.

Lemma is_ready_pending all s : is_ready all s = true -> status s = pending.
Proof. unfold is_ready. by intros [?%bool_decide_eq_true _]%andb_true_iff. Qed.

Lemma round_step_id all s : id (round_step reg appr all s) = id s.
Proof. unfold round_step. destruct (is_ready all s); [apply settled_id|done]. Qed.

Lemma round_step_dependsOn all s :
  dependsOn (round_step reg appr all s) = dependsOn s.
Proof.
  unfold round_step. destruct (is_ready all s); [apply settled_dependsOn|done].
Qed.

Lemma round_step_not_pending all s :
  status s ≠ pending -> round_step reg appr all s = s.
Proof.
  intros H. unfold round_step. destruct (is_ready all s) eqn:Hr; [|done].
  by apply is_ready_pending in Hr.
Qed.

Lemma find_fmap {A} (p : A -> bool) (g : A -> A) (l : list A) :
  (forall x, p (g x) = p x) -> List.find p (g <$> l) = g <$> List.find p l.
Proof.
  intros Hp. induction l as [|x l IH]; simpl; [done|].
  rewrite Hp. by destruct (p x).
Qed.

Lemma find_step_round all d :
  find_step (round_step reg appr all <$> all) d =
  round_step reg appr all <$> find_step all d.
Proof.
  unfold find_step. apply find_fmap. intros s. by rewrite round_step_id.
Qed.

(** Satisfied dependencies stay satisfied: a completed step is not touched
    again. *)
Lemma allDependenciesSatisfied_round all s s' :
  dependsOn s' = dependsOn s ->
  allDependenciesSatisfied s all = true ->
  allDependenciesSatisfied s' (round_step reg appr all <$> all) = true.
Proof.
  unfold allDependenciesSatisfied. intros ->. rewrite !forallb_forall.
  intros H d Hd. specialize (H d Hd). rewrite find_step_round.
  destruct (find_step all d) as [t|]; [|done]. simpl.
  apply bool_decide_eq_true in H.
  rewrite round_step_not_pending by congruence. by apply bool_decide_eq_true.
Qed.

Lemma run_inv_initial plan :
  fresh (steps plan) -> run_inv reg appr (steps plan) (initial plan).
Proof.
  intros Hf i s Hs. left. simpl in *.
  unfold fresh in Hf. rewrite Forall_forall in Hf. destruct (Hf s) as [Hp _].
  { by eapply list_elem_of_lookup_2. }
  done.
Qed.

Lemma run_inv_tick P0 st :
  run_inv reg appr P0 st ->
  run_inv reg appr P0 (tick reg appr (readySteps (plan_steps st)) st).
Proof.
  intros Hinv i s'. unfold step_inv. rewrite !tick_steps, list_lookup_fmap.
  destruct (plan_steps st !! i) as [s|] eqn:Hs; [|done]. simpl.
  intros [= <-]. specialize (Hinv i s Hs). unfold step_inv in Hinv.
  pose proof (NoDup_readySteps (plan_steps st)) as HND.
  rewrite !(tick_count reg appr _ i _ st HND)
    by auto using about_dispatch, about_terminal_write, about_tool_execute.
  unfold on_step. rewrite Hs.
  destruct (is_ready (plan_steps st) s) eqn:Hr.
  - assert (round_step reg appr (plan_steps st) s = settled reg appr s) as ->
      by (unfold round_step; by rewrite Hr).
    rewrite bool_decide_eq_true_2 by (apply elem_of_readySteps; eauto).
    rewrite step_events_dispatch, step_events_terminal.
    destruct Hinv as [(Hp & H0 & Hd & Ht & Hx)|(s0 & H0 & -> & _)].
    2:{ apply is_ready_pending in Hr. pose proof (settled_terminal s0) as HT.
        rewrite Hr in HT. done. }
    right. exists s. split; [done|]. split; [done|]. split.
    { eapply allDependenciesSatisfied_round; [apply settled_dependsOn|].
      unfold is_ready in Hr. by apply andb_true_iff in Hr as [_ ?]. }
    split; [lia|]. split; [lia|]. intros Hden.
    rewrite (step_events_denied _ _ _ _ Hden). lia.
  - assert (round_step reg appr (plan_steps st) s = s) as ->
      by (unfold round_step; by rewrite Hr).
    rewrite bool_decide_eq_false_2.
    2:{ intros (s1 & Hs1 & Hr1)%elem_of_readySteps. congruence. }
    rewrite !Nat.add_0_r.
    destruct Hinv as [?|(s0 & H0 & -> & Hsat & ?)]; [by left|].
    right. exists s0. split; [done|]. split; [done|]. split; [|done].
    by eapply allDependenciesSatisfied_round.
Qed.

Lemma filter_length_fmap_le (p : Step -> bool) (g : Step -> Step) (l : list Step) :
  (forall s, p (g s) = true -> p s = true) ->
  length (List.filter p (g <$> l)) <= length (List.filter p l).
Proof.
  intros Hg. induction l as [|s l IH]; csimpl; [done|].
  destruct (p (g s)) eqn:Hgs.
  - rewrite (Hg s Hgs). csimpl. lia.
  - destruct (p s); csimpl; lia.
Qed.

Lemma filter_length_fmap_lt (p : Step -> bool) (g : Step -> Step) (l : list Step) s :
  (forall s, p (g s) = true -> p s = true) ->
  s ∈ l -> p s = true -> p (g s) = false ->
  length (List.filter p (g <$> l)) < length (List.filter p l).
Proof.
  intros Hg Hin Hs Hgs. induction l as [|x l IH]; [by apply elem_of_nil in Hin|].
  apply elem_of_cons in Hin as [<-|Hin]; csimpl.
  - rewrite Hgs, Hs. csimpl.
    pose proof (filter_length_fmap_le p g l Hg). lia.
  - specialize (IH Hin). destruct (p (g x)) eqn:Hgx.
    + rewrite (Hg x Hgx). csimpl. lia.
    + destruct (p x); csimpl; lia.
Qed.

(** A round with a ready step leaves fewer steps pending. *)
Lemma tick_pending_count st :
  readySteps (plan_steps st) ≠ [] ->
  pending_count (plan_steps (tick reg appr (readySteps (plan_steps st)) st))
  < pending_count (plan_steps st).
Proof.
  intros HR. rewrite tick_steps. unfold pending_count.
  destruct (readySteps (plan_steps st)) as [|j R] eqn:HRj; [done|].
  assert (j ∈ readySteps (plan_steps st)) as Hin by (rewrite HRj; left).
  apply elem_of_readySteps in Hin as (s & Hs & Hr).
  apply (filter_length_fmap_lt _ _ _ s).
  - intros x Hx. destruct (decide (status x = pending)) as [Hp|Hp].
    + by apply bool_decide_eq_true.
    + by rewrite round_step_not_pending in Hx.
  - by eapply list_elem_of_lookup_2.
  - apply bool_decide_eq_true. by apply is_ready_pending in Hr.
  - unfold round_step. rewrite Hr. apply bool_decide_eq_false.
    pose proof (settled_terminal s) as HT. intros Hp. by rewrite Hp in HT.
Qed.

(** The loop ends: every round but the last settles a pending step. *)
Lemma run_enough_fuel fuel st :
  pending_count (plan_steps st) < fuel ->
  exists st', run reg appr fuel st = Some st'.
Proof.
  revert st. induction fuel as [|fuel IH]; intros st Hlt; [lia|]. simpl.
  destruct (hasRemainingSteps (plan_steps st)); [|by eauto].
  destruct (readySteps (plan_steps st)) as [|j R] eqn:HR; [by eauto|].
  rewrite <- HR. apply IH.
  assert (readySteps (plan_steps st) ≠ []) as Hne by (by rewrite HR).
  pose proof (tick_pending_count st Hne). lia.
Qed.

Lemma pending_count_le all : pending_count all <= length all.
Proof.
  unfold pending_count. induction all as [|s l IH]; simpl; [done|].
  destruct (bool_decide _); simpl; lia.
Qed.

Lemma execute_loop_terminates plan :
  exists st', execute_loop reg appr plan = Some st'.
Proof.
  apply run_enough_fuel. simpl. pose proof (pending_count_le (steps plan)). lia.
Qed.

Lemma hasRemainingSteps_false all s :
  hasRemainingSteps all = false -> s ∈ all -> is_terminal (status s) = true.
Proof.
  unfold hasRemainingSteps. intros H Hin.
  destruct (is_terminal (status s)) eqn:Ht; [done|].
  assert (existsb (fun s => negb (is_terminal (status s))) all = true) as He.
  { apply existsb_exists. exists s. split; [by apply list_elem_of_In|].
    by rewrite Ht. }
  congruence.
Qed.

(** When the loop has ended no step is ready, and the invariant holds. *)
Lemma run_final P0 fuel st st' :
  run reg appr fuel st = Some st' ->
  run_inv reg appr P0 st ->
  run_inv reg appr P0 st' /\
  (forall s, s ∈ plan_steps st' -> is_ready (plan_steps st') s = false).
Proof.
  revert st. induction fuel as [|fuel IH]; intros st Hrun Hinv; [done|].
  simpl in Hrun.
  destruct (hasRemainingSteps (plan_steps st)) eqn:Hrem.
  - destruct (readySteps (plan_steps st)) as [|j R] eqn:HR.
    + simplify_eq. split; [done|]. by apply readySteps_nil.
    + rewrite <- HR in Hrun. eapply IH; [done|]. by apply run_inv_tick.
  - simplify_eq. split; [done|]. intros s Hs.
    pose proof (hasRemainingSteps_false _ _ Hrem Hs) as Ht.
    unfold is_ready. destruct (decide (status s = pending)) as [Hp|Hp].
    + by rewrite Hp in Ht.
    + by rewrite bool_decide_eq_false_2.
Qed.
End RunFacts.

(** ** The dependency graph *)

Section GraphFacts.
Context (reg : ToolRegistry) (appr : string -> bool).
Import ExecutionEngine.

Lemma graph_round all l :
  buildDependencyGraph (round_step reg appr all <$> l) = buildDependencyGraph l.
Proof.
  unfold buildDependencyGraph. rewrite <- list_fmap_compose.
  apply list_fmap_ext. intros _ s _. simpl.
  by rewrite round_step_id, round_step_dependsOn.
Qed.

Lemma run_graph fuel st st' :
  run reg appr fuel st = Some st' ->
  buildDependencyGraph (plan_steps st') = buildDependencyGraph (plan_steps st).
Proof.
  revert st. induction fuel as [|fuel IH]; intros st Hrun; [done|].
  simpl in Hrun. destruct (hasRemainingSteps (plan_steps st)); [|by simplify_eq].
  destruct (readySteps (plan_steps st)) as [|j R] eqn:HR; [by simplify_eq|].
  rewrite <- HR in Hrun. rewrite (IH _ Hrun), tick_steps. apply graph_round.
Qed.

Lemma find_step_Some all d t :
  find_step all d = Some t -> t ∈ all /\ id t = d.
Proof.
  unfold find_step. intros [Hin Hp]%find_some. split.
  - by apply list_elem_of_In.
  - by apply bool_decide_eq_true in Hp.
Qed.

Lemma find_step_resolves all d :
  d ∈ (buildDependencyGraph all).*1 -> exists t, find_step all d = Some t.
Proof.
  unfold buildDependencyGraph. rewrite <- list_fmap_compose.
  intros (s & -> & Hs)%list_elem_of_fmap. simpl.
  destruct (find_step all (id s)) as [t|] eqn:Hf; [by eauto|].
  unfold find_step in Hf. apply list_elem_of_In in Hs.
  pose proof (find_none _ _ Hf s Hs) as Hn. simpl in Hn.
  by rewrite bool_decide_eq_true_2 in Hn.
Qed.

Lemma graph_node all s :
  s ∈ all -> (id s, dependsOn s) ∈ buildDependencyGraph all.
Proof. intros Hs. unfold buildDependencyGraph. apply list_elem_of_fmap. eauto. Qed.

Lemma settled_tool s : tool (settled reg appr s) = tool s.
Proof.
  unfold settled, calledStep, deniedStep, settleStep.
  destruct (denied reg appr s); [done|].
  destruct (toolCall reg s) as [[|]|]; done.
Qed.

Lemma settled_args s : args (settled reg appr s) = args s.
Proof.
  unfold settled, calledStep, deniedStep, settleStep.
  destruct (denied reg appr s); [done|].
  destruct (toolCall reg s) as [[|]|]; done.
Qed.

Lemma denied_settled s : denied reg appr (settled reg appr s) = denied reg appr s.
Proof.
  unfold denied, step_requiresApproval.
  by rewrite settled_tool, settled_args, settled_id.
Qed.

Lemma toolCall_settled s : toolCall reg (settled reg appr s) = toolCall reg s.
Proof. unfold toolCall. by rewrite settled_tool, settled_args. Qed.

Lemma succeeds_settled s :
  succeeds reg appr (settled reg appr s) <-> succeeds reg appr s.
Proof. unfold succeeds. by rewrite denied_settled, toolCall_settled. Qed.

Lemma succeeds_completed s :
  succeeds reg appr s -> status (settled reg appr s) = completed.
Proof.
  intros (Hd & r & Hc & Hok). unfold settled, calledStep, settleStep.
  by rewrite Hd, Hc, Hok.
Qed.

Lemma completed_succeeds s :
  status (settled reg appr s) = completed -> succeeds reg appr s.
Proof.
  unfold succeeds, settled, calledStep, deniedStep, settleStep.
  destruct (denied reg appr s); [done|].
  destruct (toolCall reg s) as [[r|]|]; [|done..].
  destruct (ok r) eqn:Hok; [|done]. eauto.
Qed.

(** A step that was dispatched had all its dependencies completed. *)
Lemma dependent_of_uncompleted_pending P0 st s t :
  run_inv reg appr P0 st ->
  depends (plan_steps st) s t ->
  status t ≠ completed ->
  status s = pending.
Proof.
  intros Hinv (Hs & Hd & Hf) Ht.
  apply list_elem_of_lookup in Hs as [i Hi].
  destruct (Hinv i s Hi) as [(? & _)|(s0 & _ & _ & Hsat & _)]; [done|].
  unfold allDependenciesSatisfied in Hsat. rewrite forallb_forall in Hsat.
  apply list_elem_of_In in Hd. specialize (Hsat _ Hd). rewrite Hf in Hsat.
  by apply bool_decide_eq_true in Hsat.
Qed.

Lemma transitive_dependent_pending P0 st s t :
  run_inv reg appr P0 st ->
  tc (depends (plan_steps st)) s t ->
  status t ≠ completed ->
  status s = pending.
Proof.
  intros Hinv Htc. induction Htc as [s t Hd|s u t Hd Htc IH]; intros Ht.
  - by eapply dependent_of_uncompleted_pending.
  - eapply dependent_of_uncompleted_pending; [done..|].
    rewrite IH by done. done.
Qed.

(** At the end of a run of a valid plan, a step completes when it and all
    the steps it depends on, directly or not, succeed. *)
Lemma succeeding_branch_completes P0 st :
  run_inv reg appr P0 st ->
  (forall s, s ∈ plan_steps st -> is_ready (plan_steps st) s = false) ->
  resolvable (plan_steps st) -> acyclic (plan_steps st) ->
  forall s, s ∈ plan_steps st ->
    (forall t, rtc (depends (plan_steps st)) s t -> succeeds reg appr t) ->
    status s = completed.
Proof.
  intros Hinv Hnr Hres [rk Hrk]. set (l := plan_steps st) in *.
  unfold resolvable in Hres. rewrite Forall_forall in Hres, Hrk.
  assert (forall n s, rk (id s) < n -> s ∈ l ->
            (forall t, rtc (depends l) s t -> succeeds reg appr t) ->
            status s = completed) as Hmain.
  { induction n as [|n IH]; intros s Hlt Hs Hok; [lia|].
    assert (allDependenciesSatisfied s l = true) as Hsat.
    { unfold allDependenciesSatisfied. apply forallb_forall. intros d Hd.
      apply list_elem_of_In in Hd.
      pose proof (Hres _ (graph_node _ _ Hs)) as Hr.
      pose proof (Hrk _ (graph_node _ _ Hs)) as Hk. simpl in Hr, Hk.
      rewrite Forall_forall in Hr, Hk.
      destruct (find_step_resolves _ _ (Hr d Hd)) as [t Ht]. rewrite Ht.
      destruct (find_step_Some _ _ _ Ht) as [Htl Hid].
      apply bool_decide_eq_true. specialize (Hk d Hd).
      assert (depends l s t) as Hdep by (unfold depends; by rewrite Hid).
      apply IH; [rewrite Hid; lia|done|].
      intros u Hu. apply Hok. by eapply rtc_l. }
    apply list_elem_of_lookup in Hs as [i Hi].
    destruct (Hinv i s Hi) as [(Hp & _)|(s0 & _ & -> & _)].
    - assert (is_ready l s = true) as Hr.
      { unfold is_ready. by rewrite Hsat, bool_decide_eq_true_2. }
      rewrite Hnr in Hr; [done|]. by eapply list_elem_of_lookup_2.
    - apply succeeds_completed. apply succeeds_settled. apply Hok. done. }
  intros s Hs Hok. by apply (Hmain (S (rk (id s)))); [lia|..].
Qed.
End GraphFacts.

(** ** Execution context *)

Section ContextFacts.

Lemma resolveValue_reference store stepId :
  ExecutionContext.resolveValue store (VStr ("$" +:+ stepId)) =
  ExecutionContext.get store stepId.
Proof. done. Qed.

(** C7 (as amended). [resolveArgs] always completes normally: an argument
    that refers to a step is replaced by what the context holds for that
    step, which is [undefined] when nothing was stored for it, and every
    other argument is kept as it is. No error is raised. *)
Theorem resolveArgs_total (store : ExecutionContext.t) (a : Args) :
  exists a', ExecutionContext.resolveArgs store a = Returned a' /\
    (forall k stepId, a !! k = Some (VStr ("$" +:+ stepId)) ->
       a' !! k = Some (ExecutionContext.get store stepId) /\
       (store !! stepId = None -> a' !! k = Some VUndefined)) /\
    (forall k v, a !! k = Some v ->
       (forall stepId, v ≠ VStr ("$" +:+ stepId)) -> a' !! k = Some v) /\
    dom a' = dom a.
Proof.
  exists (ExecutionContext.resolveValue store <$> a). split; [done|].
  split; [|split].
  - intros k stepId Hk. rewrite lookup_fmap, Hk. cbn [fmap option_fmap option_map].
    rewrite resolveValue_reference. split; [done|].
    intros Hs. unfold ExecutionContext.get. by rewrite Hs.
  - intros k v Hk Hv. rewrite lookup_fmap, Hk. simpl. f_equal.
    destruct v as [| | | |[|c s]]; try done.
    destruct (decide (c = "$"%char)) as [->|Hc].
    + by destruct (Hv s).
    + unfold ExecutionContext.resolveValue.
      destruct c as [[] [] [] [] [] [] [] []]; done.
  - apply dom_fmap_L.
Qed.

(** C7: a reference to a step that stored nothing resolves, without any
    error, to [undefined]. *)
Lemma resolveArgs_unresolved_is_undefined :
  ExecutionContext.resolveArgs ExecutionContext.empty
    {[ "content" := VStr "$step_1" ]}
  = Returned {[ "content" := VUndefined ]}.
Proof.
  unfold ExecutionContext.resolveArgs. by rewrite map_fmap_singleton.
Qed.
End ContextFacts.

(** ** What [executeStep] stores *)

Section StoredValue.
Context (reg : ToolRegistry) (appr : string -> bool).
Import ExecutionEngine.

Lemma not_denied_context s r store :
  denied reg appr s = false ->
  toolCall reg s = Some (Returned r) ->
  resume_context reg appr (suspension_of reg s) s store =
  ExecutionContext.set (id s) (default VUndefined (value r)) store.
Proof.
  unfold denied, suspension_of, resume_context. intros Hd Hc.
  destruct (step_requiresApproval reg s); simpl in *.
  - apply negb_false_iff in Hd. by rewrite Hd, Hc.
  - by rewrite Hc.
Qed.

Lemma not_denied_settled s r :
  denied reg appr s = false ->
  toolCall reg s = Some (Returned r) ->
  settled reg appr s =
  with_result r (with_status (if ok r then completed else failed) s).
Proof. intros Hd Hc. unfold settled, calledStep. by rewrite Hd, Hc. Qed.

(** C10. When a step is not denied and its tool returns a result,
    [executeStep] stores that result's value under the step's id whatever
    [ok] says: the key is present afterwards, also for a step that is
    marked failed, and a reference to the step resolves to the stored
    value. *)
Theorem executeStep_stores_value (st : EngineState) (i : nat) (s : Step)
    (r : StepResult) :
  plan_steps st !! i = Some s ->
  denied reg appr s = false ->
  toolCall reg s = Some (Returned r) ->
  let st' := executeStep reg appr i st in
  context st' !! id s = Some (default VUndefined (value r)) /\
  (exists s', plan_steps st' !! i = Some s' /\
     status s' = (if ok r then completed else failed) /\ result s' = Some r) /\
  forall a k, a !! k = Some (VStr ("$" +:+ id s)) ->
    exists a', ExecutionContext.resolveArgs (context st') a = Returned a' /\
      a' !! k = Some (default VUndefined (value r)).
Proof.
  intros Hs Hd Hc st'. subst st'. rewrite (executeStep_spec _ _ _ _ _ Hs).
  cbn [plan_steps context trace].
  rewrite (not_denied_context _ _ _ Hd Hc), (not_denied_settled _ _ Hd Hc).
  assert (ExecutionContext.set (id s) (default VUndefined (value r)) (context st)
            !! id s = Some (default VUndefined (value r))) as Hl.
  { unfold ExecutionContext.set. apply lookup_insert_eq. }
  split; [done|]. split.
  - eexists. split; [by eapply insert_lookup_same|]. done.
  - intros a k Hk. eexists. split; [done|].
    rewrite lookup_fmap, Hk. cbn [fmap option_fmap option_map]. f_equal.
    rewrite resolveValue_reference.
    unfold ExecutionContext.get. by rewrite Hl.
Qed.

End StoredValue.

(** C10 on the failing step of the sample chain: the step is marked failed
    and its (absent) value is stored all the same. *)
Lemma executeStep_stores_value_witness :
  ExecutionEngine.context Samples.chain_after_A !! "A" = Some VUndefined /\
  (exists s', ExecutionEngine.plan_steps Samples.chain_after_A !! 0 = Some s' /\
     status s' = failed /\ result s' = Some (error_result "EXECUTION_ERROR")) /\
  forall a k, a !! k = Some (VStr "$A") ->
    exists a', ExecutionContext.resolveArgs
                 (ExecutionEngine.context Samples.chain_after_A) a = Returned a' /\
      a' !! k = Some VUndefined.
Proof.
  apply (executeStep_stores_value Samples.tools Samples.approve_all
           (ExecutionEngine.initial Samples.chain) 0
           (Samples.step "A" 1 "run_code" []) (error_result "EXECUTION_ERROR"));
    vm_compute; reflexivity.
Defined.

(** ** Denied approvals *)

Section Denial.
Context (reg : ToolRegistry) (appr : string -> bool).
Import ExecutionEngine.

Lemma denied_intro s :
  step_requiresApproval reg s = true -> appr (id s) = false ->
  denied reg appr s = true.
Proof. intros H1 H2. unfold denied. by rewrite H1, H2. Qed.

Lemma count_events_zero_inv p l e :
  count_events p l = 0 -> e ∈ l -> p e = false.
Proof.
  induction l as [|x l IH]; simpl; [by intros _ ?%elem_of_nil|].
  destruct (p x) eqn:Hx; [done|].
  intros H [->|Hin]%elem_of_cons; [done|by apply IH].
Qed.

Lemma round_step_denied all s :
  denied reg appr (round_step reg appr all s) = denied reg appr s.
Proof. unfold round_step. destruct (is_ready all s); [apply denied_settled|done]. Qed.

Lemma exec_inv_tick st :
  exec_inv reg appr st -> exec_inv reg appr (tick reg appr (readySteps (plan_steps st)) st).
Proof.
  intros Hinv i s'. rewrite tick_steps, list_lookup_fmap.
  destruct (plan_steps st !! i) as [s|] eqn:Hs; [|done]. simpl.
  intros [= <-]. rewrite round_step_denied. intros Hd.
  rewrite (tick_count reg appr _ i _ st (NoDup_readySteps _) (about_tool_execute i)).
  rewrite (Hinv i s Hs Hd). unfold on_step. rewrite Hs.
  rewrite (step_events_denied _ _ _ _ Hd). by case_bool_decide.
Qed.

Lemma exec_inv_run fuel st st' :
  run reg appr fuel st = Some st' -> exec_inv reg appr st -> exec_inv reg appr st'.
Proof.
  revert st. induction fuel as [|fuel IH]; intros st Hrun Hinv; [done|].
  simpl in Hrun. destruct (hasRemainingSteps (plan_steps st)); [|by simplify_eq].
  destruct (readySteps (plan_steps st)) as [|j R] eqn:HR; [by simplify_eq|].
  rewrite <- HR in Hrun. eapply IH; [done|]. by apply exec_inv_tick.
Qed.

(** The engine never changes the id, the tool or the arguments of a step. *)
Lemma run_denied fuel st st' i s :
  run reg appr fuel st = Some st' ->
  plan_steps st !! i = Some s ->
  exists s', plan_steps st' !! i = Some s' /\
    denied reg appr s' = denied reg appr s.
Proof.
  revert st s. induction fuel as [|fuel IH]; intros st s Hrun Hs; [done|].
  simpl in Hrun. destruct (hasRemainingSteps (plan_steps st)); [|simplify_eq; eauto].
  destruct (readySteps (plan_steps st)) as [|j R] eqn:HR; [simplify_eq; eauto|].
  rewrite <- HR in Hrun.
  destruct (IH _ (round_step reg appr (plan_steps st) s) Hrun) as (s' & Hs' & Hd).
  { by rewrite tick_steps, list_lookup_fmap, Hs. }
  exists s'. split; [done|]. by rewrite Hd, round_step_denied.
Qed.

(** C4. A step whose approval predicate holds and whose approval is denied
    never has its tool executed: not during a whole run of the engine on
    the plan that holds it, and not by the agent runtime's [executeStep]. *)
Theorem denied_step_never_executes (plan : Plan) (i : nat) (s : Step) :
  steps plan !! i = Some s ->
  step_requiresApproval reg s = true ->
  appr (id s) = false ->
  (exists st', execute_loop reg appr plan = Some st' /\
     forall n a, EvToolExecute i n a ∉ trace st') /\
  (forall st, plan_steps st !! i = Some s ->
     count_events (is_tool_execute i) (trace (executeStep reg appr i st)) =
     count_events (is_tool_execute i) (trace st)) /\
  forall e, e ∈ (AgentRuntime.executeStep reg appr s).2 ->
    e = AgentRuntime.RtApprovalRequest (id s).
Proof.
  intros Hs Hreq Happr. pose proof (denied_intro s Hreq Happr) as Hd.
  split; [|split].
  - destruct (execute_loop_terminates reg appr plan) as [st' Hrun].
    exists st'. split; [done|]. intros n a Hin.
    unfold execute_loop in Hrun.
    destruct (run_denied _ _ _ i s Hrun Hs) as (s' & Hs' & Hd').
    assert (exec_inv reg appr (initial plan)) as H0 by (intros ????; done).
    pose proof (exec_inv_run _ _ _ Hrun H0 i s' Hs') as Hc.
    rewrite Hd', Hd in Hc. specialize (Hc eq_refl).
    pose proof (count_events_zero_inv _ _ _ Hc Hin) as Hf. simpl in Hf.
    by rewrite bool_decide_eq_true_2 in Hf.
  - intros st Hst. rewrite (executeStep_spec _ _ _ _ _ Hst). cbn [trace].
    rewrite count_events_app. fold (step_events reg appr i s).
    rewrite (step_events_denied _ _ _ _ Hd). lia.
  - unfold AgentRuntime.executeStep. rewrite Hreq, Happr. simpl.
    by intros e ->%list_elem_of_singleton.
Qed.
End Denial.

(** C4 on the sample plan with one step that needs approval, every approval denied. *)
Lemma denied_step_never_executes_witness :
  (exists st', ExecutionEngine.execute_loop Samples.tools Samples.deny_all
                 Samples.guarded = Some st' /\
     forall n a, ExecutionEngine.EvToolExecute 0 n a ∉ ExecutionEngine.trace st') /\
  (forall st, ExecutionEngine.plan_steps st !! 0 = Some (Samples.step "X" 1 "delete_file" []) ->
     count_events (is_tool_execute 0)
       (ExecutionEngine.trace
          (ExecutionEngine.executeStep Samples.tools Samples.deny_all 0 st)) =
     count_events (is_tool_execute 0) (ExecutionEngine.trace st)) /\
  forall e, e ∈ (AgentRuntime.executeStep Samples.tools Samples.deny_all
                   (Samples.step "X" 1 "delete_file" [])).2 ->
    e = AgentRuntime.RtApprovalRequest "X".
Proof.
  apply (denied_step_never_executes Samples.tools Samples.deny_all
           Samples.guarded 0 (Samples.step "X" 1 "delete_file" []));
    vm_compute; reflexivity.
Defined.

(** ** Whole runs *)

Section Runs.
Context (reg : ToolRegistry) (appr : string -> bool).
Import ExecutionEngine.

Lemma run_no_ready fuel st st' :
  run reg appr fuel st = Some st' ->
  forall s, s ∈ plan_steps st' -> is_ready (plan_steps st') s = false.
Proof.
  revert st. induction fuel as [|fuel IH]; intros st Hrun; [done|].
  simpl in Hrun.
  destruct (hasRemainingSteps (plan_steps st)) eqn:Hrem.
  - destruct (readySteps (plan_steps st)) as [|j R] eqn:HR.
    + simplify_eq. by apply readySteps_nil.
    + rewrite <- HR in Hrun. by eapply IH.
  - simplify_eq. intros s Hs.
    pose proof (hasRemainingSteps_false _ _ Hrem Hs) as Ht.
    unfold is_ready. destruct (decide (status s = pending)) as [Hp|Hp].
    + by rewrite Hp in Ht.
    + by rewrite bool_decide_eq_false_2.
Qed.

Lemma run_length fuel st st' :
  run reg appr fuel st = Some st' ->
  length (plan_steps st') = length (plan_steps st).
Proof.
  intros H%run_graph. unfold buildDependencyGraph in H.
  apply (f_equal length) in H. by rewrite !length_fmap in H.
Qed.

Lemma run_lookup fuel st st' i s :
  run reg appr fuel st = Some st' -> plan_steps st !! i = Some s ->
  exists s', plan_steps st' !! i = Some s'.
Proof.
  intros Hrun Hs. apply lookup_lt_is_Some. rewrite (run_length _ _ _ Hrun).
  by eapply lookup_lt_Some.
Qed.

Lemma execute_loop_inv plan st' :
  fresh (steps plan) ->
  execute_loop reg appr plan = Some st' ->
  run_inv reg appr (steps plan) st' /\
  (forall s, s ∈ plan_steps st' -> is_ready (plan_steps st') s = false).
Proof.
  intros Hf Hrun. eapply run_final; [done|]. by apply run_inv_initial.
Qed.

(** In the state a run ends in, every step is one of the plan's steps,
    untouched, or that step settled. *)
Lemma final_succeeds plan st' :
  fresh (steps plan) ->
  execute_loop reg appr plan = Some st' ->
  (forall s, s ∈ steps plan -> succeeds reg appr s) ->
  forall t, t ∈ plan_steps st' -> succeeds reg appr t.
Proof.
  intros Hf Hrun Hok t [j Hj]%list_elem_of_lookup.
  destruct (execute_loop_inv _ _ Hf Hrun) as [Hinv _].
  destruct (Hinv j t Hj) as [(_ & H0 & _)|(t0 & H0 & -> & _)].
  - apply Hok. by eapply list_elem_of_lookup_2.
  - apply succeeds_settled, Hok. by eapply list_elem_of_lookup_2.
Qed.

Lemma final_valid plan st' :
  execute_loop reg appr plan = Some st' ->
  resolvable (steps plan) -> acyclic (steps plan) ->
  resolvable (plan_steps st') /\ acyclic (plan_steps st').
Proof.
  intros Hrun Hr Ha. unfold resolvable, acyclic in *.
  by rewrite (run_graph _ _ _ _ _ Hrun).
Qed.

Lemma rtc_depends_in all s t :
  s ∈ all -> rtc (depends all) s t -> t ∈ all.
Proof.
  intros Hs Hrtc. induction Hrtc as [|x y z (_ & _ & Hf) _ IH]; [done|].
  apply IH. by apply find_step_Some in Hf as [? _].
Qed.

(** C1 (as amended). On a plan whose steps are all pending, [execute] ends;
    no step is dispatched twice; a step that was dispatched reached a
    terminal status exactly once and all its dependencies had completed; a
    step that was not dispatched is left as the plan had it, pending, and
    one of its dependencies did not complete. When the plan is valid and
    every step succeeds, every step ends completed. *)
Theorem every_dispatched_step_settles_once (plan : Plan) :
  fresh (steps plan) ->
  exists st', execute_loop reg appr plan = Some st' /\
    (forall i s0, steps plan !! i = Some s0 ->
       count_events (is_dispatch i) (trace st') <= 1 /\
       ((plan_steps st' !! i = Some s0 /\
         count_events (is_dispatch i) (trace st') = 0 /\
         count_events (is_terminal_write i) (trace st') = 0 /\
         allDependenciesSatisfied s0 (plan_steps st') = false)
        \/
        (exists s', plan_steps st' !! i = Some s' /\
           is_terminal (status s') = true /\
           count_events (is_dispatch i) (trace st') = 1 /\
           count_events (is_terminal_write i) (trace st') = 1 /\
           allDependenciesSatisfied s' (plan_steps st') = true))) /\
    (resolvable (steps plan) -> acyclic (steps plan) ->
     (forall s, s ∈ steps plan -> succeeds reg appr s) ->
     forall s, s ∈ plan_steps st' -> status s = completed).
Proof.
  intros Hf. destruct (execute_loop_terminates reg appr plan) as [st' Hrun].
  exists st'. split; [done|].
  destruct (execute_loop_inv _ _ Hf Hrun) as [Hinv Hnr]. split.
  - intros i s0 Hs0.
    destruct (run_lookup _ _ _ i s0 Hrun Hs0) as [s' Hs'].
    pose proof (Hnr s' (list_elem_of_lookup_2 _ _ _ Hs')) as Hr.
    destruct (Hinv i s' Hs') as [(Hp & H0 & Hd & Ht & _)|(t0 & H0 & Hset & Hsat & Hd & Ht & _)];
      rewrite Hs0 in H0; injection H0 as <-.
    + split; [lia|]. left. split; [done|]. split; [done|]. split; [done|].
      unfold is_ready in Hr. by rewrite Hp, bool_decide_eq_true_2 in Hr.
    + split; [lia|]. right. exists s'. split; [done|].
      split; [rewrite Hset; apply settled_terminal|done].
  - intros Hres Hacy Hok s Hs.
    destruct (final_valid _ _ Hrun Hres Hacy) as [Hres' Hacy'].
    eapply succeeding_branch_completes; try done.
    intros t Ht. eapply final_succeeds; try done.
    by eapply rtc_depends_in.
Qed.
End Runs.

(** ** Failures, denials and deadlocks in a run *)

Section Cascade.
Context (reg : ToolRegistry) (appr : string -> bool).
Import ExecutionEngine.

(** C2 (as amended). After a run on a plan whose steps are all pending,
    every direct or transitive dependent of a step that ended failed was
    never dispatched: it is still the pending step of the plan, with no
    result (the engine marks nothing skipped on behalf of another step).
    When the plan is valid, a step ends completed as soon as it and every
    step it depends on, directly or not, succeed; so when every step but
    one succeeds, every step with no dependency path to that one ends
    completed. *)
Theorem failed_step_blocks_dependents (plan : Plan) :
  fresh (steps plan) ->
  exists st', execute_loop reg appr plan = Some st' /\
    (forall s f, tc (depends (plan_steps st')) s f -> status f = failed ->
       status s = pending /\ result s = None /\ s ∈ steps plan) /\
    (resolvable (steps plan) -> acyclic (steps plan) ->
     forall s, s ∈ plan_steps st' ->
       (forall t, rtc (depends (plan_steps st')) s t -> succeeds reg appr t) ->
       status s = completed) /\
    (resolvable (steps plan) -> acyclic (steps plan) ->
     forall f, (forall t, t ∈ plan_steps st' -> t ≠ f -> succeeds reg appr t) ->
       forall s, s ∈ plan_steps st' ->
         ~ rtc (depends (plan_steps st')) s f ->
         status s = completed).
Proof.
  intros Hf. destruct (execute_loop_terminates reg appr plan) as [st' Hrun].
  exists st'. split; [done|].
  destruct (execute_loop_inv _ _ _ _ Hf Hrun) as [Hinv Hnr]. split; [|split].
  - intros s f Htc Hfail.
    assert (status s = pending) as Hp.
    { eapply transitive_dependent_pending; [done..|]. by rewrite Hfail. }
    assert (s ∈ plan_steps st') as [i Hi]%list_elem_of_lookup.
    { clear -Htc. by induction Htc as [?? (? & _)|??? (? & _)]. }
    destruct (Hinv i s Hi) as [(_ & H0 & _)|(s0 & _ & -> & _)].
    + apply list_elem_of_lookup_2 in H0. split; [done|]. split; [|done].
      unfold fresh in Hf. rewrite Forall_forall in Hf. by apply Hf.
    + pose proof (settled_terminal reg appr s0) as Ht. by rewrite Hp in Ht.
  - intros Hres Hacy s Hs Hok.
    destruct (final_valid _ _ _ _ Hrun Hres Hacy) as [Hres' Hacy'].
    by eapply succeeding_branch_completes.
  - intros Hres Hacy f Hothers s Hs Hpath.
    destruct (final_valid _ _ _ _ Hrun Hres Hacy) as [Hres' Hacy'].
    eapply succeeding_branch_completes; try done.
    intros t Ht. apply Hothers; [by eapply rtc_depends_in|].
    by intros ->.
Qed.

(** C3 (as amended). A step that asks for approval and is denied ends with
    status skipped and result [{ok: false, error: 'User denied approval'}]
    (the agent runtime adds [skipped: true]); the other steps are not
    touched. A run is reported failed only when a step that was not denied
    ended failed. *)
Theorem denied_step_is_skipped (st : EngineState) (i : nat) (s : Step) :
  plan_steps st !! i = Some s ->
  step_requiresApproval reg s = true ->
  appr (id s) = false ->
  let st' := executeStep reg appr i st in
  (exists s', plan_steps st' !! i = Some s' /\ status s' = skipped /\
     result s' = Some (error_result "User denied approval")) /\
  (forall j, j ≠ i -> plan_steps st' !! j = plan_steps st !! j) /\
  (AgentRuntime.executeStep reg appr s).1 = Returned AgentRuntime.denial_result /\
  (forall plan stF, fresh (steps plan) ->
     execute_loop reg appr plan = Some stF ->
     overallStatus (summarize stF) = RunFailed ->
     exists t, t ∈ plan_steps stF /\ status t = failed /\
       denied reg appr t = false).
Proof.
  intros Hs Hreq Happr st'. subst st'.
  pose proof (denied_intro _ _ s Hreq Happr) as Hd.
  rewrite (executeStep_spec _ _ _ _ _ Hs). cbn [plan_steps].
  split; [|split; [|split]].
  - eexists. split; [by eapply insert_lookup_same|].
    unfold settled. by rewrite Hd.
  - intros j Hj. by rewrite list_lookup_insert_ne.
  - unfold AgentRuntime.executeStep. by rewrite Hreq, Happr.
  - intros plan stF Hf Hrun Hov.
    destruct (execute_loop_inv _ _ _ _ Hf Hrun) as [Hinv _].
    unfold summarize, overall_status in Hov. simpl in Hov.
    destruct (existsb _ (plan_steps stF)); [done|].
    destruct (existsb (fun s => bool_decide (status s = failed) && critical s)
                (plan_steps stF)) eqn:Hex; [|done].
    apply existsb_exists in Hex as (t & Hin & Ht).
    apply andb_true_iff in Ht as [Ht%bool_decide_eq_true _].
    apply list_elem_of_In in Hin. exists t. split; [done|]. split; [done|].
    apply list_elem_of_lookup in Hin as [j Hj].
    destruct (Hinv j t Hj) as [(Hp & _)|(t0 & _ & -> & _)]; [congruence|].
    rewrite denied_settled. destruct (denied reg appr t0) eqn:Hd0; [|done].
    unfold settled in Ht. by rewrite Hd0 in Ht.
Qed.

(** C9. The loop of [execute] ends on every plan. When a round finds no
    ready step while a step is still pending or blocked, the loop stops
    there, and the summary of a run that ends with such a step reports a
    structural error, not a completion. *)
Theorem deadlock_ends_run (plan : Plan) :
  exists st', execute_loop reg appr plan = Some st' /\
    execute reg appr plan = Some (summarize st') /\
    ((exists s, s ∈ plan_steps st' /\ (status s = pending \/ status s = blocked)) ->
     readySteps (plan_steps st') = [] /\
     overallStatus (summarize st') = RunStructuralError) /\
    forall st fuel,
      (exists s, s ∈ plan_steps st /\ (status s = pending \/ status s = blocked)) ->
      readySteps (plan_steps st) = [] ->
      run reg appr (S fuel) st = Some st /\
      overallStatus (summarize st) = RunStructuralError.
Proof.
  assert (forall l, (exists s, s ∈ l /\ (status s = pending \/ status s = blocked)) ->
            overall_status l = RunStructuralError) as Hov.
  { intros l (s & Hin & Hs). unfold overall_status.
    assert (existsb (fun s => bool_decide (status s = pending)
                              || bool_decide (status s = blocked)) l = true) as ->; [|done].
    apply existsb_exists. exists s. split; [by apply list_elem_of_In|].
    destruct Hs as [-> | ->]; done. }
  destruct (execute_loop_terminates reg appr plan) as [st' Hrun].
  exists st'. split; [done|]. split.
  { unfold execute. by rewrite Hrun. }
  split.
  - intros Hex. split; [|by apply Hov].
    apply readySteps_nil. by eapply run_no_ready.
  - intros st fuel Hex HR. split; [|by apply Hov]. simpl. rewrite HR.
    by destruct (hasRemainingSteps (plan_steps st)).
Qed.
End Cascade.

(** ** What a round launches *)

Section DispatchFacts.
Context (reg : ToolRegistry) (appr : string -> bool).
Import ExecutionEngine.















End DispatchFacts.


(** ** Sub-agent pool *)

Section PoolFacts.
Import SubAgentPool.

(** A whole counter below the ceiling of [q] is below [q]. *)
Lemma below_ceiling (q : Q) (i : nat) :
  i < Z.to_nat (Qceiling q) -> Qle_bool q (inject_Z (Z.of_nat i)) = false.
Proof.
  intros Hi. apply not_true_iff_false. intros H%Qle_bool_iff.
  apply Qceiling_resp_le in H. rewrite Qceiling_Z in H. lia.
Qed.

(** A whole counter that has reached the ceiling of [q] is not below [q]. *)
Lemma reached_ceiling (q : Q) (i : nat) :
  Z.to_nat (Qceiling q) <= i -> Qle_bool q (inject_Z (Z.of_nat i)) = true.
Proof.
  intros Hi. apply Qle_bool_iff.
  eapply Qle_trans; [apply Qle_ceiling|].
  rewrite <- Zle_Qle. lia.
Qed.

(** The loop of [spawn] makes one agent for each whole number from [i] up
    to the ceiling of [toSpawn], and then stops whatever rounds are left. *)
Lemma spawn_loop_seq (toSpawn : Q) (i n k : nat) (acc : list SubAgent) :
  i + n = Z.to_nat (Qceiling toSpawn) ->
  spawn_loop toSpawn i (n + k) acc = acc ++ (createSubAgent <$> seq i n).
Proof.
  revert i acc. induction n as [|n IH]; intros i acc Hn; simpl.
  - rewrite app_nil_r. destruct k as [|k]; [done|]. simpl.
    rewrite reached_ceiling by lia. done.
  - rewrite below_ceiling by lia. rewrite IH by lia.
    by rewrite <- app_assoc.
Qed.

(** One [spawn] on a pool adds as many agents as there are whole numbers
    from 0 below [min(count, maxConcurrency)]: none when that is not
    positive. *)
Lemma workers_spawn count pool :
  workers (spawn count pool) =
  workers pool + Z.to_nat (Qceiling (Qmin count (maxConcurrency pool))).
Proof.
  unfold workers, spawn. simpl.
  rewrite <- (Nat.add_0_r (Z.to_nat _)) at 1.
  rewrite spawn_loop_seq by done.
  by rewrite length_app, length_fmap, length_seq.
Qed.

Lemma Qmin_same (q : Q) : Qmin q q = q.
Proof.
  unfold Qmin, GenericMinMax.gmin.
  by destruct (q ?= q)%Q.
Qed.

End PoolFacts.

(** ** Retries *)

Section RetryFacts.
Import AgentRuntime.
Context {T : Type} (fn : nat -> Completion T).


Lemma retry_from_S (n : Z) (i remaining : nat) :
  retry_from fn n i (S remaining) =
  match fn i with
  | Returned v => (Returned (Ok v), [Attempt i])
  | Threw e =>
      if (Z.of_nat i =? n - 1)%Z
      then (Returned (Err e), [Attempt i])
      else
        let '(r, evs) := retry_from fn n (S i) remaining in
        (r, Attempt i :: Sleep (1000 * 2 ^ Z.of_nat i) :: evs)
  end.
Proof. done. Qed.

Lemma retry_from_spec (n : Z) (i remaining : nat) :
  Z.of_nat (i + S remaining) = n ->
  let '(r, evs) := retry_from fn n i (S remaining) in
  1 <= attempts evs <= S remaining /\
  delays evs = backoff <$> seq i (attempts evs - 1) /\
  (forall j, i <= j < i + (attempts evs - 1) -> exists e, fn j = Threw e) /\
  match r with
  | Returned (Ok v) => fn (i + (attempts evs - 1)) = Returned v
  | Returned (Err e) =>
      fn (i + (attempts evs - 1)) = Threw e /\ attempts evs = S remaining
  | Threw _ => False
  end.
Proof.
  revert i. induction remaining as [|rem IH]; intros i Hn.
  - simpl. destruct (fn i) as [v|e] eqn:Hfn.
    + unfold attempts; simpl. rewrite Nat.add_0_r. repeat split; first [done | lia | (intros; lia)].
    + replace (Z.of_nat i =? n - 1)%Z with true by (symmetry; apply Z.eqb_eq; lia).
      unfold attempts; simpl. rewrite Nat.add_0_r. repeat split; first [done | lia | (intros; lia)].
  - rewrite retry_from_S. destruct (fn i) as [v|e] eqn:Hfn.
    + unfold attempts; simpl. rewrite Nat.add_0_r. repeat split; first [done | lia | (intros; lia)].
    + replace (Z.of_nat i =? n - 1)%Z with false by (symmetry; apply Z.eqb_neq; lia).
      specialize (IH (S i)). 
      destruct (retry_from fn n (S i) (S rem)) as [r evs].
      cbv beta iota.
      destruct IH as (Ha & Hd & Hthrow & Hr); [lia|].
      assert (attempts (Attempt i :: Sleep (1000 * 2 ^ Z.of_nat i) :: evs)
              = S (attempts evs)) as Hatt by done.
      assert (delays (Attempt i :: Sleep (1000 * 2 ^ Z.of_nat i) :: evs)
              = backoff i :: delays evs) as Hdel by done.
      rewrite Hatt, Hdel, Hd.
      replace (S (attempts evs) - 1) with (S (attempts evs - 1)) by lia.
      replace (i + S (attempts evs - 1)) with (S i + (attempts evs - 1)) by lia.
      split; [lia|]. split; [done|]. split.
      * intros j Hj. destruct (decide (j = i)) as [->|Hne]; [by eauto|].
        apply Hthrow. lia.
      * destruct r as [[v|e']|]; [done| |done].
        destruct Hr as [? ?]. split; [done|lia].
Qed.
End RetryFacts.




(** ** The sample plans *)

Lemma chain_valid : valid_plan Samples.tools (steps Samples.chain).
Proof.
  split; [|split; [|split]].
  - repeat constructor.
  - repeat constructor; by eexists.
  - unfold resolvable. simpl. repeat constructor.
  - exists Samples.chain_rank. simpl. repeat constructor.
Qed.

(** C1: in the valid sample chain the first step fails; the two steps
    that depend on it are never dispatched and end pending, which is not a
    terminal status. *)
Lemma failed_dependency_leaves_steps_pending :
  valid_plan Samples.tools (steps Samples.chain) /\
  (fmap status <$>
     (ExecutionEngine.plan_steps <$>
        ExecutionEngine.execute_loop Samples.tools Samples.approve_all Samples.chain))
  = Some [failed; pending; pending; completed].
Proof. split; [apply chain_valid|]. vm_compute. reflexivity. Qed.

(** C2: the dependents of the failed step of the sample chain are not
    marked skipped and carry no reason: they are still pending, with no
    result. *)
Lemma dependents_are_not_skipped :
  ExecutionEngine.perStepResults <$>
    ExecutionEngine.execute Samples.tools Samples.approve_all Samples.chain
  = Some [("A", failed, Some (error_result "EXECUTION_ERROR"));
          ("B", pending, None);
          ("C", pending, None);
          ("D", completed, Some (ok_result (VStr "contents")))].
Proof. vm_compute. reflexivity. Qed.

(** C3: the result of the denied step carries the error
    ['User denied approval'], not ['approval denied']. *)
Lemma denial_error_text :
  (result <$>
     ExecutionEngine.plan_steps
       (ExecutionEngine.executeStep Samples.tools Samples.deny_all 0
          (ExecutionEngine.initial Samples.guarded)) !! 0)
  = Some (Some (error_result "User denied approval")) /\
  error_result "User denied approval" ≠ error_result "approval denied".
Proof. split; [vm_compute; reflexivity|]. intros H. discriminate H. Qed.

(** The run of the plan with one denied step: completed, with a skip. *)
Example guarded_run_summary :
  ExecutionEngine.execute Samples.tools Samples.deny_all Samples.guarded =
  Some {| ExecutionEngine.perStepResults :=
            [("X", skipped, Some (error_result "User denied approval"))];
          ExecutionEngine.overallStatus := ExecutionEngine.RunCompleted |}.
Proof. vm_compute. reflexivity. Qed.


(** The run of the two steps that wait for each other ends at once, with a
    structural error. *)
Example cycle_run_summary :
  ExecutionEngine.execute Samples.tools Samples.approve_all Samples.cycle =
  Some {| ExecutionEngine.perStepResults := [("A", pending, None); ("B", pending, None)];
          ExecutionEngine.overallStatus := ExecutionEngine.RunStructuralError |}.
Proof. vm_compute. reflexivity. Qed.

(** C1 on the sample chain. *)
Lemma every_dispatched_step_settles_once_witness :
  fresh (steps Samples.chain) /\
  exists st', ExecutionEngine.execute_loop Samples.tools Samples.approve_all
                Samples.chain = Some st' /\
    forall i s0, steps Samples.chain !! i = Some s0 ->
      count_events (is_dispatch i) (ExecutionEngine.trace st') <= 1.
Proof.
  assert (fresh (steps Samples.chain)) as Hf by repeat constructor.
  split; [exact Hf|].
  destruct (every_dispatched_step_settles_once Samples.tools Samples.approve_all
              Samples.chain Hf) as (st' & Hrun & Hsteps & _).
  exists st'. split; [exact Hrun|].
  intros i s0 Hs0. destruct (Hsteps i s0 Hs0) as [Hle _]. exact Hle.
Defined.

(** C2 on the sample chain. *)
Lemma failed_step_blocks_dependents_witness :
  fresh (steps Samples.chain) /\
  exists st', ExecutionEngine.execute_loop Samples.tools Samples.approve_all
                Samples.chain = Some st' /\
    forall s f, tc (depends (ExecutionEngine.plan_steps st')) s f ->
      status f = failed ->
      status s = pending /\ result s = None /\ s ∈ steps Samples.chain.
Proof.
  assert (fresh (steps Samples.chain)) as Hf by repeat constructor.
  split; [exact Hf|].
  destruct (failed_step_blocks_dependents Samples.tools Samples.approve_all
              Samples.chain Hf) as (st' & Hrun & Hdep & _).
  exists st'. split; [exact Hrun|exact Hdep].
Defined.

(** C3 on the sample plan with one step that needs approval, every approval denied. *)
Lemma denied_step_is_skipped_witness :
  ExecutionEngine.plan_steps (ExecutionEngine.initial Samples.guarded) !! 0 =
    Some (Samples.step "X" 1 "delete_file" []) /\
  step_requiresApproval Samples.tools (Samples.step "X" 1 "delete_file" []) = true /\
  Samples.deny_all "X" = false /\
  exists s', ExecutionEngine.plan_steps
               (ExecutionEngine.executeStep Samples.tools Samples.deny_all 0
                  (ExecutionEngine.initial Samples.guarded)) !! 0 = Some s' /\
    status s' = skipped /\
    result s' = Some (error_result "User denied approval").
Proof.
  split; [reflexivity|]. split; [vm_compute; reflexivity|]. split; [reflexivity|].
  destruct (denied_step_is_skipped Samples.tools Samples.deny_all
              (ExecutionEngine.initial Samples.guarded) 0
              (Samples.step "X" 1 "delete_file" []) eq_refl
              ltac:(vm_compute; reflexivity) eq_refl) as [H _].
  exact H.
Defined.

(** * Further properties of the code *)

(** ** More on whole runs *)

Section RunEvents.
Context (reg : ToolRegistry) (appr : string -> bool).
Import ExecutionEngine.

Lemma elem_of_concat_fmap {A B} (f : A -> list B) (l : list A) (y : B) :
  y ∈ concat (f <$> l) <-> exists x, x ∈ l /\ y ∈ f x.
Proof.
  induction l as [|x l IH]; csimpl.
  - split; [by intros ?%elem_of_nil|]. by intros (? & ?%elem_of_nil & _).
  - rewrite elem_of_app, IH. split.
    + intros [H|(z & Hz & H)]; [exists x; split; [left|done]|].
      exists z. split; [by right|done].
    + intros (z & [->|Hz]%elem_of_cons & H); [by left|]. right. eauto.
Qed.

(** The events a round adds are those of [executeStep] on its ready steps. *)
Lemma tick_new_events st e :
  e ∈ trace (tick reg appr (readySteps (plan_steps st)) st) ->
  e ∈ trace st \/
  exists i s, plan_steps st !! i = Some s /\ is_ready (plan_steps st) s = true /\
    e ∈ step_events reg appr i s.
Proof.
  destruct (tick_spec reg appr _ st (NoDup_readySteps (plan_steps st))) as [_ ->].
  rewrite !elem_of_app, !elem_of_concat_fmap.
  intros [H|[(i & Hi & He)|(i & Hi & He)]]; [by left|right..];
    apply elem_of_readySteps in Hi as (s & Hs & Hr);
    unfold on_step in He; rewrite Hs in He;
    exists i, s; (split; [done|]); (split; [done|]);
    unfold step_events; rewrite elem_of_app; eauto.
Qed.

(** A step that is pending in the course of a run is the step the run
    started with: the engine only writes to a step when it dispatches it. *)
Lemma tick_pending_unchanged st i s :
  plan_steps (tick reg appr (readySteps (plan_steps st)) st) !! i = Some s ->
  status s = pending ->
  plan_steps st !! i = Some s.
Proof.
  rewrite tick_steps, list_lookup_fmap.
  destruct (plan_steps st !! i) as [s0|]; [|done]. simpl. intros [= <-].
  unfold round_step. destruct (is_ready (plan_steps st) s0); [|done].
  intros Hp. pose proof (settled_terminal reg appr s0) as Ht.
  by rewrite Hp in Ht.
Qed.

(** Every event of a run is an event of [executeStep] on a step that was
    pending when the run started. *)
Lemma run_events fuel st st' e :
  run reg appr fuel st = Some st' ->
  e ∈ trace st' ->
  e ∈ trace st \/
  exists i s, plan_steps st !! i = Some s /\ status s = pending /\
    e ∈ step_events reg appr i s.
Proof.
  revert st. induction fuel as [|fuel IH]; intros st Hrun He; [done|].
  simpl in Hrun. destruct (hasRemainingSteps (plan_steps st)); [|simplify_eq; eauto].
  destruct (readySteps (plan_steps st)) as [|j R] eqn:HR; [simplify_eq; eauto|].
  rewrite <- HR in Hrun.
  destruct (IH _ Hrun He) as [H|(i & s & Hs & Hp & Hin)].
  - apply tick_new_events in H as [?|(i & s & Hs & Hr & Hin)]; [by left|].
    right. exists i, s. split; [done|]. split; [by eapply is_ready_pending|done].
  - right. exists i, s. split; [by eapply tick_pending_unchanged|done].
Qed.

(** A step that is not pending is never written to again. *)
Lemma run_not_pending_unchanged fuel st st' i s :
  run reg appr fuel st = Some st' ->
  plan_steps st !! i = Some s -> status s ≠ pending ->
  plan_steps st' !! i = Some s.
Proof.
  revert st. induction fuel as [|fuel IH]; intros st Hrun Hs Hp; [done|].
  simpl in Hrun. destruct (hasRemainingSteps (plan_steps st)); [|by simplify_eq].
  destruct (readySteps (plan_steps st)) as [|j R] eqn:HR; [by simplify_eq|].
  rewrite <- HR in Hrun. apply (IH _ Hrun); [|done].
  rewrite tick_steps, list_lookup_fmap, Hs. simpl.
  by rewrite round_step_not_pending.
Qed.

Lemma step_events_index i s e :
  e ∈ step_events reg appr i s -> ev_index e = i.
Proof.
  unfold step_events. rewrite elem_of_app.
  intros [H|H]; [by eapply begin_events_index|by eapply resume_events_index].
Qed.

(** X1. A step that is not pending when [execute] starts (it ran before, or
    the planner marked it) is never picked by the [filter] of the loop:
    the run ends with the step as it was, and no status, progress,
    approval or tool event is about it. *)
Theorem execute_touches_only_pending_steps (plan : Plan) (i : nat) (s : Step) :
  steps plan !! i = Some s ->
  status s ≠ pending ->
  exists st', execute_loop reg appr plan = Some st' /\
    plan_steps st' !! i = Some s /\
    forall e, e ∈ trace st' -> ev_index e ≠ i.
Proof.
  intros Hs Hp. destruct (execute_loop_terminates reg appr plan) as [st' Hrun].
  exists st'. split; [done|]. unfold execute_loop in Hrun. split.
  - by eapply run_not_pending_unchanged.
  - intros e He Hi.
    destruct (run_events _ _ _ _ Hrun He) as [H|(j & t & Ht & Hpt & Hin)].
    + by apply elem_of_nil in H.
    + apply step_events_index in Hin. simpl in Ht. congruence.
Qed.

Lemma step_events_tool_execute i s j n a :
  EvToolExecute j n a ∈ step_events reg appr i s ->
  j = i /\ n = tool s /\ a = args s /\ denied reg appr s = false /\
  is_Some (registry_get reg (tool s)).
Proof.
  unfold step_events, begin_events, suspension_of, resume_events, call_events,
    denied, toolCall.
  rewrite !elem_of_app. intros [[H|H]|H].
  - revert H. repeat (intros [?|H]%elem_of_cons; [done|revert H]).
    by intros ?%elem_of_nil.
  - destruct (step_requiresApproval reg s).
    + apply list_elem_of_singleton in H. done.
    + destruct (registry_get reg (tool s)) as [t|].
      * apply list_elem_of_singleton in H. simplify_eq. eauto.
      * revert H. repeat (intros [?|H]%elem_of_cons; [done|revert H]).
        by intros ?%elem_of_nil.
  - destruct (step_requiresApproval reg s); simpl in *.
    + destruct (appr (id s)); simpl.
      * apply elem_of_app in H as [H|H].
        -- destruct (registry_get reg (tool s)) as [t|].
           ++ apply list_elem_of_singleton in H. simplify_eq. eauto.
           ++ revert H. repeat (intros [?|H]%elem_of_cons; [done|revert H]).
              by intros ?%elem_of_nil.
        -- destruct (registry_get reg (tool s)) as [t|]; simpl in H.
           ++ apply settle_events_index in H as Hi.
              destruct (_ t (args s)) as [r|e0]; simpl in H;
                revert H; repeat (intros [?|H]%elem_of_cons; [done|revert H]);
                by intros ?%elem_of_nil.
           ++ by apply elem_of_nil in H.
      * apply list_elem_of_singleton in H. done.
    + destruct (registry_get reg (tool s)) as [t|]; simpl in H.
      * destruct (_ t (args s)) as [r|e0]; simpl in H;
          revert H; repeat (intros [?|H]%elem_of_cons; [done|revert H]);
          by intros ?%elem_of_nil.
      * by apply elem_of_nil in H.
Qed.

(** X2. Every call of [tool.execute] in a run is made for a step of the plan
    that was pending and is not denied, on the tool registered under the
    step's [tool] name, and it is passed [step.args] as the plan has them:
    the engine never calls [context.resolveArgs], so a reference such as
    ["$step_1"] reaches the tool unresolved. *)
Theorem tools_receive_unresolved_args (plan : Plan) :
  exists st', execute_loop reg appr plan = Some st' /\
    forall i n a, EvToolExecute i n a ∈ trace st' ->
      exists s t, steps plan !! i = Some s /\ status s = pending /\
        n = tool s /\ a = args s /\
        registry_get reg (tool s) = Some t /\ denied reg appr s = false.
Proof.
  destruct (execute_loop_terminates reg appr plan) as [st' Hrun].
  exists st'. split; [done|]. intros i n a He. unfold execute_loop in Hrun.
  destruct (run_events _ _ _ _ Hrun He) as [H|(j & s & Hs & Hp & Hin)].
  { by apply elem_of_nil in H. }
  apply step_events_tool_execute in Hin as (-> & -> & -> & Hd & [t Ht]).
  exists s, t. done.
Qed.
End RunEvents.

(** ** Progress reports and the [catch] block *)

Section MoreStepFacts.
Context (reg : ToolRegistry) (appr : string -> bool).
Import ExecutionEngine.

Lemma step_events_progress i s j v :
  EvProgress j v ∈ step_events reg appr i s ->
  j = i /\ (v = running \/
            (denied reg appr s = false /\ v = status (settled reg appr s))).
Proof.
  intros H. split; [by apply step_events_index in H|].
  revert H.
  unfold step_events, begin_events, suspension_of, resume_events, call_events,
    settled, denied, calledStep, deniedStep, toolCall, settle_events.
  rewrite !elem_of_app.
  destruct (step_requiresApproval reg s); simpl.
  - destruct (appr (id s)); simpl.
    + destruct (registry_get reg (tool s)) as [t|]; simpl.
      * destruct (_ t (args s)) as [r|e0]; simpl;
          rewrite ?elem_of_app, ?elem_of_cons, ?elem_of_nil;
          intros H; destruct_or!; simplify_eq; eauto.
      * rewrite ?elem_of_app, ?elem_of_cons, ?elem_of_nil.
        intros H; destruct_or!; simplify_eq; eauto.
    + rewrite ?elem_of_cons, ?elem_of_nil.
      intros H; destruct_or!; simplify_eq; eauto.
  - destruct (registry_get reg (tool s)) as [t|]; simpl.
    + destruct (_ t (args s)) as [r|e0]; simpl;
        rewrite ?elem_of_cons, ?elem_of_nil;
        intros H; destruct_or!; simplify_eq; eauto.
    + rewrite ?elem_of_cons, ?elem_of_nil.
      intros H; destruct_or!; simplify_eq; eauto.
Qed.

(** X3. [emitProgress] is never called with status skipped: a denied step
    returns before the second [emitProgress]. Every progress event of a
    run reports either running, or the completed or failed status a step
    that was not denied ended with. *)
Theorem skipped_steps_are_not_reported (plan : Plan) :
  exists st', execute_loop reg appr plan = Some st' /\
    forall i v, EvProgress i v ∈ trace st' ->
      v ≠ skipped /\
      (v = running \/
       exists s, steps plan !! i = Some s /\ denied reg appr s = false /\
         v = status (settled reg appr s) /\ (v = completed \/ v = failed)).
Proof.
  destruct (execute_loop_terminates reg appr plan) as [st' Hrun].
  exists st'. split; [done|]. intros i v He. unfold execute_loop in Hrun.
  destruct (run_events _ _ _ _ _ _ Hrun He) as [H|(j & s & Hs & Hp & Hin)].
  { by apply elem_of_nil in H. }
  apply step_events_progress in Hin as [-> [->|[Hd ->]]]; [by split; [|left]|].
  assert (status (settled reg appr s) = completed \/
          status (settled reg appr s) = failed) as Hv.
  { unfold settled, calledStep, settleStep. rewrite Hd.
    destruct (toolCall reg s) as [[[[]]|]|]; simpl; eauto. }
  split; [by destruct Hv as [-> | ->]|]. right. exists s. done.
Qed.

(** X4. When the step is not denied and its tool throws, or no tool is
    registered under its name (so that [tool.execute] is a [TypeError]),
    the [catch] block of [executeStep] marks the step failed with the
    result [{ ok: false, error: String(error) }], reports it, changes no
    other step and stores nothing in the context: the exception does not
    leave [executeStep]. *)
Theorem executeStep_catches (st : EngineState) (i : nat) (s : Step) (e : JsError) :
  plan_steps st !! i = Some s ->
  denied reg appr s = false ->
  toolCall reg s = Some (Threw e) \/
    (toolCall reg s = None /\ e = TypeError_execute) ->
  let st' := executeStep reg appr i st in
  plan_steps st' =
    <[i := with_result (error_result (String_of_error e)) (with_status failed s)]>
      (plan_steps st) /\
  context st' = context st /\
  EvStatus i failed ∈ trace st' /\
  EvProgress i failed ∈ trace st'.
Proof.
  intros Hs Hd Hc st'. subst st'. rewrite (executeStep_spec _ _ _ _ _ Hs).
  cbn [plan_steps context trace].
  assert (settled reg appr s =
          with_result (error_result (String_of_error e)) (with_status failed s)) as ->.
  { unfold settled, calledStep. rewrite Hd.
    by destruct Hc as [-> | [-> ->]]. }
  split; [done|].
  unfold denied in Hd. unfold suspension_of, resume_context, begin_events,
    resume_events, call_events, toolCall in *.
  destruct (step_requiresApproval reg s); simpl in *.
  - apply negb_false_iff in Hd. rewrite Hd.
    destruct (registry_get reg (tool s)) as [t|]; simpl in *.
    + destruct Hc as [Hc|[? _]]; [|done]. injection Hc as Hc. rewrite Hc. simpl.
      split; [done|]. rewrite !elem_of_app, !elem_of_cons. split; eauto 10.
    + destruct Hc as [?|[_ ->]]; [done|]. split; [done|].
      rewrite !elem_of_app, !elem_of_cons. split; eauto 10.
  - destruct (registry_get reg (tool s)) as [t|]; simpl in *.
    + destruct Hc as [Hc|[? _]]; [|done]. injection Hc as Hc. rewrite Hc. simpl.
      split; [done|]. rewrite !elem_of_app, !elem_of_cons. split; eauto 10.
    + destruct Hc as [?|[_ ->]]; [done|]. split; [done|].
      rewrite !elem_of_app, !elem_of_cons. split; eauto 10.
Qed.
End MoreStepFacts.

(** ** The context over a run *)

Section ContextOfRun.
Context (reg : ToolRegistry) (appr : string -> bool).
Import ExecutionEngine.

Lemma resume_context_stored s c :
  resume_context reg appr (suspension_of reg s) s c = store_step reg appr s c.
Proof.
  unfold resume_context, suspension_of, store_step, stored, denied, toolCall,
    settle_context.
  destruct (step_requiresApproval reg s); simpl.
  - destruct (appr (id s)); simpl; [|done].
    destruct (registry_get reg (tool s)) as [t|]; simpl; [|done].
    by destruct (_ t (args s)).
  - destruct (registry_get reg (tool s)) as [t|]; simpl; [|done].
    by destruct (_ t (args s)).
Qed.

Lemma resume_all_context R K st :
  NoDup R ->
  context (resume_all reg appr ((fun i => (i, K i)) <$> R) st) =
  foldl (fun c i => on_step st i (fun s => resume_context reg appr (K i) s c) c)
    (context st) R.
Proof.
  revert st. induction R as [|i R IH]; intros st HND; [done|].
  apply NoDup_cons in HND as [Hi HND].
  rewrite !fmap_cons, !resume_all_cons. simpl.
  set (st1 := match K i with
              | Some k => executeStep_resume reg appr i k st
              | None => st
              end).
  assert (Hst1 :
    plan_steps st1 = match plan_steps st !! i with
                     | Some s => <[i := finished reg appr (K i) s]> (plan_steps st)
                     | None => plan_steps st
                     end /\
    context st1 = on_step st i (fun s => resume_context reg appr (K i) s (context st))
                    (context st)).
  { unfold st1, on_step. destruct (K i) as [k|]; simpl.
    - destruct (plan_steps st !! i) as [s|] eqn:Hs.
      + by rewrite (executeStep_resume_spec _ _ _ _ _ _ Hs).
      + by rewrite (executeStep_resume_none _ _ _ _ _ Hs).
    - destruct (plan_steps st !! i) as [s|] eqn:Hs; simpl; [|done].
      by rewrite list_insert_id. }
  destruct Hst1 as [Hp Hc]. clearbody st1.
  rewrite (IH st1 HND), Hc.
  assert (Hin : forall j, j ∈ R -> plan_steps st1 !! j = plan_steps st !! j).
  { intros j Hj. rewrite Hp. destruct (plan_steps st !! i); [|done].
    apply list_lookup_insert_ne. intros ->. done. }
  clear -Hin. generalize (on_step st i
    (fun s => resume_context reg appr (K i) s (context st)) (context st)).
  induction R as [|j R IH]; intros c; [done|]. simpl.
  rewrite IH by (intros; apply Hin; by right).
  unfold on_step. by rewrite Hin by left.
Qed.

(** The context after a round: each ready step stores its value, in array
    order. *)
Lemma tick_context st :
  context (tick reg appr (readySteps (plan_steps st)) st) =
  foldl (fun c i => on_step st i (fun s => store_step reg appr s c) c)
    (context st) (readySteps (plan_steps st)).
Proof.
  pose proof (NoDup_readySteps (plan_steps st)) as HND. unfold tick.
  destruct (begin_all_spec reg _ st HND) as (B1 & B2 & B3 & _).
  destruct (begin_all reg (readySteps (plan_steps st)) st) as [st1 ks].
  simpl in *. subst ks.
  rewrite (resume_all_context _ _ _ HND), B3.
  generalize (context st).
  assert (forall j, j ∈ readySteps (plan_steps st) ->
            plan_steps st1 !! j = began reg <$> plan_steps st !! j) as Hin.
  { intros j Hj. rewrite B1. by rewrite bool_decide_eq_true_2. }
  clear -Hin. induction (readySteps (plan_steps st)) as [|j R IH]; intros c; [done|].
  simpl. rewrite IH by (intros; apply Hin; by right). f_equal.
  unfold on_step. rewrite Hin by left.
  destruct (plan_steps st !! j) as [s|]; [|done]. simpl.
  by rewrite resume_context_began, resume_context_stored.
Qed.
End ContextOfRun.

Section ContextInvariant.
Context (reg : ToolRegistry) (appr : string -> bool).
Import ExecutionEngine.

Lemma ids_lookup_inj (l : list Step) i j s t :
  NoDup (id <$> l) -> l !! i = Some s -> l !! j = Some t -> id s = id t -> i = j.
Proof.
  intros HND Hs Ht Hid. eapply NoDup_lookup; [done| |].
  - by rewrite list_lookup_fmap, Hs.
  - by rewrite list_lookup_fmap, Ht, Hid.
Qed.

Lemma find_step_unique (l : list Step) i s :
  NoDup (id <$> l) -> l !! i = Some s -> find_step l (id s) = Some s.
Proof.
  intros HND Hs.
  destruct (find_step_resolves l (id s)) as [t Ht].
  { unfold buildDependencyGraph. rewrite <- list_fmap_compose.
    apply list_elem_of_fmap. exists s. split; [done|]. by eapply list_elem_of_lookup_2. }
  rewrite Ht. f_equal.
  destruct (find_step_Some _ _ _ Ht) as [[j Hj]%list_elem_of_lookup Hid].
  assert (j = i) as -> by (by eapply ids_lookup_inj). congruence.
Qed.

Lemma find_step_None (l : list Step) k t :
  find_step l k = None -> t ∈ l -> id t ≠ k.
Proof.
  unfold find_step. intros Hf Ht%list_elem_of_In Hid.
  pose proof (find_none _ _ Hf t Ht) as Hn. simpl in Hn.
  by rewrite bool_decide_eq_true_2 in Hn.
Qed.

Lemma store_step_other s c k :
  id s ≠ k -> store_step reg appr s c !! k = c !! k.
Proof.
  intros Hne. unfold store_step. destruct (stored reg appr s); [|done].
  unfold ExecutionContext.set. by rewrite lookup_insert_ne.
Qed.

Lemma store_step_same s c :
  store_step reg appr s c !! id s =
  match stored reg appr s with Some v => Some v | None => c !! id s end.
Proof.
  unfold store_step. destruct (stored reg appr s); [|done].
  unfold ExecutionContext.set. by rewrite lookup_insert_eq.
Qed.

Lemma fold_store_other st R c k :
  (forall i s, i ∈ R -> plan_steps st !! i = Some s -> id s ≠ k) ->
  foldl (fun c i => on_step st i (fun s => store_step reg appr s c) c) c R !! k
  = c !! k.
Proof.
  revert c. induction R as [|i R IH]; intros c H; [done|]. simpl.
  rewrite IH by (intros j s Hj; apply H; by right).
  unfold on_step. destruct (plan_steps st !! i) as [s|] eqn:Hs; [|done].
  apply store_step_other. eapply H; [left|done].
Qed.

Lemma fold_store_this st R c i s :
  NoDup R -> i ∈ R -> plan_steps st !! i = Some s ->
  (forall j t, j ∈ R -> j ≠ i -> plan_steps st !! j = Some t -> id t ≠ id s) ->
  foldl (fun c i => on_step st i (fun s => store_step reg appr s c) c) c R !! id s
  = match stored reg appr s with Some v => Some v | None => c !! id s end.
Proof.
  intros HND. revert c. induction HND as [|j R Hj HND IH]; intros c Hi Hs Hoth.
  { by apply elem_of_nil in Hi. }
  simpl. destruct (decide (j = i)) as [->|Hne].
  - rewrite fold_store_other.
    + unfold on_step. rewrite Hs. apply store_step_same.
    + intros j t Hjr Ht. apply (Hoth j t); [by right| |done]. intros ->. done.
  - apply elem_of_cons in Hi as [->|Hi]; [done|].
    rewrite IH; [|done|done|intros j' t ???; apply (Hoth j' t); [by right|done..]].
    destruct (stored reg appr s); [done|].
    unfold on_step. destruct (plan_steps st !! j) as [t|] eqn:Ht; [|done].
    apply store_step_other. apply (Hoth j t); [left|done..].
Qed.

Lemma stored_settled s :
  stored reg appr (settled reg appr s) = stored reg appr s.
Proof. unfold stored. by rewrite denied_settled, toolCall_settled. Qed.

Lemma stored_round all s :
  stored reg appr (round_step reg appr all s) = stored reg appr s.
Proof. unfold round_step. destruct (is_ready all s); [apply stored_settled|done]. Qed.

Lemma ids_round all (l : list Step) :
  id <$> (round_step reg appr all <$> l) = id <$> l.
Proof.
  rewrite <- list_fmap_compose. apply list_fmap_ext. intros _ s _. simpl.
  apply round_step_id.
Qed.

(** A round keeps the context in step with the steps. *)
Lemma held_tick st :
  NoDup (id <$> plan_steps st) ->
  (forall k, context st !! k = held reg appr (plan_steps st) k) ->
  forall k, context (tick reg appr (readySteps (plan_steps st)) st) !! k =
            held reg appr
              (plan_steps (tick reg appr (readySteps (plan_steps st)) st)) k.
Proof.
  intros HND Hinv k. rewrite tick_context, tick_steps.
  set (l := plan_steps st) in *.
  unfold held. rewrite find_step_round.
  destruct (find_step l k) as [s|] eqn:Hf; simpl.
  - destruct (find_step_Some _ _ _ Hf) as [[i Hi]%list_elem_of_lookup <-].
    rewrite stored_round.
    destruct (is_ready l s) eqn:Hr.
    + rewrite fold_store_this with (i := i) (s := s); try done.
      * unfold round_step. rewrite Hr.
        rewrite bool_decide_eq_false_2.
        2:{ pose proof (settled_terminal reg appr s) as Ht. intros Hp.
            by rewrite Hp in Ht. }
        destruct (stored reg appr s) eqn:Hst; [done|].
        rewrite Hinv. unfold held. rewrite Hf.
        by rewrite bool_decide_eq_true_2 by (by eapply is_ready_pending).
      * apply NoDup_readySteps.
      * apply elem_of_readySteps. eauto.
      * intros j t _ Hne Ht Hid. apply Hne. by eapply ids_lookup_inj.
    + rewrite fold_store_other.
      * rewrite Hinv. unfold held. rewrite Hf.
        unfold round_step. by rewrite Hr.
      * intros j t (t' & Ht' & Hrt)%elem_of_readySteps Ht Hid.
        assert (j = i) as -> by (by eapply ids_lookup_inj).
        congruence.
  - rewrite fold_store_other.
    + rewrite Hinv. unfold held. by rewrite Hf.
    + intros j t _ Ht. eapply find_step_None; [done|].
      by eapply list_elem_of_lookup_2.
Qed.

Lemma held_run fuel st st' :
  run reg appr fuel st = Some st' ->
  NoDup (id <$> plan_steps st) ->
  (forall k, context st !! k = held reg appr (plan_steps st) k) ->
  forall k, context st' !! k = held reg appr (plan_steps st') k.
Proof.
  revert st. induction fuel as [|fuel IH]; intros st Hrun HND Hinv; [done|].
  simpl in Hrun. destruct (hasRemainingSteps (plan_steps st)); [|by simplify_eq].
  destruct (readySteps (plan_steps st)) as [|j R] eqn:HR; [by simplify_eq|].
  rewrite <- HR in Hrun. apply (IH _ Hrun).
  - by rewrite tick_steps, ids_round.
  - by apply held_tick.
Qed.

Lemma stored_result s v :
  stored reg appr s = Some v ->
  exists r, result (settled reg appr s) = Some r /\
    v = default VUndefined (value r) /\
    status (settled reg appr s) = (if ok r then completed else failed).
Proof.
  unfold stored, settled, calledStep, settleStep.
  destruct (denied reg appr s); [done|].
  destruct (toolCall reg s) as [[r|]|]; [|done..].
  intros [= <-]. eauto.
Qed.

Lemma completed_stored s :
  status (settled reg appr s) = completed ->
  exists r, result (settled reg appr s) = Some r /\
    stored reg appr s = Some (default VUndefined (value r)).
Proof.
  unfold stored, settled, calledStep, deniedStep, settleStep.
  destruct (denied reg appr s); [done|].
  destruct (toolCall reg s) as [[r|]|]; [|done..].
  intros _. eauto.
Qed.

Lemma skipped_stored s :
  status (settled reg appr s) = skipped -> stored reg appr s = None.
Proof.
  unfold stored, settled, calledStep, deniedStep, settleStep.
  destruct (denied reg appr s); [done|].
  destruct (toolCall reg s) as [[[[]]|]|]; done.
Qed.

(** X5. At the end of a run on a plan whose steps are all pending and have
    distinct ids, the context holds, for every completed step, the [value]
    of its result; every entry of the context is the [value] of the result
    of a step whose tool returned, be it completed or failed ([undefined]
    when the result has no value); and nothing is stored for a step that
    is still pending or was skipped. *)
Theorem context_holds_returned_values (plan : Plan) :
  fresh (steps plan) ->
  NoDup (id <$> steps plan) ->
  exists st', execute_loop reg appr plan = Some st' /\
    (forall s, s ∈ plan_steps st' -> status s = completed ->
       exists r, result s = Some r /\
         context st' !! id s = Some (default VUndefined (value r))) /\
    (forall k v, context st' !! k = Some v ->
       exists s r, s ∈ plan_steps st' /\ id s = k /\ result s = Some r /\
         status s = (if ok r then completed else failed) /\
         v = default VUndefined (value r)) /\
    (forall s, s ∈ plan_steps st' -> status s = pending \/ status s = skipped ->
       context st' !! id s = None).
Proof.
  intros Hf HND. destruct (execute_loop_terminates reg appr plan) as [st' Hrun].
  exists st'. split; [done|].
  destruct (run_final reg appr (steps plan) _ _ _ Hrun (run_inv_initial _ _ _ Hf))
    as [Hinv _].
  assert (forall k, context st' !! k = held reg appr (plan_steps st') k) as Hheld.
  { eapply held_run; [done|done|]. intros k. simpl. unfold held.
    destruct (find_step (steps plan) k) as [s|] eqn:Hs; [|done].
    apply find_step_Some in Hs as [Hs _]. unfold fresh in Hf.
    rewrite Forall_forall in Hf. destruct (Hf s Hs) as [Hp _].
    by rewrite bool_decide_eq_true_2. }
  assert (NoDup (id <$> plan_steps st')) as HND'.
  { pose proof (run_graph _ _ _ _ _ Hrun) as Hg. unfold buildDependencyGraph in Hg.
    apply (f_equal (fmap fst)) in Hg. rewrite <- !list_fmap_compose in Hg.
    simpl in Hg. unfold compose in Hg. simpl in Hg.
    change (id <$> plan_steps st' = id <$> steps plan) in Hg. by rewrite Hg. }
  split; [|split].
  - intros s [i Hi]%list_elem_of_lookup Hc.
    rewrite Hheld. unfold held. rewrite (find_step_unique _ _ _ HND' Hi).
    rewrite bool_decide_eq_false_2 by congruence.
    destruct (Hinv i s Hi) as [(Hp & _)|(s0 & _ & -> & _)]; [congruence|].
    rewrite stored_settled.
    destruct (completed_stored _ Hc) as (r & Hr & Hst). eauto.
  - intros k v. rewrite Hheld. unfold held.
    destruct (find_step (plan_steps st') k) as [s|] eqn:Hs; [|done].
    destruct (find_step_Some _ _ _ Hs) as [Hin <-].
    case_bool_decide; [done|]. intros Hst.
    apply list_elem_of_lookup in Hin as [i Hi].
    destruct (Hinv i s Hi) as [(Hp & _)|(s0 & _ & -> & _)]; [done|].
    rewrite stored_settled in Hst.
    destruct (stored_result _ _ Hst) as (r & Hr & -> & Hstat).
    exists (settled reg appr s0), r. split; [by eapply list_elem_of_lookup_2|]. done.
  - intros s [i Hi]%list_elem_of_lookup Hst.
    rewrite Hheld. unfold held. rewrite (find_step_unique _ _ _ HND' Hi).
    case_bool_decide; [done|]. destruct Hst as [?|Hsk]; [done|].
    destruct (Hinv i s Hi) as [(Hp & _)|(s0 & _ & -> & _)]; [done|].
    rewrite stored_settled. by apply skipped_stored.
Qed.
End ContextInvariant.

(** ** Dependency order *)

Section DependencyOrder.
Context (reg : ToolRegistry) (appr : string -> bool).
Import ExecutionEngine.

Lemma step_events_first i s :
  exists evs, step_events reg appr i s = EvStatus i running :: evs.
Proof. unfold step_events, begin_events. simpl. eauto. Qed.

Lemma step_events_final_status i s :
  EvStatus i (status (settled reg appr s)) ∈ step_events reg appr i s.
Proof.
  unfold step_events, begin_events, suspension_of, resume_events, call_events,
    settled, denied, calledStep, deniedStep, toolCall, settle_events.
  rewrite !elem_of_app.
  destruct (step_requiresApproval reg s); simpl.
  - destruct (appr (id s)); simpl.
    + destruct (registry_get reg (tool s)) as [t|]; simpl.
      * destruct (_ t (args s)) as [r|e0]; simpl;
          rewrite ?elem_of_app, ?elem_of_cons; eauto 10.
      * rewrite ?elem_of_app, ?elem_of_cons; eauto 10.
    + rewrite ?elem_of_cons; eauto 10.
  - destruct (registry_get reg (tool s)) as [t|]; simpl.
    + destruct (_ t (args s)) as [r|e0]; simpl; rewrite ?elem_of_cons; eauto 10.
    + rewrite ?elem_of_cons; eauto 10.
Qed.

(** The trace of a round: what was there, then the events of the round,
    among them those of each ready step. *)
Lemma tick_trace_extends st :
  exists new, trace (tick reg appr (readySteps (plan_steps st)) st) = trace st ++ new /\
    forall i s, plan_steps st !! i = Some s -> is_ready (plan_steps st) s = true ->
      (exists n1 n2, new = n1 ++ EvStatus i running :: n2) /\
      EvStatus i (status (settled reg appr s)) ∈ new.
Proof.
  destruct (tick_spec reg appr _ st (NoDup_readySteps (plan_steps st))) as [_ ->].
  eexists. split; [done|]. intros i s Hs Hr.
  assert (i ∈ readySteps (plan_steps st)) as Hi
    by (apply elem_of_readySteps; eauto).
  split.
  - assert (EvStatus i running ∈
            concat ((fun i => on_step st i (begin_events reg i) []) <$>
                      readySteps (plan_steps st))) as Hin.
    { apply elem_of_concat_fmap. exists i. split; [done|].
      unfold on_step. rewrite Hs. unfold begin_events. left. }
    apply list_elem_of_split in Hin as (n1 & n2 & ->).
    exists n1. eexists. by rewrite <- app_assoc.
  - pose proof (step_events_final_status i s) as Hin.
    unfold step_events in Hin. rewrite elem_of_app in *.
    destruct Hin as [Hin|Hin]; [left|right]; apply elem_of_concat_fmap;
      exists i; (split; [done|]); unfold on_step; by rewrite Hs.
Qed.

Lemma written_tick st :
  written st -> written (tick reg appr (readySteps (plan_steps st)) st).
Proof.
  intros HW i s'. destruct (tick_trace_extends st) as (new & Htr & Hnew).
  rewrite Htr, tick_steps, list_lookup_fmap.
  destruct (plan_steps st !! i) as [s|] eqn:Hs; [|done]. simpl.
  intros [= <-] Hp. rewrite elem_of_app. unfold round_step in *.
  destruct (is_ready (plan_steps st) s) eqn:Hr.
  - right. by apply (Hnew i s).
  - left. by apply HW.
Qed.

Lemma ordered_tick st :
  NoDup (id <$> plan_steps st) ->
  written st -> ordered st ->
  ordered (tick reg appr (readySteps (plan_steps st)) st).
Proof.
  intros HND HW HO i j s' t'.
  destruct (tick_trace_extends st) as (new & Htr & Hnew).
  rewrite Htr, tick_steps, !list_lookup_fmap.
  destruct (plan_steps st !! i) as [s|] eqn:Hs; [|done].
  destruct (plan_steps st !! j) as [t|] eqn:Ht; [|done]. simpl.
  intros [= <-] [= <-] Hp Hd.
  rewrite round_step_id, round_step_dependsOn in Hd.
  destruct (is_ready (plan_steps st) s) eqn:Hr.
  - destruct (Hnew i s Hs Hr) as [(n1 & n2 & ->) _].
    exists (trace st ++ n1), n2. split; [by rewrite <- app_assoc|].
    apply elem_of_app. left.
    unfold is_ready in Hr. apply andb_true_iff in Hr as [_ Hsat].
    unfold allDependenciesSatisfied in Hsat. rewrite forallb_forall in Hsat.
    apply list_elem_of_In in Hd. specialize (Hsat _ Hd).
    rewrite (find_step_unique _ _ _ HND Ht) in Hsat.
    apply bool_decide_eq_true in Hsat.
    rewrite <- Hsat. apply HW; [done|congruence].
  - unfold round_step in Hp. rewrite Hr in Hp.
    destruct (HO i j s t Hs Ht Hp Hd) as (tr1 & tr2 & -> & Hin).
    exists tr1, (tr2 ++ new). split; [|done].
    by rewrite <- app_assoc.
Qed.

Lemma ordered_run fuel st st' :
  run reg appr fuel st = Some st' ->
  NoDup (id <$> plan_steps st) -> written st -> ordered st ->
  written st' /\ ordered st'.
Proof.
  revert st. induction fuel as [|fuel IH]; intros st Hrun HND HW HO; [done|].
  simpl in Hrun. destruct (hasRemainingSteps (plan_steps st)); [|by simplify_eq].
  destruct (readySteps (plan_steps st)) as [|j R] eqn:HR; [by simplify_eq|].
  rewrite <- HR in Hrun. apply (IH _ Hrun).
  - by rewrite tick_steps, ids_round.
  - by apply written_tick.
  - by apply ordered_tick.
Qed.

(** X6. Dependency order. In a run on a plan whose steps are all pending and
    have distinct ids, a step is set running only after every step it
    depends on was set completed: in the trace, the completion of the
    dependency comes before the dispatch of the dependent. *)
Theorem dispatch_follows_dependencies (plan : Plan) :
  fresh (steps plan) ->
  NoDup (id <$> steps plan) ->
  exists st', execute_loop reg appr plan = Some st' /\
    forall i j s t, steps plan !! i = Some s -> steps plan !! j = Some t ->
      id t ∈ dependsOn s ->
      EvStatus i running ∈ trace st' ->
      exists tr1 tr2, trace st' = tr1 ++ EvStatus i running :: tr2 /\
        EvStatus j completed ∈ tr1.
Proof.
  intros Hf HND. destruct (execute_loop_terminates reg appr plan) as [st' Hrun].
  exists st'. split; [done|]. intros i j s t Hs Ht Hd Hdisp.
  destruct (run_final reg appr (steps plan) _ _ _ Hrun (run_inv_initial _ _ _ Hf))
    as [Hinv _].
  assert (fresh_pending : forall k u, steps plan !! k = Some u -> status u = pending).
  { intros k u Hu. unfold fresh in Hf. rewrite Forall_forall in Hf.
    by apply (Hf u (list_elem_of_lookup_2 _ _ _ Hu)). }
  destruct (ordered_run _ _ _ Hrun HND) as [_ HO].
  { intros k u Hu Hp. simpl in Hu. by rewrite (fresh_pending k u Hu) in Hp. }
  { intros k k' u u' Hu _ Hp. simpl in Hu. by rewrite (fresh_pending k u Hu) in Hp. }
  destruct (run_lookup reg appr _ _ _ i s Hrun Hs) as [s' Hs'].
  destruct (run_lookup reg appr _ _ _ j t Hrun Ht) as [t' Ht'].
  apply (HO i j s' t' Hs' Ht').
  - intros Hp. destruct (Hinv i s' Hs') as [(_ & _ & Hc & _)|(s0 & _ & -> & _)].
    + pose proof (count_events_zero_inv _ _ _ Hc Hdisp) as Hz. simpl in Hz.
      by rewrite bool_decide_eq_true_2 in Hz.
    + pose proof (settled_terminal reg appr s0) as HT. by rewrite Hp in HT.
  - assert (forall k u u', steps plan !! k = Some u -> plan_steps st' !! k = Some u' ->
              id u' = id u /\ dependsOn u' = dependsOn u) as Hstat.
    { intros k u u' Hu Hu'.
      destruct (Hinv k u' Hu') as [(_ & H0 & _)|(u0 & H0 & -> & _)];
        rewrite Hu in H0; injection H0 as <-; [done|].
      by rewrite settled_id, settled_dependsOn. }
    destruct (Hstat i s s' Hs Hs') as [_ ->].
    by destruct (Hstat j t t' Ht Ht') as [-> _].
Qed.
End DependencyOrder.

(** ** Plan validation *)

Section ValidationFacts.
Context (reg : ToolRegistry) (hasCycle : list (string * list string) -> bool)
        (safeParse : Tool -> Args -> bool).
Import PlanValidation.

Lemma ids_graph (all : list Step) : (buildDependencyGraph all).*1 = id <$> all.
Proof. unfold buildDependencyGraph. by rewrite <- list_fmap_compose. Qed.

Lemma find_step_is_Some all d :
  is_Some (ExecutionEngine.find_step all d) <-> d ∈ (id <$> all).
Proof.
  split.
  - intros [t Ht]. destruct (find_step_Some _ _ _ Ht) as [Hin <-].
    apply list_elem_of_fmap. eauto.
  - intros Hd. rewrite <- ids_graph in Hd.
    destruct (find_step_resolves _ _ Hd) as [t Ht]. eauto.
Qed.

Lemma check_dependencies_Ok all deps :
  check_dependencies all deps = Ok <-> Forall (fun d => d ∈ (id <$> all)) deps.
Proof.
  induction deps as [|d deps IH]; simpl; [done|].
  rewrite Forall_cons, <- IH, <- find_step_is_Some.
  destruct (ExecutionEngine.find_step all d) as [t|].
  - split; [|by intros [_ ?]]. intros H. split; [by eexists|done].
  - split; [done|]. by intros [[? ?] _].
Qed.


Lemma check_step_Ok all s :
  check_step reg safeParse all s = Ok <->
  tool_accepts reg safeParse s /\ Forall (fun d => d ∈ (id <$> all)) (dependsOn s).
Proof.
  unfold check_step, tool_accepts.
  destruct (registry_get reg (tool s)) as [t|].
  - destruct (safeParse t (args s)) eqn:Hp.
    + rewrite check_dependencies_Ok. split; [|by intros [_ ?]].
      intros H. split; [by eauto|done].
    + split; [done|]. intros [(t' & [= <-] & Hp') _]. congruence.
  - split; [done|]. by intros [(t' & ? & _) _].
Qed.

Lemma check_steps_Ok all l :
  check_steps reg safeParse all l = Ok <->
  Forall (fun s => check_step reg safeParse all s = Ok) l.
Proof.
  induction l as [|s l IH]; simpl; [done|].
  rewrite Forall_cons, <- IH.
  destruct (check_step reg safeParse all s).
  - split; [done|]. by intros [_ ?].
  - split; [done|]. by intros [? _].
Qed.

(** The first step that does not pass decides the error. *)
Lemma check_steps_first all l1 s l2 msg :
  Forall (fun s => check_step reg safeParse all s = Ok) l1 ->
  check_step reg safeParse all s = Error msg ->
  check_steps reg safeParse all (l1 ++ s :: l2) = Error msg.
Proof.
  intros H1 Hs. induction H1 as [|x l1 Hx _ IH]; simpl.
  - by rewrite Hs.
  - by rewrite Hx.
Qed.


Lemma resolvable_alt (all : list Step) :
  resolvable all <->
  Forall (fun s => Forall (fun d => d ∈ (id <$> all)) (dependsOn s)) all.
Proof.
  unfold resolvable. rewrite ids_graph. unfold buildDependencyGraph.
  by rewrite Forall_fmap.
Qed.

(** What an accepted plan passed. *)
Lemma validatePlan_Ok (plan : Plan) :
  validatePlan reg hasCycle safeParse plan = Ok ->
  hasCycle (buildDependencyGraph (steps plan)) = false /\
  Forall (tool_accepts reg safeParse) (steps plan) /\
  resolvable (steps plan).
Proof.
  unfold validatePlan. rewrite resolvable_alt.
  destruct (hasCycle (buildDependencyGraph (steps plan))); [done|].
  rewrite check_steps_Ok, <- Forall_and.
  intros H. split; [done|]. eapply Forall_impl; [done|].
  intros s Hs. by apply check_step_Ok.
Qed.

(** X7. [validatePlan] returns [ok: true] exactly when [hasCycle] finds no
    cycle, every step names a registered tool whose input schema accepts
    the step's arguments, and every id in a [dependsOn] is the id of a step
    of the plan. *)
Theorem validatePlan_accepts (plan : Plan) :
  validatePlan reg hasCycle safeParse plan = Ok <->
  hasCycle (buildDependencyGraph (steps plan)) = false /\
  Forall (tool_accepts reg safeParse) (steps plan) /\
  resolvable (steps plan).
Proof.
  unfold validatePlan. rewrite resolvable_alt.
  destruct (hasCycle (buildDependencyGraph (steps plan))).
  { split; [done|]. by intros [? _]. }
  rewrite check_steps_Ok, <- Forall_and.
  split.
  - intros H. split; [done|]. eapply Forall_impl; [done|].
    intros s Hs. by apply check_step_Ok.
  - intros [_ H]. eapply Forall_impl; [done|].
    intros s Hs. by apply check_step_Ok.
Qed.

End ValidationFacts.

(** ** Runs of accepted plans *)

Section ValidatedRuns.
Context (reg : ToolRegistry) (appr : string -> bool)
        (hasCycle : list (string * list string) -> bool)
        (safeParse : Tool -> Args -> bool).
Import ExecutionEngine.

Lemma step_events_execute i s :
  denied reg appr s = false -> is_Some (registry_get reg (tool s)) ->
  EvToolExecute i (tool s) (args s) ∈ step_events reg appr i s.
Proof.
  unfold denied. intros Hd [t Ht].
  unfold step_events, begin_events, suspension_of, resume_events, call_events,
    toolCall.
  rewrite Ht. destruct (step_requiresApproval reg s); simpl in *.
  - apply negb_false_iff in Hd. rewrite Hd.
    repeat (rewrite ?elem_of_cons, ?elem_of_app). eauto 10.
  - repeat (rewrite ?elem_of_cons, ?elem_of_app). eauto 10.
Qed.

(** The trace only grows. *)
Lemma run_trace_mono fuel st st' e :
  run reg appr fuel st = Some st' -> e ∈ trace st -> e ∈ trace st'.
Proof.
  revert st. induction fuel as [|fuel IH]; intros st Hrun He; [done|].
  simpl in Hrun.
  destruct (hasRemainingSteps (plan_steps st)); [|by simplify_eq].
  destruct (readySteps (plan_steps st)) as [|j R] eqn:HR; [by simplify_eq|].
  rewrite <- HR in Hrun. apply (IH _ Hrun).
  destruct (tick_trace_extends reg appr st) as (new & -> & _).
  apply elem_of_app. by left.
Qed.

(** A step with an event in the trace has all the events of its
    [executeStep] there. *)
Lemma run_events_complete fuel st st' e :
  run reg appr fuel st = Some st' ->
  e ∈ trace st' ->
  e ∈ trace st \/
  exists i s, plan_steps st !! i = Some s /\ status s = pending /\
    e ∈ step_events reg appr i s /\
    forall e', e' ∈ step_events reg appr i s -> e' ∈ trace st'.
Proof.
  revert st. induction fuel as [|fuel IH]; intros st Hrun He; [done|].
  simpl in Hrun.
  destruct (hasRemainingSteps (plan_steps st)); [|simplify_eq; eauto].
  destruct (readySteps (plan_steps st)) as [|j R] eqn:HR; [simplify_eq; eauto|].
  rewrite <- HR in Hrun.
  destruct (IH _ Hrun He) as [H|(k & u & Hu & Hp & Hin & Hsub)].
  - apply tick_new_events in H as [?|(k & u & Hu & Hr & Hin)]; [by left|].
    right. exists k, u. split; [done|]. split; [by eapply is_ready_pending|].
    split; [done|]. intros e' He'. apply (run_trace_mono _ _ _ _ Hrun).
    destruct (tick_spec reg appr _ st (NoDup_readySteps (plan_steps st))) as [_ ->].
    assert (k ∈ readySteps (plan_steps st)) as Hk
      by (apply elem_of_readySteps; eauto).
    unfold step_events in He'. rewrite !elem_of_app in *.
    destruct He' as [He'|He']; right; [left|right];
      apply elem_of_concat_fmap; exists k; (split; [done|]);
      unfold on_step; by rewrite Hu.
  - right. exists k, u. split; [by eapply tick_pending_unchanged|done].
Qed.

(** X9. In a run of a plan that [validatePlan] accepts, every step that is
    set running either is denied approval or has [tool.execute] called
    with its own tool name and arguments: the non-null assertion on
    [toolRegistry.get(step.tool)] never meets a missing tool. *)
Theorem accepted_plan_executes_its_tools (plan : Plan) :
  PlanValidation.validatePlan reg hasCycle safeParse plan = PlanValidation.Ok ->
  exists st', execute_loop reg appr plan = Some st' /\
    forall i, EvStatus i running ∈ trace st' ->
      exists s, steps plan !! i = Some s /\
        (denied reg appr s = true \/
         EvToolExecute i (tool s) (args s) ∈ trace st').
Proof.
  intros Hok. apply validatePlan_Ok in Hok as (_ & Htools & _).
  destruct (execute_loop_terminates reg appr plan) as [st' Hrun].
  exists st'. split; [done|]. intros i Hdisp. unfold execute_loop in Hrun.
  destruct (run_events_complete _ _ _ _ Hrun Hdisp) as [H|(j & s & Hs & Hp & Hin & Hsub)].
  { by apply elem_of_nil in H. }
  apply step_events_index in Hin as Hj. simpl in Hj. subst j.
  exists s. split; [done|].
  destruct (denied reg appr s) eqn:Hd; [by left|]. right.
  rewrite Forall_forall in Htools.
  destruct (Htools s (list_elem_of_lookup_2 _ _ _ Hs)) as (t & Ht & _).
  apply Hsub. apply step_events_execute; [done|by eexists].
Qed.
(** X10. A plan that [validatePlan] accepts, with a [hasCycle] that is right
    about this plan, whose steps are all pending and all succeed (not
    denied, the tool returns [ok: true]), runs to the end: no step
    remains, and every step is completed with the result its tool
    returned. *)
Theorem validated_plan_completes (plan : Plan) :
  fresh (steps plan) ->
  PlanValidation.validatePlan reg hasCycle safeParse plan = PlanValidation.Ok ->
  (hasCycle (buildDependencyGraph (steps plan)) = false -> acyclic (steps plan)) ->
  (forall s, s ∈ steps plan -> succeeds reg appr s) ->
  exists st', execute_loop reg appr plan = Some st' /\
    hasRemainingSteps (plan_steps st') = false /\
    forall i s, steps plan !! i = Some s ->
      exists r, toolCall reg s = Some (Returned r) /\ ok r = true /\
        plan_steps st' !! i = Some (with_result r (with_status completed s)).
Proof.
  intros Hf Hok Hcyc Hsucc.
  apply validatePlan_Ok in Hok as (Hnc & _ & Hres).
  specialize (Hcyc Hnc).
  destruct (execute_loop_terminates reg appr plan) as [st' Hrun].
  exists st'. split; [done|].
  destruct (execute_loop_inv _ _ _ _ Hf Hrun) as [Hinv Hnr].
  destruct (final_valid _ _ _ _ Hrun Hres Hcyc) as [Hres' Hacy'].
  assert (forall s, s ∈ plan_steps st' -> status s = completed) as Hall.
  { intros s Hs. eapply succeeding_branch_completes; try done.
    intros t Ht. eapply final_succeeds; try done. by eapply rtc_depends_in. }
  split.
  - unfold hasRemainingSteps. apply not_true_iff_false.
    intros (s & Hs & Hterm)%existsb_exists. apply list_elem_of_In in Hs.
    rewrite (Hall s Hs) in Hterm. done.
  - intros i s Hs.
    destruct (run_lookup _ _ _ _ _ i s Hrun Hs) as [s' Hs'].
    pose proof (Hall s' (list_elem_of_lookup_2 _ _ _ Hs')) as Hc.
    destruct (Hinv i s' Hs') as [(Hp & _)|(s0 & H0 & Hset & _)]; [congruence|].
    rewrite Hs in H0. injection H0 as <-.
    destruct (Hsucc s (list_elem_of_lookup_2 _ _ _ Hs)) as (Hd & r & Hr & Hokr).
    exists r. split; [done|]. split; [done|].
    rewrite Hs', Hset. unfold settled, calledStep, settleStep.
    by rewrite Hd, Hr, Hokr.
Qed.
End ValidatedRuns.

(** ** The tool registry *)

Section RegistryFacts.
Context (appr : string -> bool).
Import ExecutionEngine.

Lemma registry_get_register_ne (reg : ToolRegistry) (t : Tool) (n : string) :
  n ≠ name t -> registry_get (register t reg) n = registry_get reg n.
Proof. intros Hn. unfold registry_get, register. by rewrite lookup_insert_ne. Qed.

(** X11. [ToolRegistry]: [get] answers the tool last registered under a
    name; registering a tool leaves the answers for the other names as
    they were; registering twice under one name keeps the second tool
    only. *)
Theorem register_get (reg : ToolRegistry) (t t' : Tool) (n : string) :
  registry_get (register t reg) (name t) = Some t /\
  (n ≠ name t -> registry_get (register t reg) n = registry_get reg n) /\
  (name t' = name t -> register t (register t' reg) = register t reg).
Proof.
  unfold registry_get, register. split; [apply lookup_insert_eq|]. split.
  - intros Hn. by rewrite lookup_insert_ne.
  - intros ->. apply insert_insert_eq.
Qed.

Lemma step_requiresApproval_register reg t s :
  tool s ≠ name t ->
  step_requiresApproval (register t reg) s = step_requiresApproval reg s.
Proof.
  intros Hn. unfold step_requiresApproval.
  by rewrite registry_get_register_ne.
Qed.

Lemma executeStep_begin_register reg t i st :
  (forall s, plan_steps st !! i = Some s -> tool s ≠ name t) ->
  executeStep_begin (register t reg) i st = executeStep_begin reg i st.
Proof.
  intros H. unfold executeStep_begin.
  destruct (plan_steps st !! i) as [s|] eqn:Hs; [|done].
  specialize (H s eq_refl).
  rewrite step_requiresApproval_register by done.
  unfold call_tool. by rewrite registry_get_register_ne.
Qed.

Lemma executeStep_resume_register reg t i k st :
  (forall s, plan_steps st !! i = Some s -> tool s ≠ name t) ->
  executeStep_resume (register t reg) appr i k st =
  executeStep_resume reg appr i k st.
Proof.
  intros H. unfold executeStep_resume.
  destruct (plan_steps st !! i) as [s|] eqn:Hs; [|done].
  specialize (H s eq_refl). destruct k; [|done].
  unfold call_tool. by rewrite registry_get_register_ne.
Qed.

Lemma began_tool reg s : tool (began reg s) = tool s.
Proof.
  unfold began, settleStep. destruct (step_requiresApproval reg s); [done|].
  by destruct (toolCall reg s).
Qed.

Lemma finished_tool reg k s : tool (finished reg appr k s) = tool s.
Proof.
  unfold finished, calledStep, deniedStep, settleStep.
  destruct k as [[|[|]]|]; try done.
  destruct (appr (id s)); [|done]. by destruct (toolCall reg s) as [[|]|].
Qed.

Lemma unused_begin reg n i st :
  unused n st -> unused n (executeStep_begin reg i st).1.
Proof.
  intros H j s'. destruct (plan_steps st !! i) as [s|] eqn:Hs.
  - rewrite (executeStep_begin_spec _ _ _ _ Hs). cbn [fst plan_steps].
    destruct (decide (j = i)) as [->|Hne].
    + rewrite (insert_lookup_same _ _ _ _ Hs). intros [= <-].
      rewrite began_tool. by eapply H.
    + rewrite list_lookup_insert_ne by done. apply H.
  - rewrite (executeStep_begin_none _ _ _ Hs). apply H.
Qed.

Lemma unused_resume reg n i k st :
  unused n st -> unused n (executeStep_resume reg appr i k st).
Proof.
  intros H j s'. destruct (plan_steps st !! i) as [s|] eqn:Hs.
  - rewrite (executeStep_resume_spec _ _ _ _ _ _ Hs). cbn [plan_steps].
    destruct (decide (j = i)) as [->|Hne].
    + rewrite (insert_lookup_same _ _ _ _ Hs). intros [= <-].
      change (tool (finished reg appr (Some k) s) ≠ n).
      rewrite finished_tool. by eapply H.
    + rewrite list_lookup_insert_ne by done. apply H.
  - rewrite (executeStep_resume_none _ _ _ _ _ Hs). apply H.
Qed.

Lemma begin_all_register reg t R st :
  unused (name t) st ->
  begin_all (register t reg) R st = begin_all reg R st /\
  unused (name t) (begin_all reg R st).1.
Proof.
  revert st. induction R as [|i R IH]; intros st H; [done|]. simpl.
  rewrite executeStep_begin_register by (intros s Hs; by eapply H).
  pose proof (unused_begin reg (name t) i st H) as H1.
  destruct (executeStep_begin reg i st) as [st1 k]. simpl in H1.
  destruct (IH st1 H1) as [-> H2].
  by destruct (begin_all reg R st1) as [st2 ks].
Qed.

Lemma resume_all_register reg t ks st :
  unused (name t) st ->
  resume_all (register t reg) appr ks st = resume_all reg appr ks st /\
  unused (name t) (resume_all reg appr ks st).
Proof.
  revert st. induction ks as [|[i [k|]] ks IH]; intros st H; [done|..]; simpl.
  - rewrite executeStep_resume_register by (intros s Hs; by eapply H).
    apply IH. by apply unused_resume.
  - by apply IH.
Qed.

Lemma tick_register reg t R st :
  unused (name t) st ->
  tick (register t reg) appr R st = tick reg appr R st /\
  unused (name t) (tick reg appr R st).
Proof.
  intros H. unfold tick.
  destruct (begin_all_register reg t R st H) as [-> H1].
  destruct (begin_all reg R st) as [st1 ks]. simpl in H1.
  by apply resume_all_register.
Qed.

Lemma run_register reg t fuel st :
  unused (name t) st ->
  run (register t reg) appr fuel st = run reg appr fuel st.
Proof.
  revert st. induction fuel as [|fuel IH]; intros st H; [done|]. simpl.
  destruct (hasRemainingSteps (plan_steps st)); [|done].
  destruct (readySteps (plan_steps st)) as [|j R] eqn:HR; [done|].
  destruct (tick_register reg t (j :: R) st H) as [-> H1]. by apply IH.
Qed.

(** X12. Registering a tool under a name no step of the plan uses changes
    nothing in the run of the plan: same final steps, same context, same
    events, same summary. *)
Theorem unused_tool_does_not_matter (reg : ToolRegistry) (t : Tool) (plan : Plan) :
  Forall (fun s => tool s ≠ name t) (steps plan) ->
  execute (register t reg) appr plan = execute reg appr plan /\
  execute_loop (register t reg) appr plan = execute_loop reg appr plan.
Proof.
  intros H.
  assert (execute_loop (register t reg) appr plan = execute_loop reg appr plan) as He.
  { unfold execute_loop. apply run_register. intros i s Hs. simpl in Hs.
    rewrite Forall_forall in H. apply H. by eapply list_elem_of_lookup_2. }
  split; [|done]. unfold execute. by rewrite He.
Qed.
End RegistryFacts.

(** ** The agent runtime's [executeStep] *)

Section RuntimeFacts.
Context (reg : ToolRegistry) (appr : string -> bool).

(** X13. The agent runtime's [executeStep]: it throws exactly when the step
    is not denied and either the tool's call throws (nothing is caught) or
    no tool is registered under the step's tool name and the name is one
    that [Object.prototype] answers, in which case [tool.execute] is not a
    function; for any other unknown tool it returns the result with error
    [Unknown tool: <name>] having done nothing; approval is requested only
    for a step that requires it, the tool is executed only for a step that
    is not denied, with the step's own tool name and arguments, and
    progress is reported only for the result the tool returned, as
    completed or failed after its [ok]. *)
Theorem runtime_executeStep_outcomes (s : Step) :
  (forall e, (AgentRuntime.executeStep reg appr s).1 = Threw e <->
     denied reg appr s = false /\
     (toolCall reg s = Some (Threw e) \/
      (toolCall reg s = None /\ tool s ∈ AgentRuntime.Object_prototype /\
       e = AgentRuntime.TypeError_not_a_function))) /\
  (toolCall reg s = None -> tool s ∉ AgentRuntime.Object_prototype ->
     AgentRuntime.executeStep reg appr s =
     (Returned (error_result ("Unknown tool: " +:+ tool s)), [])) /\
  (toolCall reg s = None -> tool s ∈ AgentRuntime.Object_prototype ->
     AgentRuntime.executeStep reg appr s =
     (Threw AgentRuntime.TypeError_not_a_function, [])) /\
  (forall e, e ∈ (AgentRuntime.executeStep reg appr s).2 ->
     match e with
     | AgentRuntime.RtApprovalRequest n =>
         n = id s /\ step_requiresApproval reg s = true
     | AgentRuntime.RtToolExecute n tn a =>
         n = id s /\ tn = tool s /\ a = args s /\ denied reg appr s = false /\
         is_Some (registry_get reg (tool s))
     | AgentRuntime.RtReportProgress n v r =>
         n = id s /\ denied reg appr s = false /\
         toolCall reg s = Some (Returned r) /\
         (AgentRuntime.executeStep reg appr s).1 = Returned r /\
         v = (if ok r then completed else failed)
     end).
Proof.
  unfold AgentRuntime.executeStep, denied, toolCall, step_requiresApproval,
    registry_get.
  destruct (reg !! tool s) as [t|] eqn:Ht; simpl.
  - split; [|split; [done|split; [done|]]].
    + intros e.
      destruct (match requiresApproval t with
                | StaticApproval b => b
                | DynamicApproval f => f (args s)
                end); simpl.
      * destruct (appr (id s)); simpl.
        -- destruct (_ t (args s)) as [r|e0]; simpl; split; try done.
           ++ intros [_ [?|[? _]]]; done.
           ++ intros [= ->]. eauto.
           ++ intros [_ [[= ->]|[? _]]]; done.
        -- split; [done|]. by intros [? _].
      * destruct (_ t (args s)) as [r|e0]; simpl; split; try done.
        -- intros [_ [?|[? _]]]; done.
        -- intros [= ->]. eauto.
        -- intros [_ [[= ->]|[? _]]]; done.
    + intros e.
      destruct (match requiresApproval t with
                | StaticApproval b => b
                | DynamicApproval f => f (args s)
                end); simpl.
      * destruct (appr (id s)); simpl.
        -- destruct (_ t (args s)) as [r|e0]; simpl;
             rewrite ?elem_of_cons, ?elem_of_nil;
             intros H; destruct_or!; simplify_eq; eauto 10.
        -- rewrite ?elem_of_cons, ?elem_of_nil.
           intros H; destruct_or!; simplify_eq; done.
      * destruct (_ t (args s)) as [r|e0]; simpl;
          rewrite ?elem_of_cons, ?elem_of_nil;
          intros H; destruct_or!; simplify_eq; eauto 10.
  - split; [|split; [|split]].
    + intros e. case_bool_decide as Hin; simpl; split.
      * intros [= <-]. eauto.
      * intros [_ [?|(_ & _ & ->)]]; done.
      * done.
      * intros [_ [?|(_ & ? & _)]]; done.
    + intros _ Hin. by rewrite bool_decide_eq_false_2.
    + intros _ Hin. by rewrite bool_decide_eq_true_2.
    + intros e. case_bool_decide; simpl; intros ?%elem_of_nil; done.
Qed.

Ltac by_cases :=
  repeat split; try done; intros; simplify_eq/=; eauto;
  try match goal with
      | H : exists _, _ |- _ =>
          destruct H as (? & ? & ?); simplify_eq/=; congruence
      end.

(** X14. The engine's [executeStep] and the agent runtime's on one step.
    The engine marks the step completed exactly when the runtime returns a
    result with [ok: true]; when the engine marks it skipped, the runtime
    returns the denial result; when the tool returns, both hand on the
    tool's own result; when the runtime throws, the engine marks the step
    failed, with the [String] of the same error if the tool is registered.
    They part on a step whose tool is not registered: the engine fails it
    with the [TypeError] of reading [execute] of [undefined], where the
    runtime returns the [Unknown tool] result, or throws because
    [tool.execute] is not a function when [Object.prototype] answers the
    name. *)
Theorem engine_matches_runtime (st : ExecutionEngine.EngineState) (i : nat)
    (s : Step) :
  ExecutionEngine.plan_steps st !! i = Some s ->
  exists s', ExecutionEngine.plan_steps
               (ExecutionEngine.executeStep reg appr i st) !! i = Some s' /\
    (status s' = completed <->
     exists r, (AgentRuntime.executeStep reg appr s).1 = Returned r /\ ok r = true) /\
    (status s' = skipped ->
     (AgentRuntime.executeStep reg appr s).1 = Returned AgentRuntime.denial_result) /\
    (forall e, (AgentRuntime.executeStep reg appr s).1 = Threw e ->
       status s' = failed /\
       (is_Some (registry_get reg (tool s)) ->
        result s' = Some (error_result (String_of_error e)))) /\
    (forall r, toolCall reg s = Some (Returned r) -> denied reg appr s = false ->
       (AgentRuntime.executeStep reg appr s).1 = Returned r /\ result s' = Some r) /\
    (registry_get reg (tool s) = None ->
     status s' = failed /\
     result s' =
       Some (error_result (String_of_error ExecutionEngine.TypeError_execute)) /\
     (AgentRuntime.executeStep reg appr s).1 =
       (if bool_decide (tool s ∈ AgentRuntime.Object_prototype)
        then Threw AgentRuntime.TypeError_not_a_function
        else Returned (error_result ("Unknown tool: " +:+ tool s)))).
Proof.
  intros Hs. exists (settled reg appr s).
  rewrite (executeStep_spec _ _ _ _ _ Hs). cbn [ExecutionEngine.plan_steps].
  split; [by eapply insert_lookup_same|].
  unfold settled, calledStep, deniedStep, settleStep, AgentRuntime.executeStep,
    denied, toolCall, step_requiresApproval, registry_get.
  destruct (reg !! tool s) as [t|] eqn:Ht; simpl.
  2:{ case_bool_decide; simpl; by_cases; by destruct H0. }
  destruct (match requiresApproval t with
            | StaticApproval b => b
            | DynamicApproval f => f (args s)
            end); simpl.
  - destruct (appr (id s)); simpl; [|by_cases].
    destruct (execute t (args s)) as [r|e0]; simpl;
      [destruct (ok r) eqn:Hok; simpl|]; by_cases.
  - destruct (execute t (args s)) as [r|e0]; simpl;
      [destruct (ok r) eqn:Hok; simpl|]; by_cases.
Qed.
End RuntimeFacts.

(** ** Running a batch on the pool *)

Section PoolRunFacts.
Import PoolRun.
Context {Task T : Type} (execute : Task -> Completion T).

Lemma length_in_flight_from (a : nat) (l : list (option Task)) :
  length (in_flight_from a l) = length (awaited l).
Proof.
  revert a. induction l as [|[t|] l IH]; intros a; simpl; [done| |done].
  by rewrite IH.
Qed.

Lemma elem_of_in_flight_from (a x : nat) (l : list (option Task)) :
  x ∈ in_flight_from a l -> exists t, a <= x /\ l !! (x - a) = Some (Some t).
Proof.
  revert a. induction l as [|[t|] l IH]; intros a; simpl.
  - by intros ?%elem_of_nil.
  - intros [->|H]%elem_of_cons.
    + exists t. split; [lia|]. by rewrite Nat.sub_diag.
    + destruct (IH _ H) as (t' & Hle & Ht'). exists t'. split; [lia|].
      by replace (x - a) with (S (x - S a)) by lia.
  - intros H. destruct (IH _ H) as (t' & Hle & Ht'). exists t'. split; [lia|].
    by replace (x - a) with (S (x - S a)) by lia.
Qed.

Lemma omap_insert_Some (a : nat) (t : Task) (l : list (option Task)) :
  a < length l ->
  awaited (<[a := Some t]> l) ≡ₚ t :: awaited (<[a := None]> l).
Proof.
  intros Ha. rewrite !insert_take_drop by done. unfold awaited.
  rewrite !omap_app. simpl. by rewrite Permutation_middle.
Qed.

Lemma omap_lookup_Some (a : nat) (t : Task) (l : list (option Task)) :
  l !! a = Some (Some t) ->
  awaited l ≡ₚ t :: awaited (<[a := None]> l).
Proof.
  intros Ha. rewrite <-(list_insert_id l a (Some t)) at 1 by done.
  apply omap_insert_Some. by eapply lookup_lt_Some.
Qed.

Lemma take_inv (n : nat) (tasks : list Task) (b a : nat) (st : State) :
  a < n ->
  length (slots st) = n ->
  (calls st).*2 ++ queue st = tasks ->
  Forall2 (fun t r => execute t = Returned r) (returned st) (results st) ->
  progress st = results st ->
  returned st ++ awaited (<[a := None]> (slots st)) ≡ₚ (calls st).*2 ->
  (queue st ≠ [] ->
   forall i, i < b -> i ≠ a -> exists t, slots st !! i = Some (Some t)) ->
  pool_inv execute n tasks b (take a st).
Proof.
  intros Ha Hlen Hq Hres Hprog Hperm Hbusy. unfold take, pool_inv.
  destruct (queue st) as [|task q] eqn:Eq; cbn [slots queue calls returned results progress].
  - rewrite length_insert. repeat split; try done.
  - rewrite length_insert. split; [done|]. split.
    { rewrite <-Hq, fmap_app, <-app_assoc. reflexivity. }
    split; [done|]. split; [done|]. split.
    { rewrite fmap_app. simpl. rewrite omap_insert_Some by lia.
      rewrite <-Hperm. rewrite <-app_assoc. apply Permutation_app_head.
      by rewrite <-Permutation_cons_append. }
    intros _ i Hi. destruct (decide (i = a)) as [->|Hne].
    + exists task. apply list_lookup_insert_eq. lia.
    + rewrite list_lookup_insert_ne by done. by apply Hbusy.
Qed.

Lemma start_from_inv (n : nat) (tasks : list Task) (k a : nat) (st : State) :
  a + k = n ->
  pool_inv execute n tasks a st ->
  (forall i, a <= i -> i < n -> slots st !! i = Some None) ->
  returned st = [] ->
  pool_inv execute n tasks n (start_from a k st) /\
  returned (start_from a k st) = [].
Proof.
  revert a st. induction k as [|k IH]; intros a st Hak Hinv Hnone Hret; simpl.
  - assert (a = n) as -> by lia. done.
  - destruct Hinv as (Hlen & Hq & Hres & Hprog & Hperm & Hbusy).
    apply IH; [lia| | |].
    + apply take_inv; try done; [lia| |].
      * rewrite list_insert_id by (apply Hnone; lia). done.
      * intros Hne i Hi Hia. apply Hbusy; [done|lia].
    + intros i Hi Hin. unfold take.
      destruct (queue st); cbn [slots];
        (rewrite list_lookup_insert_ne by lia); apply Hnone; lia.
    + unfold take. by destruct (queue st).
Qed.

Lemma start_inv (pool : SubAgentPool.t) (tasks : list Task) :
  pool_inv execute (length (SubAgentPool.agents pool)) tasks
    (length (SubAgentPool.agents pool)) (start pool tasks) /\
  returned (start (T:=T) pool tasks) = [].
Proof.
  unfold start. apply start_from_inv; [done| | |done].
  - unfold pool_inv. cbn [slots queue calls returned results progress].
    rewrite length_replicate. repeat split; try done.
    + unfold awaited. by induction (length (SubAgentPool.agents pool)).
    + intros _ i Hi. lia.
  - intros i _ Hi. cbn [slots]. by apply lookup_replicate_2.
Qed.

Lemma resume_inv (n : nat) (tasks : list Task) (a : nat) (task : Task) (r : T)
    (st : State) :
  pool_inv execute n tasks n st ->
  slots st !! a = Some (Some task) ->
  execute task = Returned r ->
  pool_inv execute n tasks n (resume a task r st) /\
  returned (resume a task r st) = returned st ++ [task].
Proof.
  intros (Hlen & Hq & Hres & Hprog & Hperm & Hbusy) Ha Hr.
  assert (a < n) as Han by (rewrite <-Hlen; by eapply lookup_lt_Some).
  split.
  - unfold resume. apply take_inv; cbn [slots queue calls returned results progress];
      try done.
    + apply Forall2_app; [done|]. by constructor.
    + by rewrite Hprog.
    + rewrite <-Hperm, <-app_assoc. apply Permutation_app_head.
      symmetry. by apply omap_lookup_Some.
    + intros Hne i Hi _. by apply Hbusy.
  - unfold resume, take. cbn [queue]. by destruct (queue st).
Qed.

Lemma await_all_spec (choice : nat -> nat) (n : nat) (tasks : list Task)
    (fuel k : nat) (st : State) :
  pool_inv execute n tasks n st ->
  length tasks <= fuel + length (returned st) ->
  exists c st', await_all execute choice k fuel st = Some (c, st') /\
    match c with
    | Returned res =>
        pool_inv execute n tasks n st' /\ in_flight st' = [] /\ res = results st'
    | Threw e => exists task, task ∈ tasks /\ execute task = Threw e
    end.
Proof.
  revert k st. induction fuel as [|fuel IH]; intros k st Hinv Hfuel.
  - destruct (in_flight st) as [|a0 rest] eqn:Ef.
    + exists (Returned (results st)), st. simpl. by rewrite Ef.
    + exfalso. destruct Hinv as (Hlen & Hq & Hres & Hprog & Hperm & Hbusy).
      apply (f_equal length) in Ef, Hq. apply Permutation_length in Hperm.
      unfold in_flight in Ef. rewrite length_in_flight_from in Ef.
      rewrite length_app in Hq, Hperm. simpl in Ef. lia.
  - simpl. destruct (in_flight st) as [|a0 rest] eqn:Ef.
    + by exists (Returned (results st)), st.
    + match goal with |- context [slots st !! ?x] => set (a := x) end.
      assert (a ∈ in_flight st) as Hin.
      { rewrite Ef. apply list_elem_of_In.
        apply (nth_In (a0 :: rest) a0 (n:=choice k `mod` length (a0 :: rest))).
        apply Nat.mod_upper_bound. done. }
      apply elem_of_in_flight_from in Hin as (task & _ & Htask).
      rewrite Nat.sub_0_r in Htask. rewrite Htask.
      destruct (execute task) as [r|e] eqn:Hex.
      * destruct (resume_inv n tasks a task r st Hinv Htask Hex) as [Hinv' Hret].
        apply IH; [done|]. rewrite Hret, length_app. simpl. lia.
      * exists (Threw e), (abandon a st). split; [done|]. exists task. split; [|done].
        destruct Hinv as (Hlen & Hq & Hres & Hprog & Hperm & Hbusy).
        rewrite <-Hq. apply elem_of_app. left. rewrite <-Hperm.
        apply elem_of_app. right. rewrite (omap_lookup_Some a task (slots st)) by done.
        apply elem_of_cons. by left.
Qed.

Lemma pool_inv_done (n : nat) (tasks : list Task) (st : State) :
  0 < n ->
  pool_inv execute n tasks n st ->
  in_flight st = [] ->
  (calls st).*2 = tasks /\ returned st ≡ₚ tasks.
Proof.
  intros Hn (Hlen & Hq & Hres & Hprog & Hperm & Hbusy) Hf.
  apply (f_equal length) in Hf. unfold in_flight in Hf.
  rewrite length_in_flight_from in Hf. simpl in Hf.
  assert (queue st = []) as Hqe.
  { destruct (queue st) as [|t q] eqn:Eq; [done|].
    destruct (Hbusy ltac:(done) 0 Hn) as [t' Ht'].
    rewrite (omap_lookup_Some 0 t' (slots st)) in Hf by done. done. }
  rewrite Hqe, app_nil_r in Hq. split; [done|].
  apply nil_length_inv in Hf. rewrite Hf, app_nil_r in Hperm.
  by rewrite Hperm, Hq.
Qed.

(** X15. [executeAll] on a pool with at least one agent always ends, whatever
    the order in which the awaited calls end. When it returns, every task
    was handed to [agent.execute] exactly once, in the order of [tasks];
    every call returned; [results] holds one value per task, each the
    value returned for a task, in the order the calls ended; and
    [onProgress] saw the same values in the same order. When it throws, the
    error is the one thrown by the call of one of the tasks. *)
Theorem executeAll_runs_every_task_once (choice : nat -> nat)
    (pool : SubAgentPool.t) (tasks : list Task) :
  SubAgentPool.agents pool ≠ [] ->
  exists c st, executeAll execute choice pool tasks = Some (c, st) /\
    match c with
    | Returned res =>
        (calls st).*2 = tasks /\
        returned st ≡ₚ tasks /\
        Forall2 (fun t r => execute t = Returned r) (returned st) res /\
        progress st = res /\
        length res = length tasks
    | Threw e => exists task, task ∈ tasks /\ execute task = Threw e
    end.
Proof.
  intros Hpool. unfold executeAll.
  destruct (start_inv pool tasks) as [Hinv Hret].
  destruct (await_all_spec choice _ tasks (length tasks) 0 _ Hinv)
    as (c & st' & Hrun & Hpost).
  { rewrite Hret. simpl. lia. }
  exists c, st'. split; [done|]. destruct c as [res|e]; [|done].
  destruct Hpost as (Hinv' & Hf & ->).
  destruct (pool_inv_done (length (SubAgentPool.agents pool)) tasks st')
    as [Hc Hp]; [|done|done|].
  { destruct (SubAgentPool.agents pool); [done|simpl; lia]. }
  destruct Hinv' as (Hlen & Hq & Hres & Hprog & Hperm & Hbusy).
  repeat split; try done.
  apply Forall2_length in Hres. apply Permutation_length in Hp. lia.
Qed.

Lemma length_awaited_le (l : list (option Task)) :
  length (awaited l) <= length l.
Proof. induction l as [|[t|] l IH]; simpl; lia. Qed.

Lemma length_awaited_busy (l : list (option Task)) :
  (forall i, i < length l -> exists t, l !! i = Some (Some t)) ->
  length (awaited l) = length l.
Proof.
  induction l as [|o l IH]; intros H; [done|].
  destruct (H 0 ltac:(simpl; lia)) as [t Ht]. simpl in Ht. injection Ht as ->.
  simpl. f_equal. apply IH. intros i Hi.
  apply (H (S i)). simpl. lia.
Qed.

(** X16. When [executeAll] reaches [Promise.all], every agent has taken one
    task while tasks were left: [min(agents, tasks)] calls are in flight,
    never more than the pool has agents; they are for the first tasks of
    the list, in order, and the queue holds the rest. *)
Theorem executeAll_starts_one_task_per_agent (pool : SubAgentPool.t)
    (tasks : list Task) :
  let st := start (T:=T) pool tasks in
  length (in_flight st) = SubAgentPool.running_at_start pool tasks /\
  (calls st).*2 = firstn (SubAgentPool.workers pool) tasks /\
  queue st = skipn (SubAgentPool.workers pool) tasks /\
  length (in_flight st) <= SubAgentPool.workers pool.
Proof.
  intros st. subst st.
  destruct (start_inv pool tasks) as [(Hlen & Hq & Hres & Hprog & Hperm & Hbusy) Hret].
  unfold SubAgentPool.running_at_start, SubAgentPool.workers, in_flight.
  rewrite length_in_flight_from.
  set (st := start pool tasks) in *.
  set (n := length (SubAgentPool.agents pool)) in *.
  rewrite Hret in Hperm. simpl in Hperm.
  pose proof (Permutation_length Hperm) as Hl.
  pose proof (length_awaited_le (slots st)) as Hle.
  pose proof (f_equal length Hq) as Hlq. rewrite length_app in Hlq.
  rewrite length_fmap in Hl.
  assert (length (calls st) = n `min` length tasks) as Hc.
  { destruct (queue st) as [|t q] eqn:Eq.
    - simpl in Hlq. rewrite length_fmap in Hlq. lia.
    - rewrite length_awaited_busy in Hl.
      + simpl in Hlq. rewrite length_fmap in Hlq. lia.
      + intros i Hi. apply Hbusy; [done|lia]. }
  assert (queue st = [] \/ length (calls st) = n) as Hcase.
  { destruct (queue st) as [|t q] eqn:Eq; [by left|right].
    simpl in Hlq. rewrite length_fmap in Hlq. lia. }
  split; [lia|]. split; [|split; [|lia]].
  - rewrite <-Hq. destruct Hcase as [->|Hn].
    + rewrite app_nil_r in *. rewrite firstn_all2; [done|].
      rewrite length_fmap. lia.
    + by rewrite take_app_length' by (by rewrite length_fmap).
  - rewrite <-Hq. destruct Hcase as [Hn|Hn].
    + rewrite Hn, app_nil_r in *. rewrite skipn_all2; [done|].
      rewrite length_fmap. lia.
    + by rewrite drop_app_length' by (by rewrite length_fmap).
Qed.

(** X17. On a pool with no agent (nothing spawned, or after [shutdown])
    [executeAll] returns an empty list without an error: no task is
    executed, the queue is left as it was. *)
Theorem executeAll_without_agents (choice : nat -> nat)
    (pool : SubAgentPool.t) (tasks : list Task) :
  SubAgentPool.agents pool = [] ->
  exists st, executeAll execute choice pool tasks = Some (Returned [], st) /\
    calls st = [] /\ queue st = tasks.
Proof.
  intros Hpool. unfold executeAll, start. rewrite Hpool. simpl.
  destruct tasks; simpl; eauto.
Qed.

End PoolRunFacts.

(** ** How many tasks run at once *)

Section PoolBound.
Import PoolRun.
Context {Task T : Type} (execute : Task -> Completion T).

Lemma length_slots_take (a : nat) (st : @State Task T) :
  length (slots (take a st)) = length (slots st).
Proof. unfold take. destruct (queue st); simpl; apply length_insert. Qed.

Lemma length_slots_start_from (a n : nat) (st : @State Task T) :
  length (slots (start_from a n st)) = length (slots st).
Proof.
  revert a st. induction n as [|n IH]; intros a st; simpl; [done|].
  by rewrite IH, length_slots_take.
Qed.

Lemma length_slots_start (pool : SubAgentPool.t) (tasks : list Task) :
  length (slots (start (T:=T) pool tasks)) = SubAgentPool.workers pool.
Proof.
  unfold start. rewrite length_slots_start_from. simpl.
  apply length_replicate.
Qed.

Lemma length_slots_step (st st' : State) :
  step execute st st' -> length (slots st') = length (slots st).
Proof.
  intros [a task r st0 _ _|a task e st0 _ _].
  - unfold resume. by rewrite length_slots_take.
  - unfold abandon. simpl. apply length_insert.
Qed.

(** Every agent awaits one call at most: a batch under way has as many
    slots as the pool has agents. *)
Lemma reachable_slots (pool : SubAgentPool.t) (tasks : list Task) (st : State) :
  reachable execute pool tasks st ->
  length (slots st) = SubAgentPool.workers pool.
Proof.
  unfold reachable. intros H.
  assert (forall a b, rtc (step execute) a b ->
            length (slots b) = length (slots a)) as Hkeep.
  { intros a b Hab. induction Hab as [|x y z Hxy _ IH]; [done|].
    rewrite IH. by apply length_slots_step. }
  rewrite (Hkeep _ _ H). apply length_slots_start.
Qed.

Lemma reachable_in_flight (pool : SubAgentPool.t) (tasks : list Task) (st : State) :
  reachable execute pool tasks st ->
  length (in_flight st) <= SubAgentPool.workers pool.
Proof.
  intros H. rewrite <- (reachable_slots _ _ _ H).
  unfold in_flight. rewrite length_in_flight_from. apply length_awaited_le.
Qed.

Lemma length_awaited_lookup (a : nat) (t : Task) (l : list (option Task)) :
  l !! a = Some (Some t) ->
  length (awaited l) = S (length (awaited (<[a := None]> l))).
Proof. intros H. by rewrite (omap_lookup_Some a t l H). Qed.

Lemma length_awaited_insert (a : nat) (t : Task) (l : list (option Task)) :
  a < length l ->
  length (awaited (<[a := Some t]> l)) = S (length (awaited (<[a := None]> l))).
Proof. intros H. by rewrite (omap_insert_Some a t l H). Qed.

(** What [take] adds to the calls it adds to the calls awaited. *)
Lemma take_count (a : nat) (st : @State Task T) :
  a < length (slots st) ->
  length (calls (take a st)) + length (awaited (<[a := None]> (slots st))) =
    length (calls st) + length (awaited (slots (take a st))) /\
  returned (take a st) = returned st /\ thrown (take a st) = thrown st.
Proof.
  intros Ha. unfold take. destruct (queue st) as [|task q]; simpl.
  - done.
  - rewrite length_app, length_awaited_insert by done. simpl.
    split; [lia|done].
Qed.

Lemma thrown_start_from (a n : nat) (st : @State Task T) :
  thrown (start_from a n st) = thrown st.
Proof.
  revert a st. induction n as [|n IH]; intros a st; simpl; [done|].
  rewrite IH. unfold take. by destruct (queue st).
Qed.

(** Every call made has returned, has thrown, or is awaited. *)
Lemma step_calls (st st' : State) :
  step execute st st' ->
  length (calls st) =
    length (returned st) + length (thrown st) + length (awaited (slots st)) ->
  length (calls st') =
    length (returned st') + length (thrown st') + length (awaited (slots st')).
Proof.
  intros [a task r st0 Ha Hr|a task e st0 Ha He] IH.
  - unfold resume.
    match goal with |- context [take a ?x] => set (st1 := x) end.
    destruct (take_count a st1) as (Hc & -> & ->).
    { simpl. by eapply lookup_lt_Some. }
    simpl in *. rewrite (length_awaited_lookup a task _ Ha) in IH.
    rewrite length_app. simpl. lia.
  - unfold abandon. simpl. rewrite Ha.
    rewrite (length_awaited_lookup a task _ Ha) in IH.
    rewrite length_app. simpl. lia.
Qed.

Lemma reachable_calls (pool : SubAgentPool.t) (tasks : list Task) (st : State) :
  reachable execute pool tasks st ->
  length (calls st) =
  length (returned st) + length (thrown st) + length (in_flight st).
Proof.
  unfold reachable, in_flight. intros H. rewrite length_in_flight_from.
  assert (forall a b, rtc (step execute) a b ->
            length (calls a) =
              length (returned a) + length (thrown a) + length (awaited (slots a)) ->
            length (calls b) =
              length (returned b) + length (thrown b) + length (awaited (slots b)))
    as Hkeep.
  { intros a b Hab. induction Hab as [|x y z Hxy _ IH]; [done|].
    intros Hx. apply IH. by eapply step_calls. }
  apply (Hkeep _ _ H).
  destruct (start_inv execute pool tasks)
    as [(Hlen & Hq & Hres & Hprog & Hperm & Hbusy) Hret].
  apply Permutation_length in Hperm.
  rewrite length_app, length_fmap in Hperm.
  unfold start in *. rewrite thrown_start_from. simpl. lia.
Qed.

Lemma reachable_outstanding (pool : SubAgentPool.t) (tasks : list Task)
    (st : State) :
  reachable execute pool tasks st ->
  outstanding st = length (in_flight st).
Proof. intros H. unfold outstanding. rewrite (reachable_calls _ _ _ H). lia. Qed.

(** The states [await_all] goes through are steps of the batch. *)
Lemma await_all_steps (choice : nat -> nat) (fuel k : nat) (st : State) c st' :
  await_all execute choice k fuel st = Some (c, st') -> rtc (step execute) st st'.
Proof.
  revert k st. induction fuel as [|fuel IH]; intros k st; simpl.
  - destruct (in_flight st); [|done]. by intros [= _ <-].
  - destruct (in_flight st) as [|a0 rest]; [by intros [= _ <-]|].
    match goal with |- context [slots st !! ?x] => set (a := x) end.
    destruct (slots st !! a) as [[task|]|] eqn:Ha; try by intros [= _ <-].
    destruct (execute task) as [r|e] eqn:Hex.
    + intros H. eapply rtc_l; [by eapply step_returns|]. by eapply IH.
    + intros [= _ <-]. eapply rtc_once. by eapply step_throws.
Qed.

Lemma executeAll_reachable (choice : nat -> nat) (pool : SubAgentPool.t)
    (tasks : list Task) c st :
  executeAll execute choice pool tasks = Some (c, st) ->
  reachable execute pool tasks st.
Proof. unfold executeAll, reachable. apply await_all_steps. Qed.

(** When the loops have started, [min(agents, tasks)] calls are awaited. *)
Lemma start_in_flight (pool : SubAgentPool.t) (tasks : list Task) :
  length (in_flight (start (T:=T) pool tasks)) =
  SubAgentPool.workers pool `min` length tasks.
Proof.
  destruct (start_inv execute pool tasks)
    as [(Hlen & Hq & Hres & Hprog & Hperm & Hbusy) Hret].
  unfold SubAgentPool.workers, in_flight.
  rewrite length_in_flight_from.
  set (st := start pool tasks) in *.
  set (n := length (SubAgentPool.agents pool)) in *.
  rewrite Hret in Hperm. simpl in Hperm.
  pose proof (Permutation_length Hperm) as Hl.
  pose proof (length_awaited_le (slots st)) as Hle.
  pose proof (f_equal length Hq) as Hlq. rewrite length_app in Hlq.
  rewrite length_fmap in Hl.
  destruct (queue st) as [|t q] eqn:Eq.
  - simpl in Hlq. rewrite length_fmap in Hlq. lia.
  - rewrite length_awaited_busy in Hl.
    + simpl in Hlq. rewrite length_fmap in Hlq. rewrite length_awaited_busy; [lia|].
      intros i Hi. apply Hbusy; [done|lia].
    + intros i Hi. apply Hbusy; [done|lia].
Qed.

End PoolBound.

(** C6 (as amended). For a batch whose requested count passes the input
    schema of [spawn_sub_agents] (a number from 1 to 10, whole or not), the
    pool the tool runs the batch on has one worker for each whole number
    from 0 below [count]: [count] workers when the count is whole, which is
    [min(count, maxSubAgents)], and the next whole number when it is not;
    at most [maxSubAgents] in either case. While [executeAll] runs the
    batch, whatever the order in which the calls end and whether or not
    one throws, the calls of [agent.execute] made and not ended are the
    ones the [processQueue] loops await, never more than the pool has
    workers, and once the loops have started [min(workers, tasks)] are. The cap the
    pool applies is its own [maxConcurrency], which the tool sets to the
    requested count: the bound by [maxSubAgents] comes from the schema. A
    fresh pool built with ceiling [m] has, after one [spawn], one worker
    for each whole number from 0 below [min(count, m)]. *)
Theorem tool_pool_parallelism (count : Q) :
  SubAgentPool.count_in_schema count = true ->
  SubAgentPool.workers (SubAgentPool.tool_pool count) = Z.to_nat (Qceiling count) /\
  (1 <= Z.of_nat (SubAgentPool.workers (SubAgentPool.tool_pool count))
     <= SubAgentPool.maxSubAgents)%Z /\
  (forall z : Z, count == inject_Z z ->
     Z.of_nat (SubAgentPool.workers (SubAgentPool.tool_pool count)) =
     Z.min z SubAgentPool.maxSubAgents) /\
  SubAgentPool.maxConcurrency (SubAgentPool.tool_pool count) = count /\
  (forall (Task T : Type) (execute : Task -> Completion T) (tasks : list Task)
          (st : @PoolRun.State Task T),
     PoolRun.reachable execute (SubAgentPool.tool_pool count) tasks st ->
     PoolRun.outstanding st = length (PoolRun.in_flight st) /\
     PoolRun.outstanding st <=
       SubAgentPool.workers (SubAgentPool.tool_pool count)) /\
  (forall (Task T : Type) (execute : Task -> Completion T)
          (choice : nat -> nat) (tasks : list Task) c st,
     PoolRun.executeAll execute choice (SubAgentPool.tool_pool count) tasks =
       Some (c, st) ->
     PoolRun.reachable execute (SubAgentPool.tool_pool count) tasks st) /\
  (forall (Task T : Type) (tasks : list Task),
     length (PoolRun.in_flight
               (PoolRun.start (T:=T) (SubAgentPool.tool_pool count) tasks)) =
     SubAgentPool.workers (SubAgentPool.tool_pool count) `min` length tasks) /\
  (forall m : Q,
     SubAgentPool.workers (SubAgentPool.spawn count (SubAgentPool.new (Some m))) =
     Z.to_nat (Qceiling (Qmin count m))).
Proof.
  unfold SubAgentPool.count_in_schema, SubAgentPool.maxSubAgents.
  intros [H1 H2]%andb_true_iff.
  apply Qle_bool_iff in H1, H2.
  apply Qceiling_resp_le in H1 as H1', H2 as H2'.
  change (Qceiling 1) with 1%Z in H1'. change (Qceiling 10) with 10%Z in H2'.
  assert (SubAgentPool.workers (SubAgentPool.tool_pool count) =
          Z.to_nat (Qceiling count)) as Hw.
  { unfold SubAgentPool.tool_pool. rewrite workers_spawn. simpl.
    by rewrite Qmin_same. }
  split; [done|]. split; [rewrite Hw; lia|].
  split; [|split; [done|split; [|split; [|split]]]].
  - intros z Hz. rewrite Hw, (Qceiling_comp _ _ Hz), Qceiling_Z in *. lia.
  - intros Task T execute tasks st Hst.
    rewrite (reachable_outstanding execute _ _ _ Hst). split; [done|].
    by eapply reachable_in_flight.
  - intros Task T execute choice tasks c st. apply executeAll_reachable.
  - intros Task T tasks. apply (start_in_flight (fun _ => Threw Samples.validation_error)).
  - intros m. by rewrite workers_spawn.
Qed.

(** C6 for a batch that asks for five workers. *)
Lemma tool_pool_parallelism_witness :
  SubAgentPool.count_in_schema 5 = true /\
  SubAgentPool.workers (SubAgentPool.tool_pool 5) = 5.
Proof.
  split; [reflexivity|].
  destruct (tool_pool_parallelism 5 eq_refl) as [H _]. exact H.
Defined.

(** C6: asked for eleven workers, the tool's pool has eleven, one more than
    [maxSubAgents]; asked for two and a half, which the schema lets
    through, it has three, more than the request; and a pool with the
    default ceiling of five has ten workers after two [spawn(5)]. *)
Lemma pool_exceeds_hard_limit :
  SubAgentPool.workers (SubAgentPool.tool_pool 11) = 11 /\
  (Z.min 11 SubAgentPool.maxSubAgents = 10)%Z /\
  SubAgentPool.count_in_schema (5 # 2) = true /\
  SubAgentPool.workers (SubAgentPool.tool_pool (5 # 2)) = 3 /\
  SubAgentPool.workers
    (SubAgentPool.spawn 5 (SubAgentPool.spawn 5 (SubAgentPool.new None))) = 10 /\
  SubAgentPool.maxConcurrency
    (SubAgentPool.spawn 5 (SubAgentPool.spawn 5 (SubAgentPool.new None))) = 5%Q.
Proof. repeat split. Qed.

(** ** Partial failure of a batch *)

Section PartialFailure.
Import PoolRun.
Context {Task : Type} (execute : Task -> Completion StepResult).

Lemma length_succeeded_failed (res : list StepResult) :
  length (succeeded res) + length (failed res) = length res.
Proof.
  unfold succeeded, failed. induction res as [|r res IH]; simpl; [done|].
  destruct (ok r); simpl; lia.
Qed.

Lemma succeeded_failed_perm (res : list StepResult) :
  succeeded res ++ failed res ≡ₚ res.
Proof.
  unfold succeeded, failed. induction res as [|r res IH]; simpl; [done|].
  destruct (ok r); simpl.
  - by rewrite IH.
  - by rewrite <-Permutation_middle, IH.
Qed.

(** X18. Partial failure. When [executeAll] returns on a pool with at least
    one agent, the two [filter]s split the results: every result is in
    exactly one of [succeeded] (those with [ok]) and [failed] (the others),
    and together the two lists have as many entries as there were tasks,
    so that [failed.length / tasks.length] is a share of the tasks. *)
Theorem partial_failure_splits_results (choice : nat -> nat)
    (pool : SubAgentPool.t) (tasks : list Task) (res : list StepResult)
    (st : State) :
  SubAgentPool.agents pool ≠ [] ->
  executeAll execute choice pool tasks = Some (Returned res, st) ->
  length (succeeded res) + length (failed res) = length tasks /\
  succeeded res ++ failed res ≡ₚ res /\
  (forall r, r ∈ succeeded res <-> r ∈ res /\ ok r = true) /\
  (forall r, r ∈ failed res <-> r ∈ res /\ ok r = false).
Proof.
  intros Hpool Hrun. unfold executeAll in Hrun.
  destruct (start_inv execute pool tasks) as [Hinv Hret].
  destruct (await_all_spec execute choice _ tasks (length tasks) 0 _ Hinv)
    as (c & st' & Hrun' & Hpost).
  { rewrite Hret. simpl. lia. }
  rewrite Hrun in Hrun'. simplify_eq.
  destruct Hpost as (Hinv' & Hf & ->).
  destruct (pool_inv_done execute (length (SubAgentPool.agents pool)) tasks st')
    as [Hc Hp]; [|done|done|].
  { destruct (SubAgentPool.agents pool); [done|simpl; lia]. }
  destruct Hinv' as (Hlen & Hq & Hres & Hprog & Hperm & Hbusy).
  split; [|split; [|split]].
  - rewrite length_succeeded_failed.
    apply Forall2_length in Hres. apply Permutation_length in Hp. lia.
  - apply succeeded_failed_perm.
  - intros r. unfold succeeded. rewrite !list_elem_of_In, filter_In. done.
  - intros r. unfold failed. rewrite !list_elem_of_In, filter_In.
    by rewrite negb_true_iff.
Qed.
End PartialFailure.

(** ** Spawning and shutting down *)

Section SpawnFacts.
Import SubAgentPool.

(** X19. [spawn(count)] appends one new idle agent for each whole number
    from 0 below [min(count, maxConcurrency)] (that many agents when the
    minimum is whole, the next whole number when it is not), numbered from
    0 whatever the pool already holds, after the agents the pool has, which
    it keeps; the loop stops there however many rounds it is allowed;
    [maxConcurrency] is unchanged; with a count or a ceiling that is not
    positive the pool is left as it was; after [shutdown] the pool has no
    agent. *)
Theorem spawn_appends_agents (count : Q) (pool : t) :
  agents (spawn count pool) =
    agents pool ++
    (createSubAgent <$>
       seq 0 (Z.to_nat (Qceiling (Qmin count (maxConcurrency pool))))) /\
  (forall k : nat,
     spawn_loop (Qmin count (maxConcurrency pool)) 0
       (Z.to_nat (Qceiling (Qmin count (maxConcurrency pool))) + k)
       (agents pool) = agents (spawn count pool)) /\
  (forall z : Z, Qmin count (maxConcurrency pool) == inject_Z z ->
     length (agents (spawn count pool)) = length (agents pool) + Z.to_nat z) /\
  maxConcurrency (spawn count pool) = maxConcurrency pool /\
  ((Qmin count (maxConcurrency pool) <= 0)%Q -> spawn count pool = pool) /\
  agents (shutdown (spawn count pool)) = [].
Proof.
  assert (agents (spawn count pool) =
          agents pool ++
          (createSubAgent <$>
             seq 0 (Z.to_nat (Qceiling (Qmin count (maxConcurrency pool))))))
    as Hsp.
  { unfold spawn. simpl.
    rewrite <- (Nat.add_0_r (Z.to_nat _)) at 1. by rewrite spawn_loop_seq. }
  split; [done|]. split; [|split; [|split; [done|split; [|done]]]].
  - intros k. rewrite Hsp. by rewrite spawn_loop_seq.
  - intros z Hz. rewrite Hsp, length_app, length_fmap, length_seq.
    by rewrite (Qceiling_comp _ _ Hz), Qceiling_Z.
  - intros H. apply Qceiling_resp_le in H.
    change (Qceiling 0) with 0%Z in H.
    destruct pool as [ags m]. unfold spawn in *. simpl in *.
    replace (Z.to_nat _) with 0 by lia. done.
Qed.
End SpawnFacts.

(** ** More on retries *)

Section MoreRetryFacts.
Import AgentRuntime.

(** X20. With [maxRetries] zero or negative, [executeWithRetry] never calls
    [fn]: the loop body does not run and the [throw new Error('Unreachable')]
    after the loop is reached. *)
Theorem executeWithRetry_without_attempts {T : Type} (fn : nat -> Completion T)
    (maxRetries : Z) :
  (maxRetries <= 0)%Z ->
  executeWithRetry fn (Some maxRetries) = (Threw Unreachable, []).
Proof.
  intros H. unfold executeWithRetry. simpl.
  by replace (Z.to_nat maxRetries) with 0 by lia.
Qed.

Lemma sum_backoff (m : nat) :
  foldr Z.add 0%Z (backoff <$> seq 0 m) = (1000 * (2 ^ Z.of_nat m - 1))%Z.
Proof.
  induction m as [|m IH]; [done|].
  rewrite seq_S, fmap_app, foldr_app. simpl.
  assert (forall (l : list Z) (a : Z),
            foldr Z.add a l = (a + foldr Z.add 0 l)%Z) as Hshift.
  { induction l as [|x l IHl]; intros a; simpl; [lia|]. rewrite IHl. lia. }
  rewrite Hshift, IH. unfold backoff.
  rewrite Nat2Z.inj_succ, Z.pow_succ_r by lia. lia.
Qed.

(** X21. When every attempt throws, [executeWithRetry] has slept
    [1000 * (2^(maxRetries - 1) - 1)] ms in all when it returns the last
    error: 3000 ms with the default of three attempts. *)
Theorem executeWithRetry_total_backoff {T : Type} (fn : nat -> Completion T)
    (maxRetries : Z) :
  (1 <= maxRetries)%Z ->
  (forall j, exists e, fn j = Threw e) ->
  foldr Z.add 0%Z (delays (executeWithRetry fn (Some maxRetries)).2) =
  (1000 * (2 ^ (maxRetries - 1) - 1))%Z.
Proof.
  intros Hn Hall. unfold executeWithRetry. simpl.
  destruct (Z.to_nat maxRetries) as [|rem] eqn:HN; [lia|].
  pose proof (retry_from_spec fn maxRetries 0 rem) as H.
  destruct (retry_from fn maxRetries 0 (S rem)) as [r evs]. simpl.
  destruct H as (Ha & Hd & Hthrow & Hr); [lia|].
  assert (attempts evs = S rem) as Hatt.
  { destruct r as [[v|e]|]; [|by destruct Hr|done].
    destruct (Hall (0 + (attempts evs - 1))) as [e He]. congruence. }
  rewrite Hd, Hatt, sum_backoff. do 3 f_equal. lia.
Qed.

(** X22. [executeWithRetry] around the runtime's [executeStep] does not retry
    a step that is denied approval, or that names a tool which is not
    registered and which [Object.prototype] does not answer either:
    [executeStep] returns a result with [ok: false] without throwing, so
    the first attempt is the only one and the outcome is
    [{ ok: true, value }] wrapping the failed result. When the name is not
    registered but [Object.prototype] answers it, every attempt throws:
    all [maxRetries] attempts are made and the outcome is [ok: false] with
    the [TypeError]. *)
Theorem retry_keeps_failed_results (reg : ToolRegistry) (appr : string -> bool)
    (s : Step) (maxRetries : Z) :
  (1 <= maxRetries)%Z ->
  (denied reg appr s = true \/
   (registry_get reg (tool s) = None /\ tool s ∉ Object_prototype) ->
   exists r,
     executeWithRetry (fun _ => (executeStep reg appr s).1) (Some maxRetries) =
       (Returned (Ok r), [Attempt 0]) /\
     ok r = false /\
     (denied reg appr s = true -> r = denial_result) /\
     (denied reg appr s = false ->
      r = error_result ("Unknown tool: " +:+ tool s))) /\
  (registry_get reg (tool s) = None -> tool s ∈ Object_prototype ->
   (executeWithRetry (fun _ => (executeStep reg appr s).1) (Some maxRetries)).1 =
     Returned (Err TypeError_not_a_function) /\
   attempts
     (executeWithRetry (fun _ => (executeStep reg appr s).1) (Some maxRetries)).2 =
     Z.to_nat maxRetries).
Proof.
  intros Hn. split.
  - intros H. unfold executeWithRetry. simpl.
    destruct (Z.to_nat maxRetries) as [|rem] eqn:HN; [lia|].
    rewrite retry_from_S. unfold executeStep, denied, registry_get in *.
    destruct (step_requiresApproval reg s && negb (appr (id s))) eqn:Hd.
    + exists denial_result. simpl. by repeat split.
    + destruct H as [?|[Hnone Hin]]; [done|]. rewrite Hnone.
      rewrite bool_decide_eq_false_2 by done. simpl.
      eexists. by repeat split.
  - intros Hnone Hin.
    assert ((executeStep reg appr s).1 = Threw TypeError_not_a_function) as Hfn.
    { unfold executeStep, step_requiresApproval, registry_get in *.
      rewrite Hnone. simpl. by rewrite bool_decide_eq_true_2. }
    unfold executeWithRetry. simpl.
    destruct (Z.to_nat maxRetries) as [|rem] eqn:HN; [lia|].
    pose proof (retry_from_spec (fun _ => (executeStep reg appr s).1)
                  maxRetries 0 rem) as H.
    destruct (retry_from _ maxRetries 0 (S rem)) as [r evs]. simpl.
    destruct H as (Ha & Hd & Hthrow & Hr); [lia|].
    destruct r as [[v|e]|]; [congruence| |done].
    destruct Hr as [He Hatt]. split; [|done].
    rewrite Hfn in He. by injection He as <-.
Qed.

End MoreRetryFacts.

(** ** More on the execution context *)

Section MoreContextFacts.
Import ExecutionContext.

(** X24. [ExecutionContext]: [get] after [set] on the same step id returns
    the value set; a [set] leaves the other ids as they were; a second
    [set] on an id replaces the first value; [get] on an empty context is
    [undefined]; and an argument ["$id"] resolves to the value set for
    [id]. *)
Theorem context_get_set (store : t) (k k' : string) (v v' : Value) :
  get (set k v store) k = v /\
  (k ≠ k' -> get (set k v store) k' = get store k') /\
  set k v' (set k v store) = set k v' store /\
  get empty k = VUndefined /\
  resolveArgs (set k v store) {[ k' := VStr ("$" +:+ k) ]} =
    Returned {[ k' := v ]}.
Proof.
  unfold get, set, resolveArgs, empty. repeat split.
  - by rewrite lookup_insert_eq.
  - intros Hne. by rewrite lookup_insert_ne.
  - apply insert_insert_eq.
  - rewrite map_fmap_singleton. rewrite resolveValue_reference.
    unfold get. by rewrite lookup_insert_eq.
Qed.
End MoreContextFacts.

(** ** The further samples *)

(** X1 on a plan whose first step was completed before the run. *)
Lemma execute_touches_only_pending_steps_witness :
  steps Examples.resumed !! 0 =
    Some (with_status completed (Samples.step "A" 1 "read_file" [])) /\
  exists st', ExecutionEngine.execute_loop Samples.tools Samples.approve_all
                Examples.resumed = Some st' /\
    ExecutionEngine.plan_steps st' !! 0 =
      Some (with_status completed (Samples.step "A" 1 "read_file" [])).
Proof.
  split; [reflexivity|].
  destruct (execute_touches_only_pending_steps Samples.tools Samples.approve_all
              Examples.resumed 0
              (with_status completed (Samples.step "A" 1 "read_file" []))
              eq_refl ltac:(discriminate)) as (st' & Hrun & Hs & _).
  exists st'. split; [exact Hrun|exact Hs].
Defined.

(** X4 on a step whose tool throws a validation error. *)
Lemma executeStep_catches_witness :
  ExecutionEngine.plan_steps
    (ExecutionEngine.executeStep (register Examples.write_file Samples.tools)
       Samples.approve_all 0 (ExecutionEngine.initial Examples.throwing)) =
  [with_result (error_result "ValidationError: INVALID_PATH")
     (with_status failed (Samples.step "T" 1 "write_file" []))].
Proof.
  destruct (executeStep_catches (register Examples.write_file Samples.tools)
              Samples.approve_all (ExecutionEngine.initial Examples.throwing) 0
              (Samples.step "T" 1 "write_file" []) Samples.validation_error
              eq_refl eq_refl (or_introl eq_refl)) as (H & _).
  exact H.
Defined.

(** X5 on the sample chain: nothing is stored for the steps left pending. *)
Lemma context_holds_returned_values_witness :
  fresh (steps Samples.chain) /\
  NoDup (id <$> steps Samples.chain) /\
  exists st', ExecutionEngine.execute_loop Samples.tools Samples.approve_all
                Samples.chain = Some st' /\
    forall s, s ∈ ExecutionEngine.plan_steps st' ->
      status s = pending \/ status s = skipped ->
      ExecutionEngine.context st' !! id s = None.
Proof.
  assert (fresh (steps Samples.chain)) as Hf by repeat constructor.
  assert (NoDup (id <$> steps Samples.chain)) as Hn.
  { apply (bool_decide_unpack _). vm_compute. exact I. }
  split; [exact Hf|]. split; [exact Hn|].
  destruct (context_holds_returned_values Samples.tools Samples.approve_all
              Samples.chain Hf Hn) as (st' & Hrun & _ & _ & H).
  exists st'. split; [exact Hrun|exact H].
Defined.

(** X6 on two reads, the second after the first. *)
Lemma dispatch_follows_dependencies_witness :
  fresh (steps Examples.two_reads) /\
  NoDup (id <$> steps Examples.two_reads) /\
  exists st', ExecutionEngine.execute_loop Samples.tools Samples.approve_all
                Examples.two_reads = Some st' /\
    (ExecutionEngine.EvStatus 1 running ∈ ExecutionEngine.trace st' ->
     exists tr1 tr2,
       ExecutionEngine.trace st' = tr1 ++ ExecutionEngine.EvStatus 1 running :: tr2 /\
       ExecutionEngine.EvStatus 0 completed ∈ tr1).
Proof.
  assert (fresh (steps Examples.two_reads)) as Hf by repeat constructor.
  assert (NoDup (id <$> steps Examples.two_reads)) as Hn.
  { apply (bool_decide_unpack _). vm_compute. exact I. }
  split; [exact Hf|]. split; [exact Hn|].
  destruct (dispatch_follows_dependencies Samples.tools Samples.approve_all
              Examples.two_reads Hf Hn) as (st' & Hrun & H).
  exists st'. split; [exact Hrun|].
  apply (H 1 0 (Samples.step "B" 2 "read_file" ["A"])
           (Samples.step "A" 1 "read_file" []) eq_refl eq_refl).
  apply list_elem_of_singleton. reflexivity.
Defined.


(** X9 on two reads, which [validatePlan] accepts. *)
Lemma accepted_plan_executes_its_tools_witness :
  PlanValidation.validatePlan Samples.tools Examples.out_of_order
    Examples.accepts_all Examples.two_reads = PlanValidation.Ok /\
  exists st', ExecutionEngine.execute_loop Samples.tools Samples.approve_all
                Examples.two_reads = Some st' /\
    forall i, ExecutionEngine.EvStatus i running ∈ ExecutionEngine.trace st' ->
      exists s, steps Examples.two_reads !! i = Some s /\
        (denied Samples.tools Samples.approve_all s = true \/
         ExecutionEngine.EvToolExecute i (tool s) (args s) ∈
           ExecutionEngine.trace st').
Proof.
  split; [reflexivity|].
  apply (accepted_plan_executes_its_tools Samples.tools Samples.approve_all
           Examples.out_of_order Examples.accepts_all Examples.two_reads).
  reflexivity.
Defined.

(** X10 on two reads, which [validatePlan] accepts and which both succeed. *)
Lemma validated_plan_completes_witness :
  fresh (steps Examples.two_reads) /\
  PlanValidation.validatePlan Samples.tools Examples.out_of_order
    Examples.accepts_all Examples.two_reads = PlanValidation.Ok /\
  acyclic (steps Examples.two_reads) /\
  (forall s, s ∈ steps Examples.two_reads ->
     succeeds Samples.tools Samples.approve_all s) /\
  exists st', ExecutionEngine.execute_loop Samples.tools Samples.approve_all
                Examples.two_reads = Some st' /\
    ExecutionEngine.hasRemainingSteps (ExecutionEngine.plan_steps st') = false.
Proof.
  assert (fresh (steps Examples.two_reads)) as Hf by repeat constructor.
  assert (acyclic (steps Examples.two_reads)) as Ha.
  { exists (fun d => if String.eqb d "B" then 1 else 0). simpl.
    repeat constructor. }
  assert (forall s, s ∈ steps Examples.two_reads ->
            succeeds Samples.tools Samples.approve_all s) as Hs.
  { intros s Hs. simpl in Hs.
    apply elem_of_cons in Hs as [->|Hs];
      [|apply elem_of_cons in Hs as [->|Hs]; [|by apply elem_of_nil in Hs]];
      (split; [reflexivity|]);
      exists (ok_result (VStr "contents")); split; reflexivity. }
  split; [exact Hf|]. split; [reflexivity|]. split; [exact Ha|].
  split; [exact Hs|].
  destruct (validated_plan_completes Samples.tools Samples.approve_all
              Examples.out_of_order Examples.accepts_all Examples.two_reads
              Hf eq_refl (fun _ => Ha) Hs) as (st' & Hrun & Hrem & _).
  exists st'. split; [exact Hrun|exact Hrem].
Defined.

(** X12: registering [write_file] does not change the run of the fan-out plan. *)
Lemma unused_tool_does_not_matter_witness :
  Forall (fun s => tool s ≠ name Examples.write_file) (steps Samples.fanout) /\
  ExecutionEngine.execute (register Examples.write_file Samples.tools)
    Samples.approve_all Samples.fanout =
  ExecutionEngine.execute Samples.tools Samples.approve_all Samples.fanout.
Proof.
  assert (Forall (fun s => tool s ≠ name Examples.write_file)
            (steps Samples.fanout)) as H.
  { repeat constructor; discriminate. }
  split; [exact H|].
  destruct (unused_tool_does_not_matter Samples.approve_all Samples.tools
              Examples.write_file Samples.fanout H) as [He _].
  exact He.
Defined.

(** X14 on the step that is denied approval. *)
Lemma engine_matches_runtime_witness :
  exists s',
    ExecutionEngine.plan_steps
      (ExecutionEngine.executeStep Samples.tools Samples.deny_all 0
         (ExecutionEngine.initial Samples.guarded)) !! 0 = Some s' /\
    (status s' = skipped ->
     (AgentRuntime.executeStep Samples.tools Samples.deny_all
        (Samples.step "X" 1 "delete_file" [])).1 =
     Returned AgentRuntime.denial_result).
Proof.
  destruct (engine_matches_runtime Samples.tools Samples.deny_all
              (ExecutionEngine.initial Samples.guarded) 0
              (Samples.step "X" 1 "delete_file" []) eq_refl)
    as (s' & Hs' & _ & H & _).
  exists s'. split; [exact Hs'|exact H].
Defined.

(** X15 on a batch of three tasks and a pool of two agents. *)
Lemma executeAll_runs_every_task_once_witness :
  SubAgentPool.agents (SubAgentPool.tool_pool 2) ≠ [] /\
  exists c st,
    PoolRun.executeAll Examples.run_task Examples.oldest_first
      (SubAgentPool.tool_pool 2) Examples.batch = Some (c, st) /\
    match c with
    | Returned res => (PoolRun.calls st).*2 = Examples.batch /\ length res = 3
    | Threw e => exists task, task ∈ Examples.batch /\
                   Examples.run_task task = Threw e
    end.
Proof.
  assert (SubAgentPool.agents (SubAgentPool.tool_pool 2) ≠ []) as H
    by discriminate.
  split; [exact H|].
  destruct (executeAll_runs_every_task_once Examples.run_task
              Examples.oldest_first (SubAgentPool.tool_pool 2) Examples.batch H)
    as (c & st & Hrun & Hpost).
  exists c, st. split; [exact Hrun|].
  destruct c as [res|e]; [|exact Hpost].
  destruct Hpost as (Hc & _ & _ & _ & Hl). split; [exact Hc|exact Hl].
Defined.

(** X17 on a pool nothing was spawned in. *)
Lemma executeAll_without_agents_witness :
  SubAgentPool.agents (SubAgentPool.new None) = [] /\
  exists st,
    PoolRun.executeAll Examples.run_task Examples.oldest_first
      (SubAgentPool.new None) Examples.batch = Some (Returned [], st) /\
    PoolRun.calls st = [] /\ PoolRun.queue st = Examples.batch.
Proof.
  split; [reflexivity|].
  apply (executeAll_without_agents Examples.run_task Examples.oldest_first
           (SubAgentPool.new None) Examples.batch).
  reflexivity.
Defined.

(** X18 on a batch of three tasks, two of which report a failure. *)
Lemma partial_failure_splits_results_witness :
  exists res st,
    PoolRun.executeAll Examples.run_task Examples.oldest_first
      (SubAgentPool.tool_pool 2) Examples.batch = Some (Returned res, st) /\
    length (PoolRun.succeeded res) + length (PoolRun.failed res) = 3.
Proof.
  eexists _, _. split; [vm_compute; reflexivity|].
  eapply (partial_failure_splits_results Examples.run_task Examples.oldest_first
            (SubAgentPool.tool_pool 2) Examples.batch).
  - discriminate.
  - vm_compute. reflexivity.
Defined.

(** X20 with [maxRetries = 0]. *)
Lemma executeWithRetry_without_attempts_witness :
  (0 <= 0)%Z /\
  AgentRuntime.executeWithRetry Examples.run_task (Some 0%Z) =
  (Threw AgentRuntime.Unreachable, []).
Proof.
  split; [lia|].
  apply (executeWithRetry_without_attempts Examples.run_task 0). lia.
Defined.

(** X21 with the default of three attempts: 1000 + 2000 ms. *)
Lemma executeWithRetry_total_backoff_witness :
  (1 <= 3)%Z /\
  foldr Z.add 0%Z
    (AgentRuntime.delays
       (AgentRuntime.executeWithRetry
          (fun _ => Threw Samples.validation_error : Completion unit)
          (Some 3%Z)).2) = 3000%Z.
Proof.
  split; [lia|].
  apply (executeWithRetry_total_backoff
           (fun _ => Threw Samples.validation_error : Completion unit) 3).
  - lia.
  - intros j. exists Samples.validation_error. reflexivity.
Defined.

(** X22 on the step that is denied approval, and on a step whose tool
    name is answered by [Object.prototype] only. *)
Lemma retry_keeps_failed_results_witness :
  (1 <= 3)%Z /\
  (exists r,
     AgentRuntime.executeWithRetry
       (fun _ => (AgentRuntime.executeStep Samples.tools Samples.deny_all
                    (Samples.step "X" 1 "delete_file" [])).1) (Some 3%Z) =
     (Returned (AgentRuntime.Ok r), [AgentRuntime.Attempt 0]) /\ ok r = false) /\
  AgentRuntime.attempts
    (AgentRuntime.executeWithRetry
       (fun _ => (AgentRuntime.executeStep Samples.tools Samples.approve_all
                    (Samples.step "Y" 1 "constructor" [])).1) (Some 3%Z)).2 = 3.
Proof.
  split; [lia|]. split.
  - destruct (retry_keeps_failed_results Samples.tools Samples.deny_all
                (Samples.step "X" 1 "delete_file" []) 3 ltac:(lia))
      as [H _].
    destruct (H (or_introl eq_refl)) as (r & Hr & Hok & _).
    exists r. split; [exact Hr|exact Hok].
  - destruct (retry_keeps_failed_results Samples.tools Samples.approve_all
                (Samples.step "Y" 1 "constructor" []) 3 ltac:(lia))
      as [_ H].
    destruct H as [_ H]; [reflexivity| |exact H].
    apply elem_of_cons. left. reflexivity.
Defined.
